(** * BoomerGit: lane allocation, tile rendering and tile cache

    A shallow embedding of [src/graph/layout.ts] (the lane allocation
    engine [computeGraphLayout]) and of the tile renderer and tile cache
    ([renderSvg], [SvgTileCache]), followed by the properties stated about
    them in the specification.

    Conventions of the embedding:
    - a lane array [(LaneEntry | null)[]] is a [list (option LaneEntry)];
      [null] is [None]; reading past the end ([undefined]) is the outer
      [None] of stdpp's list lookup;
    - column indices are [nat]; the [-1] that [findLane] returns for "not
      found" is [None];
    - the mutable locals [lanes] and [colorIdx] of [computeGraphLayout] are
      threaded explicitly ([LayoutState]);
    - every array write of the engine is in range (lemmas
      [findFreeLane_lt], [selectColumn_lt]), so stdpp's list insert is the
      JavaScript assignment. *)

From Stdlib Require Import ZArith Lia Ascii String.
From Stdlib Require Import PrimFloat SpecFloat FloatOps Uint63.
From Stdlib Require FloatAxioms.
From stdpp Require Import base list strings gmap pretty.

Open Scope string_scope.
Open Scope list_scope.
Open Scope nat_scope.

Set Warnings "-inexact-float".

(** ** Data model ([src/graph/types.ts], [src/git/types.ts]) *)

Module Layout.

(** [interface LaneEntry { hash; color }] *)
Record LaneEntry := mkLane { lane_hash : string; lane_color : string }.

(** [interface Commit]: only [hash] and [parents] are read by the engine. *)
Record Commit := mkCommit { hash : string; parents : list string }.

(** [half?: "top" | "bottom"]; an absent [half] is [None]. *)
Inductive Half := HalfTop | HalfBottom.

Record Segment := mkSeg {
  topCol : nat;
  botCol : nat;
  color : string;
  half : option Half
}.

Record GraphRow := mkRow {
  commitHash : string;
  commitCol : nat;
  commitColor : string;
  segments : list Segment;
  numCols : nat
}.

#[global] Instance LaneEntry_eq_dec : EqDecision LaneEntry.
Proof. solve_decision. Defined.
#[global] Instance Half_eq_dec : EqDecision Half.
Proof. solve_decision. Defined.
#[global] Instance Segment_eq_dec : EqDecision Segment.
Proof. solve_decision. Defined.
#[global] Instance GraphRow_eq_dec : EqDecision GraphRow.
Proof. solve_decision. Defined.

Definition BRANCH_COLORS : list string :=
  [ "#F5A623"; "#4FC3F7"; "#81C784"; "#E57373"; "#BA68C8"; "#FFD54F";
    "#4DD0E1"; "#FF8A65"; "#A1887F"; "#90A4AE"; "#AED581"; "#7986CB" ].

(** ** The engine's mutable state *)

Abbreviation Lanes := (list (option LaneEntry)).

Record LayoutState := mkState { lanes : Lanes; colorIdx : nat }.

(** [const lanes = []; let colorIdx = 0;] *)
Definition initState : LayoutState := mkState [] 0.

(** [{ lane, color }], the element type of [forks] and [merges]. *)
Record Link := mkLink { lane : nat; link_color : string }.

(** ** Helper closures of [computeGraphLayout] *)

(** [nextColor]: returns the colour and the incremented counter. *)
Definition nextColor (idx : nat) : string * nat :=
  (default "" (BRANCH_COLORS !! (idx mod length BRANCH_COLORS)), S idx).

#[global] Arguments nextColor : simpl never.

(** The scan of [findFreeLane], started at index [i]. *)
Fixpoint findFreeFrom (excludeIndices : list nat) (i : nat) (l : Lanes)
  : option nat :=
  match l with
  | [] => None
  | x :: l' =>
      if bool_decide (x = None) && negb (bool_decide (i ∈ excludeIndices))
      then Some i
      else findFreeFrom excludeIndices (S i) l'
  end.

(** [findFreeLane(...excludeIndices)]: the index found, and the lane array
    (extended by one [null] when the scan fails). *)
Definition findFreeLane (excludeIndices : list nat) (l : Lanes) : nat * Lanes :=
  match findFreeFrom excludeIndices 0 l with
  | Some i => (i, l)
  | None => (length l, l ++ [None])
  end.

(** [lanes[i]?.hash === hash] *)
Definition awaits (h : string) (x : option LaneEntry) : bool :=
  match x with
  | Some e => bool_decide (lane_hash e = h)
  | None => false
  end.

Fixpoint findLaneFrom (h : string) (exclude : option nat) (i : nat) (l : Lanes)
  : option nat :=
  match l with
  | [] => None
  | x :: l' =>
      if negb (bool_decide (exclude = Some i)) && awaits h x
      then Some i
      else findLaneFrom h exclude (S i) l'
  end.

(** [findLane(hash, exclude = -1)]; the default [-1] is [None]. *)
Definition findLane (h : string) (exclude : option nat) (l : Lanes) : option nat :=
  findLaneFrom h exclude 0 l.

Fixpoint findAllFrom (h : string) (i : nat) (l : Lanes) : list nat :=
  match l with
  | [] => []
  | x :: l' =>
      if awaits h x then i :: findAllFrom h (S i) l'
      else findAllFrom h (S i) l'
  end.

(** [findAllLanes(hash)] *)
Definition findAllLanes (h : string) (l : Lanes) : list nat := findAllFrom h 0 l.

(** ** One iteration of [for (const commit of commits)] *)

(** Lines 48-60: the commit column, the converging lanes, and the state
    after a new tip has taken its lane. *)
Record Selection := mkSel {
  sel_isNewTip : bool;
  sel_commitLane : nat;
  sel_convergingLanes : list nat;
  sel_lanes : Lanes;
  sel_colorIdx : nat
}.

Definition selectColumn (st : LayoutState) (commit : Commit) : Selection :=
  match findAllLanes (hash commit) (lanes st) with
  | [] =>
      let '(commitLane, l1) := findFreeLane [] (lanes st) in
      let '(c, idx1) := nextColor (colorIdx st) in
      mkSel true commitLane []
            (<[commitLane := Some (mkLane (hash commit) c)]> l1) idx1
  | m0 :: rest => mkSel false m0 rest (lanes st) (colorIdx st)
  end.

(** [lanes[i]!.color] *)
Definition colorAt (l : Lanes) (i : nat) : string :=
  match l !! i with
  | Some (Some e) => lane_color e
  | _ => ""
  end.

(** Lines 66-68: [for (const cl of convergingLanes) lanes[cl] = null;] *)
Definition freeLanes (cls : list nat) (l : Lanes) : Lanes :=
  fold_left (fun acc cl => <[cl := None]> acc) cls l.

(** The variables the parent loop updates. *)
Record ParentAcc := mkAcc {
  pa_lanes : Lanes;
  pa_colorIdx : nat;
  pa_forks : list Link;
  pa_merges : list Link
}.

(** Lines 85-95: the body of [for (let pi = 1; ...)]. *)
Definition processParent (commitLane : nat) (acc : ParentAcc) (parentHash : string)
  : ParentAcc :=
  match findLane parentHash (Some commitLane) (pa_lanes acc) with
  | Some existing =>
      mkAcc (pa_lanes acc) (pa_colorIdx acc) (pa_forks acc)
            (pa_merges acc ++ [mkLink existing (colorAt (pa_lanes acc) existing)])
  | None =>
      let '(nl, l1) := findFreeLane [commitLane] (pa_lanes acc) in
      let '(nc, idx1) := nextColor (pa_colorIdx acc) in
      mkAcc (<[nl := Some (mkLane parentHash nc)]> l1) idx1
            (pa_forks acc ++ [mkLink nl nc]) (pa_merges acc)
  end.

(** Lines 75-97.  The flag [commitLaneContinues] is set to [true] exactly
    in the second branch; [layoutRow] computes it as that branch's test. *)
Definition applyParents (commitLane : nat) (commitColor : string)
    (ps : list string) (l : Lanes) (idx : nat) : ParentAcc :=
  match ps with
  | [] => mkAcc (<[commitLane := None]> l) idx [] []
  | p0 :: more =>
      fold_left (processParent commitLane) more
        (mkAcc (<[commitLane := Some (mkLane p0 commitColor)]> l) idx [] [])
  end.

(** Lines 106-113: pass-through segments. *)
Definition passThroughs (commitLane : nat) (topLanes botLanes : Lanes)
  : list Segment :=
  flat_map
    (fun i =>
       if bool_decide (i = commitLane) then []
       else match topLanes !! i, botLanes !! i with
            | Some (Some t), Some (Some _) => [mkSeg i i (lane_color t) None]
            | _, _ => []
            end)
    (seq 0 (max (length topLanes) (length botLanes))).

(** Lines 117-120: convergence curves; [topLanes[cl]?.color ?? commitColor]. *)
Definition convergences (commitLane : nat) (commitColor : string)
    (topLanes : Lanes) (cls : list nat) : list Segment :=
  map (fun cl =>
         mkSeg cl commitLane
               (match topLanes !! cl with
                | Some (Some t) => lane_color t
                | _ => commitColor
                end) None) cls.

(** Lines 123-135: the commit-lane stub; [noParents] is the test
    [commit.parents.length === 0] of the [else if]. *)
Definition commitStub (commitLane : nat) (commitColor : string)
    (commitLaneContinues noParents isNewTip : bool) : list Segment :=
  if commitLaneContinues then
    if isNewTip then [mkSeg commitLane commitLane commitColor (Some HalfBottom)]
    else [mkSeg commitLane commitLane commitColor None]
  else if noParents then
    if isNewTip then [mkSeg commitLane commitLane commitColor None]
    else [mkSeg commitLane commitLane commitColor (Some HalfTop)]
  else [].

(** Lines 138-140. *)
Definition forkSegments (commitLane : nat) (forks : list Link) : list Segment :=
  map (fun f => mkSeg commitLane (lane f) (link_color f) (Some HalfBottom)) forks.

(** Lines 143-145. *)
Definition mergeSegments (commitLane : nat) (merges : list Link) : list Segment :=
  map (fun m => mkSeg (lane m) commitLane (link_color m) None) merges.

(** Lines 148-152: the running maximum. *)
Definition maxColOf (commitLane : nat) (segs : list Segment) : nat :=
  fold_left
    (fun maxCol seg =>
       let maxCol := if maxCol <? topCol seg then topCol seg else maxCol in
       if maxCol <? botCol seg then botCol seg else maxCol)
    segs commitLane.

(** All the locals of one iteration, kept so that properties can refer to
    the snapshots and to the fork and merge lists. *)
Record RowLocals := mkLocals {
  isNewTip : bool;
  commitLane : nat;
  convergingLanes : list nat;
  topLanes : Lanes;
  freedLanes : Lanes;
  forks : list Link;
  merges : list Link;
  botLanes : Lanes;
  colorIdxAfter : nat;
  row : GraphRow
}.

Definition layoutRow (st : LayoutState) (commit : Commit) : RowLocals :=
  let sel := selectColumn st commit in
  let commitLane := sel_commitLane sel in
  let commitColor := colorAt (sel_lanes sel) commitLane in
  let topLanes := sel_lanes sel in
  let freed := freeLanes (sel_convergingLanes sel) (sel_lanes sel) in
  let acc := applyParents commitLane commitColor (parents commit) freed
               (sel_colorIdx sel) in
  let commitLaneContinues := negb (bool_decide (parents commit = [])) in
  let botLanes := pa_lanes acc in
  let segs :=
    passThroughs commitLane topLanes botLanes
    ++ convergences commitLane commitColor topLanes (sel_convergingLanes sel)
    ++ commitStub commitLane commitColor commitLaneContinues
         (bool_decide (parents commit = [])) (sel_isNewTip sel)
    ++ forkSegments commitLane (pa_forks acc)
    ++ mergeSegments commitLane (pa_merges acc) in
  mkLocals (sel_isNewTip sel) commitLane (sel_convergingLanes sel) topLanes freed
           (pa_forks acc) (pa_merges acc) botLanes (pa_colorIdx acc)
           (mkRow (hash commit) commitLane commitColor segs
                  (maxColOf commitLane segs + 1)).

(** The state change and the row pushed by one iteration. *)
Definition processCommit (st : LayoutState) (commit : Commit)
  : LayoutState * GraphRow :=
  let w := layoutRow st commit in
  (mkState (botLanes w) (colorIdxAfter w), row w).

(** The loop over [commits], from an arbitrary state. *)
Fixpoint layoutFrom (st : LayoutState) (commits : list Commit) : list GraphRow :=
  match commits with
  | [] => []
  | c :: cs =>
      let '(st', r) := processCommit st c in
      r :: layoutFrom st' cs
  end.

(** [computeGraphLayout(commits)] *)
Definition computeGraphLayout (commits : list Commit) : list GraphRow :=
  layoutFrom initState commits.

(** The state reached after a prefix of the commits. *)
Definition stateAfter (st : LayoutState) (commits : list Commit) : LayoutState :=
  fold_left (fun s c => fst (processCommit s c)) commits st.

End Layout.

Import Layout.

(** ** Tile renderer and tile cache ([renderSvg], [SvgTileCache])

    A JavaScript number is an IEEE 754 binary64 value: the kernel's
    primitive [float], whose operations round as the processor does.  A
    decimal literal of the source is the nearest binary64 value, as in
    JavaScript; [===] and [!==] on numbers are the IEEE comparison
    [PrimFloat.eqb].  The conversion of a number to text inside a template
    literal and Node's [path.join] belong to the platform and are taken as
    parameters ([showNum], [path_join]). *)

Module Tiles.

#[local] Open Scope float_scope.

Definition COL_WIDTH : float := 20.
Definition ROW_HEIGHT : float := 24.
Definition DOT_RADIUS : float := 5.
Definition LINE_WIDTH : float := 2.5.
Definition SHADOW_WIDTH : float := 5.
Definition SHADOW_OPACITY : float := 0.75.
Definition BG_COLOR : string := "#1e1e1e".

(** A column index or a column count as a number.  Indices and counts are
    bounded by the length of an array, which is below 2^32; every integer
    below 2^53 is a number, and on those the conversion is exact. *)
Definition numOfNat (n : nat) : float := of_uint63 (of_Z (Z.of_nat n)).

(** [colX(col)] *)
Definition colX (col : nat) : float := numOfNat col * COL_WIDTH + COL_WIDTH / 2.

(** The path drawn by [segmentPath], before it is printed. *)
Inductive PathData :=
| StraightLine (x0 y0 x1 y1 : float)
| Bezier (x0 y0 c0x c0y c1x c1y x1 y1 : float).

(** [segmentPath(x0, y0, x1, y1, cpFactor)], as data. *)
Definition segmentPathData (x0 y0 x1 y1 cpFactor : float) : PathData :=
  if x0 =? x1 then StraightLine x0 y0 x1 y1
  else
    let cpY := y0 + (y1 - y0) * cpFactor in
    Bezier x0 y0 x0 cpY x1 cpY x1 y1.

(** The vertical span chosen in [renderSvg] from [seg.half]. *)
Definition spanOf (h : option Half) (rowHeight : float) : float * float :=
  let midY := rowHeight / 2 in
  match h with
  | Some HalfTop => (0, midY)
  | Some HalfBottom => (midY, rowHeight)
  | None => (0, rowHeight)
  end.

(** [isFullHeightCurve ? 0.35 : 0.5], with
    [isFullHeightCurve = !seg.half && xTop !== xBot]. *)
Definition cpFactorOf (h : option Half) (xTop xBot : float) : float :=
  if bool_decide (h = None) && negb (xTop =? xBot) then 0.35 else 0.5.

(** The [d] attribute computed for one segment. *)
Definition segmentGeometry (seg : Segment) (rowHeight : float) : PathData :=
  let xTop := colX (topCol seg) in
  let xBot := colX (botCol seg) in
  let '(y0, y1) := spanOf (half seg) rowHeight in
  segmentPathData xTop y0 xBot y1 (cpFactorOf (half seg) xTop xBot).

(** One [<path>] element: geometry, stroke colour, width, optional opacity. *)
Record PathElem := mkPath {
  path_d : PathData;
  path_stroke : string;
  path_width : float;
  path_opacity : option float
}.

Record Circle := mkCircle {
  circle_cx : float;
  circle_cy : float;
  circle_r : float;
  circle_fill : string
}.

(** The rendered tile, before it is printed. *)
Record SvgTile := mkTile {
  svg_width : float;
  svg_height : float;
  svg_shadows : list PathElem;
  svg_lines : list PathElem;
  svg_dot : Circle
}.

(** [renderSvg(row, rowHeight = ROW_HEIGHT, maxCols?)], as data. *)
Definition renderTile (row : GraphRow) (rowHeight : option float) (maxCols : option nat)
  : SvgTile :=
  let rowHeight := default ROW_HEIGHT rowHeight in
  let cols := default (numCols row) maxCols in
  let width := numOfNat cols * COL_WIDTH + COL_WIDTH in
  let midY := rowHeight / 2 in
  mkTile width rowHeight
    (map (fun seg => mkPath (segmentGeometry seg rowHeight) BG_COLOR SHADOW_WIDTH
                            (Some SHADOW_OPACITY)) (segments row))
    (map (fun seg => mkPath (segmentGeometry seg rowHeight) (color seg) LINE_WIDTH
                            None) (segments row))
    (mkCircle (colX (commitCol row)) midY DOT_RADIUS (commitColor row)).

(** [s.replace("#", "")]: the first ["#"] is removed. *)
Fixpoint dropFirstHash (s : string) : string :=
  match s with
  | EmptyString => EmptyString
  | String a s' => if bool_decide (a = "#"%char) then s' else String a (dropFirstHash s')
  end.

(** [x | 0] on an integer-valued number. *)
Definition toInt32 (z : Z) : Z := ((z + 2 ^ 31) mod 2 ^ 32 - 2 ^ 31)%Z.

(** [x >>> 0] on an integer-valued number. *)
Definition toUint32 (z : Z) : Z := (z mod 2 ^ 32)%Z.

(** [hash = ((hash << 5) - hash + str.charCodeAt(i)) | 0] *)
Definition hashStep (h : Z) (c : ascii) : Z :=
  toInt32 (toInt32 (Z.shiftl h 5) - h + Z.of_nat (nat_of_ascii c))%Z.

(** The loop over [str]; the key text is ASCII, so a character of the
    Rocq string is the code unit [charCodeAt] returns. *)
Fixpoint hashString (h : Z) (s : string) : Z :=
  match s with
  | EmptyString => h
  | String c s' => hashString (hashStep h c) s'
  end.

Definition digit36 (d : Z) : ascii :=
  default "0"%char
    (list_ascii_of_string "0123456789abcdefghijklmnopqrstuvwxyz" !! Z.to_nat d).

(** [n.toString(36)] for [0 <= n < 2^32] (at most seven digits). *)
Fixpoint toBase36 (fuel : nat) (n : Z) (acc : string) : string :=
  match fuel with
  | O => acc
  | S fuel' =>
      let acc' := String (digit36 (n mod 36)) acc in
      if (n / 36 =? 0)%Z then acc' else toBase36 fuel' (n / 36)%Z acc'
  end.

Definition toString36 (n : Z) : string := toBase36 7 n "".

Definition halfLetter (h : option Half) : string :=
  match h with
  | Some HalfTop => "T"
  | Some HalfBottom => "B"
  | None => "F"
  end.

(** The call log and the files of the cache directory are state of the
    outside world; [rendered] is a ghost log of the calls of [renderSvg]. *)
Record RenderCall := mkCall {
  call_row : GraphRow;
  call_rowHeight : float;
  call_cols : nat
}.

Record SvgTileCache := mkCache {
  cacheDir : string;
  cache : gmap string string;
  files : gmap string string;
  rendered : list RenderCall
}.

Section Platform.
(** Number-to-text conversion of template literals. *)
Variable showNum : float -> string.
(** [path.join] of Node. *)
Variable path_join : string -> string -> string.

Definition quote : string := String (ascii_of_nat 34) EmptyString.
Definition newline : string := String (ascii_of_nat 10) EmptyString.

Definition attr (name value : string) : string :=
  (" " +:+ name +:+ "=" +:+ quote +:+ value +:+ quote)%string.

(** [segmentPath] as text. *)
Definition pathText (d : PathData) : string :=
  match d with
  | StraightLine x0 y0 x1 y1 =>
      "M" +:+ showNum x0 +:+ "," +:+ showNum y0
      +:+ " L" +:+ showNum x1 +:+ "," +:+ showNum y1
  | Bezier x0 y0 c0x c0y c1x c1y x1 y1 =>
      "M" +:+ showNum x0 +:+ "," +:+ showNum y0
      +:+ " C" +:+ showNum c0x +:+ "," +:+ showNum c0y
      +:+ " " +:+ showNum c1x +:+ "," +:+ showNum c1y
      +:+ " " +:+ showNum x1 +:+ "," +:+ showNum y1
  end%string.

Definition segmentPath (x0 y0 x1 y1 cpFactor : float) : string :=
  pathText (segmentPathData x0 y0 x1 y1 cpFactor).

Definition pathElemText (p : PathElem) : string :=
  ("<path" +:+ attr "d" (pathText (path_d p)) +:+ attr "fill" "none"
   +:+ attr "stroke" (path_stroke p)
   +:+ attr "stroke-width" (showNum (path_width p))
   +:+ match path_opacity p with
       | Some o => attr "stroke-opacity" (showNum o)
       | None => ""
       end
   +:+ attr "stroke-linecap" "round" +:+ "/>")%string.

Definition circleText (c : Circle) : string :=
  ("<circle" +:+ attr "cx" (showNum (circle_cx c))
   +:+ attr "cy" (showNum (circle_cy c))
   +:+ attr "r" (showNum (circle_r c))
   +:+ attr "fill" (circle_fill c)
   +:+ attr "stroke" BG_COLOR
   +:+ attr "stroke-width" "1.5"
   +:+ attr "stroke-opacity" (showNum SHADOW_OPACITY) +:+ "/>")%string.

Definition tileText (t : SvgTile) : string :=
  String.concat newline
    ([ ("<svg" +:+ attr "xmlns" "http://www.w3.org/2000/svg"
        +:+ attr "width" (showNum (svg_width t))
        +:+ attr "height" (showNum (svg_height t))
        +:+ attr "viewBox" ("0 0 " +:+ showNum (svg_width t) +:+ " "
                            +:+ showNum (svg_height t)) +:+ ">")%string ]
     ++ map pathElemText (svg_shadows t)
     ++ map pathElemText (svg_lines t)
     ++ [ circleText (svg_dot t); "</svg>" ])%list.

(** [renderSvg(row, rowHeight, maxCols)] *)
Definition renderSvg (row : GraphRow) (rowHeight : option float) (maxCols : option nat)
  : string :=
  tileText (renderTile row rowHeight maxCols).

(** The text hashed by [buildKey]: [parts.join("_")]. *)
Definition keyText (row : GraphRow) (rowHeight : float) (maxCols : nat) : string :=
  String.concat "_"
    ((("c" +:+ showNum (numOfNat (commitCol row)) +:+ ":"
       +:+ dropFirstHash (commitColor row)
       +:+ ":h" +:+ showNum rowHeight
       +:+ ":w" +:+ showNum (numOfNat maxCols))%string)
     :: map (fun seg =>
               (halfLetter (half seg) +:+ showNum (numOfNat (topCol seg))
                +:+ "-" +:+ showNum (numOfNat (botCol seg)) +:+ ":"
                +:+ dropFirstHash (color seg))%string)
            (segments row)).

(** [buildKey(row, rowHeight, maxCols)] *)
Definition buildKey (row : GraphRow) (rowHeight : float) (maxCols : nat) : string :=
  ("tile_" +:+ toString36 (toUint32 (hashString 0 (keyText row rowHeight maxCols))))%string.

(** [new SvgTileCache(storageDir)]; [existing] are the files already in the
    cache directory. *)
Definition newCache (storageDir : string) (existing : gmap string string)
  : SvgTileCache :=
  mkCache (path_join storageDir "svg-tiles") ∅ existing [].

(** [getTilePath(row, rowHeight = ROW_HEIGHT, maxCols?)]; a cached value
    is used when it is truthy, that is, a non-empty string. *)
Definition getTilePath (c : SvgTileCache) (row : GraphRow)
    (rowHeight : option float) (maxCols : option nat) : string * SvgTileCache :=
  let rowHeight := default ROW_HEIGHT rowHeight in
  let cols := default (numCols row) maxCols in
  let key := buildKey row rowHeight cols in
  let miss :=
    let svg := renderSvg row (Some rowHeight) (Some cols) in
    let filePath := path_join (cacheDir c) (key +:+ ".svg")%string in
    (filePath,
     mkCache (cacheDir c) (<[key := filePath]> (cache c))
             (<[filePath := svg]> (files c))
             (rendered c ++ [mkCall row rowHeight cols])) in
  match cache c !! key with
  | Some cached => if bool_decide (cached = "") then miss else (cached, c)
  | None => miss
  end.

(** [clear()]: the map is emptied and every file of the directory removed. *)
Definition clear (c : SvgTileCache) : SvgTileCache :=
  mkCache (cacheDir c) ∅ ∅ (rendered c).

(** The caches a program can build. *)
Inductive reachable : SvgTileCache -> Prop :=
| reach_new storageDir existing : reachable (newCache storageDir existing)
| reach_get c row rowHeight maxCols :
    reachable c -> reachable (snd (getTilePath c row rowHeight maxCols))
| reach_clear c : reachable c -> reachable (clear c).

End Platform.

End Tiles.

Import Tiles.

(** * Notions used in the statements *)

(** ** Observations of a run *)

(** The state reached after a prefix of a run is [stateAfter]; within one
    row, [loopStateAt st c n] is the value of the loop variables after [n]
    merge parents have been processed (for [n = 0], after the first parent
    has been written; for a root commit, after its lane has been
    cleared). *)
Definition loopStateAt (st : LayoutState) (c : Commit) (n : nat) : ParentAcc :=
  let sel := selectColumn st c in
  let cl := sel_commitLane sel in
  applyParents cl (colorAt (sel_lanes sel) cl)
    (take (S n) (parents c))
    (freeLanes (sel_convergingLanes sel) (sel_lanes sel)) (sel_colorIdx sel).

(** Slot [i] is opened between two lane arrays: not occupied before,
    occupied after. *)
Definition opensLane (before after : Lanes) (i : nat) : Prop :=
  (forall e, before !! i <> Some (Some e)) /\ exists e, after !! i = Some (Some e).

(** Slot [k] is the leftmost free slot of [l], or the slot appended to [l]
    when [l] has no free slot. *)
Definition leftmostFree (l : Lanes) (k : nat) : Prop :=
  (forall j, j < k -> l !! j <> Some None) /\
  (l !! k = Some None \/ (k = length l /\ forall j, l !! j <> Some None)).

(** The lanes a row opens, in the order it opens them: the commit column of
    a new tip, then the lanes of its forks; each with the colour drawn for
    it by [nextColor]. *)
Definition openedBy (w : RowLocals) : list Link :=
  (if isNewTip w then [mkLink (commitLane w) (commitColor (row w))] else [])
  ++ forks w.

Fixpoint openedFrom (st : LayoutState) (commits : list Commit) : list Link :=
  match commits with
  | [] => []
  | c :: cs => openedBy (layoutRow st c) ++ openedFrom (processCommit st c).1 cs
  end.

(** All lanes opened by a run of [computeGraphLayout], in order. *)
Definition openedLanes (commits : list Commit) : list Link :=
  openedFrom initState commits.

(** The columns a segment list refers to. *)
Definition colsOfSegments (segs : list Segment) : list nat :=
  flat_map (fun s => [topCol s; botCol s]) segs.

(** The fields the cache key is computed from. *)
Definition keyFields (row : GraphRow) (rowHeight : float) (cols : nat)
  : nat * string * float * nat * list (option Half * nat * nat * string) :=
  (commitCol row, commitColor row, rowHeight, cols,
   map (fun seg => (half seg, topCol seg, botCol seg, color seg)) (segments row)).

(** ** The specification's wording *)

(** The stub rule: bottom-half for a new tip with parents, full height for
    a continuing strand that is not a new tip, top-half for a root that is
    not a new tip, full height for a root that is a new tip. *)
Definition specStubHalf (hasParents newTip : bool) : option Half :=
  match hasParents, newTip with
  | true, true => Some HalfBottom
  | true, false => None
  | false, false => Some HalfTop
  | false, true => None
  end.










(** The last part of the convergence property as worded: a converging lane
    stays empty for the rest of the pass. *)
Definition convergingLaneStaysFree : Prop :=
  forall (before : list Commit) (c : Commit) (later : list Commit) m rest k,
    findAllLanes (hash c) (lanes (stateAfter initState before)) = m :: rest ->
    k ∈ rest ->
    lanes (stateAfter initState (before ++ c :: later)) !! k = Some None.

(** The second half of the colour property as worded: when a slot is
    opened again, the new occupant's colour differs from the colour of the
    slot's previous occupant. *)
Definition reusedSlotGetsDistinctColor : Prop :=
  forall (commits : list Commit) i j f g,
    i < j ->
    openedLanes commits !! i = Some f ->
    openedLanes commits !! j = Some g ->
    lane f = lane g ->
    (forall k h, i < k < j -> openedLanes commits !! k = Some h -> lane h <> lane f) ->
    link_color f <> link_color g.

(** ** The parent loop, step by step *)

(** The two outcomes of one merge parent. *)
Inductive ParentStep (cl : nat) (acc : ParentAcc) (p : string)
  : ParentAcc -> Prop :=
| step_merge existing :
    findLane p (Some cl) (pa_lanes acc) = Some existing ->
    ParentStep cl acc p
      (mkAcc (pa_lanes acc) (pa_colorIdx acc) (pa_forks acc)
             (pa_merges acc ++ [mkLink existing (colorAt (pa_lanes acc) existing)]))
| step_fork nl l1 :
    findLane p (Some cl) (pa_lanes acc) = None ->
    findFreeLane [cl] (pa_lanes acc) = (nl, l1) ->
    ParentStep cl acc p
      (mkAcc (<[nl := Some (mkLane p (nextColor (pa_colorIdx acc)).1)]> l1)
             (S (pa_colorIdx acc))
             (pa_forks acc ++ [mkLink nl (nextColor (pa_colorIdx acc)).1])
             (pa_merges acc)).

(** Fork and merge lanes are never the commit column, which keeps its entry. *)
Definition LoopInv (cl : nat) (e0 : LaneEntry) (a : ParentAcc) : Prop :=
  pa_lanes a !! cl = Some (Some e0) /\
  Forall (fun f => lane f <> cl) (pa_forks a) /\
  Forall (fun m => lane m <> cl) (pa_merges a).

(** Every lane is as in [l0] or has been taken by a recorded fork. *)
Definition FrameInv (l0 : Lanes) (a : ParentAcc) : Prop :=
  forall j, pa_lanes a !! j = l0 !! j \/ exists f, f ∈ pa_forks a /\ lane f = j.

(** Recorded forks and merges name lanes that hold an entry of their colour. *)
Definition LinksInv (a : ParentAcc) : Prop :=
  (forall f, f ∈ pa_forks a ->
     exists e, pa_lanes a !! lane f = Some (Some e) /\ lane_color e = link_color f) /\
  (forall m, m ∈ pa_merges a ->
     exists e, pa_lanes a !! lane m = Some (Some e) /\ lane_color e = link_color m).

(** While lane [ex] is the lane found for [p], it stays so through the
    loop. *)
Definition DonorInv (cl : nat) (p : string) (ex : nat) (e : LaneEntry)
    (a : ParentAcc) : Prop :=
  findLane p (Some cl) (pa_lanes a) = Some ex /\ pa_lanes a !! ex = Some (Some e).

(** The counter equals the number of lanes opened so far, and the forks
    recorded carry the colours drawn in order. *)
Definition ColorInv (idx0 : nat) (a : ParentAcc) : Prop :=
  pa_colorIdx a = idx0 + length (pa_forks a) /\
  forall k f, pa_forks a !! k = Some f -> link_color f = (nextColor (idx0 + k)).1.

(** ** Sample inputs *)

(** Scenarios of the specification: a linear history, two tips converging
    on a common parent, and the octopus merge of [test-svg-verify.mjs]
    (scenario 4). *)
Definition linearHistory : list Commit :=
  [ mkCommit "c3" ["c2"]; mkCommit "c2" ["c1"]; mkCommit "c1" [] ].

Definition convergingTips : list Commit :=
  [ mkCommit "t1" ["base"]; mkCommit "t2" ["base"]; mkCommit "base" [] ].

Definition scenario4 : list Commit :=
  [ mkCommit "d1" ["d2"]; mkCommit "d2" ["d6"; "d3"; "d4"; "d5"];
    mkCommit "d3" ["d6"]; mkCommit "d4" ["d6"]; mkCommit "d5" ["d6"];
    mkCommit "d6" ["d7"]; mkCommit "d7" [] ].

(** Two tips converge on a merge commit with two parents. *)
Definition convergingMerge : list Commit :=
  [ mkCommit "t1" ["x"]; mkCommit "t2" ["x"]; mkCommit "x" ["p0"; "p1"] ].

(** A merge of twelve parents uses the whole palette; the next tip then
    takes the first colour again, in the slot that had it. *)
Definition paletteWrap : list Commit :=
  [ mkCommit "a" ["p0"; "p1"; "p2"; "p3"; "p4"; "p5"; "p6"; "p7"; "p8"; "p9";
                  "p10"; "p11"];
    mkCommit "p0" [];
    mkCommit "x" [] ].

Definition sampleRow : GraphRow :=
  mkRow "d6" 0 "#F5A623"
    [ mkSeg 1 0 "#4FC3F7" None; mkSeg 0 0 "#F5A623" None ] 2.

(** Stand-ins for the platform, used to run the cache on an example. *)
Definition showNumSample (x : float) : string :=
  match Prim2SF x with
  | S754_zero _ => "0"
  | S754_infinity s => (if s then "-" else "") +:+ "Infinity"
  | S754_nan => "NaN"
  | S754_finite s m e =>
      (if s then "-" else "") +:+ pretty (Zpos m) +:+ "e" +:+ pretty e
  end.

(** A stand-in for the engine's limit on the number of arguments of a
    call. *)
Definition callFitsSample (n : nat) : bool := n <? 4096.

Definition pathJoinSample (a b : string) : string := a +:+ "/" +:+ b.

(** ** Further notions: shapes, bounds and histories *)

(** The three shapes a segment of a row with commit column [cc] can have: a
    vertical segment (full height unless it is at the commit column), a
    bottom-half curve leaving the commit column, or a full-height curve
    arriving at the commit column. *)
Definition wellShaped (cc : nat) (s : Segment) : Prop :=
  (topCol s = botCol s /\ (topCol s <> cc -> half s = None)) \/
  (topCol s = cc /\ botCol s <> cc /\ half s = Some HalfBottom) \/
  (botCol s = cc /\ topCol s <> cc /\ half s = None).

(** An upper bound on the lanes a history can open: one per commit, or one
    per parent for a commit with several parents. *)
Definition laneBudget (commits : list Commit) : nat :=
  sum_list (map (fun c => max 1 (length (parents c))) commits).

(** Every lane entry has a palette colour. *)
Definition paletteLanes (l : Lanes) : Prop :=
  forall i e, l !! i = Some (Some e) -> lane_color e ∈ BRANCH_COLORS.

(** Every entry of the loop's lane array is an entry of [l0] in the same
    slot, or awaits one of the parents [ps]. *)
Definition ParentsInv (l0 : Lanes) (ps : list string) (a : ParentAcc) : Prop :=
  forall j e, pa_lanes a !! j = Some (Some e) ->
              l0 !! j = Some (Some e) \/ lane_hash e ∈ ps.

(** Every parent of every commit is the hash of a commit further down the
    history. *)
Definition parentsAppearLater (commits : list Commit) : Prop :=
  forall i c p, commits !! i = Some c -> p ∈ parents c ->
    exists j d, i < j /\ commits !! j = Some d /\ hash d = p.

(** *** The parent check of the layout debug script ([test-layout-debug.mjs])

    [hashToRow] maps a hash to the row of the last commit carrying it
    ([commits.forEach((c, i) => hashToRow.set(c.hash, i))]); the check counts
    one issue for every parent that is missing from the map or whose row is
    not after the child's. *)
Fixpoint hashToRowFrom (i : nat) (commits : list Commit) (m : gmap string nat)
  : gmap string nat :=
  match commits with
  | [] => m
  | c :: cs => hashToRowFrom (S i) cs (<[hash c := i]> m)
  end.

Definition hashToRow (commits : list Commit) : gmap string nat :=
  hashToRowFrom 0 commits ∅.

(** The body of [for (const parent of commit.parents)]. *)
Definition checkParent (m : gmap string nat) (i : nat) (issues : nat)
    (parent : string) : nat :=
  match m !! parent with
  | None => S issues
  | Some parentRow => if parentRow <=? i then S issues else issues
  end.

Fixpoint checkFrom (m : gmap string nat) (i : nat) (commits : list Commit)
    (issues : nat) : nat :=
  match commits with
  | [] => issues
  | c :: cs => checkFrom m (S i) cs (fold_left (checkParent m i) (parents c) issues)
  end.

(** The value of [issues] after the verification loop. *)
Definition countIssues (commits : list Commit) : nat :=
  checkFrom (hashToRow commits) 0 commits 0.

(** The row of the last commit of [commits] with hash [h]. *)
Fixpoint lastRowOf (h : string) (commits : list Commit) : option nat :=
  match commits with
  | [] => None
  | c :: cs =>
      match lastRowOf h cs with
      | Some k => Some (S k)
      | None => if bool_decide (hash c = h) then Some 0 else None
      end
  end.

(** A single line of descent: each commit's only parent is the next commit;
    the last commit has at most one parent. *)
Fixpoint linearChain (commits : list Commit) : Prop :=
  match commits with
  | [] => True
  | c :: rest =>
      match rest with
      | [] => length (parents c) <= 1
      | d :: _ => parents c = [hash d]
      end /\ linearChain rest
  end.


(** *** Reading a key back *)

(** The value of a base-36 digit character. *)
Definition digitValue (c : ascii) : Z :=
  let n := Z.of_nat (nat_of_ascii c) in
  if (48 <=? n)%Z && (n <=? 57)%Z then (n - 48)%Z
  else if (97 <=? n)%Z && (n <=? 122)%Z then (n - 87)%Z
  else 0%Z.

(** The number a string of base-36 digits denotes, continuing from [acc]. *)
Fixpoint value36 (acc : Z) (s : string) : Z :=
  match s with
  | EmptyString => acc
  | String c s' => value36 (acc * 36 + digitValue c)%Z s'
  end.

(** The polynomial [h * 31^n + c1 * 31^(n-1) + ... + cn] over the
    integers, without wrap-around. *)
Fixpoint polyHash (h : Z) (s : string) : Z :=
  match s with
  | EmptyString => h
  | String c s' => polyHash (31 * h + Z.of_nat (nat_of_ascii c))%Z s'
  end.


(** *** The decoration pass ([GraphDecorationEngine.apply]) *)

(** [Math.max(a1, ..., an, 1)] on column counts. *)
Definition Math_max_1 (args : list nat) : nat := fold_right max 1 args.

(** [Math.max(...rows.map((r) => r.numCols), 1)].  The spread passes one
    argument per row, and one more for the [1]; a call with more arguments
    than the engine accepts throws a RangeError, which is [None].  The
    limit belongs to the platform: [callFits n] tells whether a call with
    [n] arguments is accepted. *)
Definition globalMaxCols (callFits : nat -> bool) (rows : list GraphRow)
  : option nat :=
  if callFits (length rows + 1) then Some (Math_max_1 (map numCols rows))
  else None.

(** The tile loop of [apply]: one [getTilePath] per row, for the first
    [min(rows.length, commits.length)] rows, with the same height and the
    same column count for all; returns the tile paths in row order. *)
Fixpoint tileLoop (showNum : float -> string) (path_join : string -> string -> string)
    (c : SvgTileCache) (rows : list GraphRow) (lineHeight : float) (cols : nat)
  : list string * SvgTileCache :=
  match rows with
  | [] => ([], c)
  | row :: rest =>
      let '(p, c1) := getTilePath showNum path_join c row (Some lineHeight) (Some cols) in
      let '(ps, c2) := tileLoop showNum path_join c1 rest lineHeight cols in
      (p :: ps, c2)
  end.

(** The tiles of one call of [apply]: [None] when the computation of
    [globalMaxCols] throws, which happens before any tile is requested. *)
Definition applyTiles (callFits : nat -> bool) (showNum : float -> string)
    (path_join : string -> string -> string)
    (c : SvgTileCache) (rows : list GraphRow) (nCommits : nat) (lineHeight : float)
  : option (list string * SvgTileCache) :=
  match globalMaxCols callFits rows with
  | None => None
  | Some cols =>
      Some (tileLoop showNum path_join c (take (min (length rows) nCommits) rows)
                     lineHeight cols)
  end.


(** *** Invariants of the tile cache *)

(** Every cached path is the file named after its key in the cache
    directory, and that file exists. *)
Definition cacheTracksFiles (path_join : string -> string -> string)
    (c : SvgTileCache) : Prop :=
  forall k p, cache c !! k = Some p ->
    p = path_join (cacheDir c) (k +:+ ".svg") /\ is_Some (files c !! p).

(** Every cached tile is the rendering of a row that was rendered under
    that key since the cache was last cleared. *)
Definition cacheHoldsRenderings (showNum : float -> string) (c : SvgTileCache) : Prop :=
  forall k p, cache c !! k = Some p ->
    exists call, call ∈ rendered c /\
      buildKey showNum (call_row call) (call_rowHeight call) (call_cols call) = k /\
      files c !! p
      = Some (renderSvg showNum (call_row call) (Some (call_rowHeight call))
                        (Some (call_cols call))).


(** * The git log parser (src/git/log.ts, src/git/types.ts)

    A JavaScript string is read as its sequence of code units, here the
    ones below 256.  [isWhite] is the white space that [String.prototype.trim]
    strips in that range: TAB, LF, VT, FF, CR, SPACE and NBSP. *)

Module GitLog.

Definition isWhite (c : ascii) : bool :=
  let n := nat_of_ascii c in
  ((9 <=? n) && (n <=? 13)) || (n =? 32) || (n =? 160).

Fixpoint trimStart (s : string) : string :=
  match s with
  | EmptyString => EmptyString
  | String c s' => if isWhite c then trimStart s' else s
  end.

Fixpoint trimEnd (s : string) : string :=
  match s with
  | EmptyString => EmptyString
  | String c s' =>
      match trimEnd s' with
      | EmptyString => if isWhite c then EmptyString else String c EmptyString
      | t => String c t
      end
  end.

(** [s.trim()] *)
Definition trim (s : string) : string := trimEnd (trimStart s).

(** [s.split(sep)] for a one-character separator: never the empty array. *)
Fixpoint splitOn (sep : ascii) (s : string) : list string :=
  match s with
  | EmptyString => [EmptyString]
  | String c s' =>
      if Ascii.eqb c sep then EmptyString :: splitOn sep s'
      else match splitOn sep s' with
           | h :: t => String c h :: t
           | [] => [String c EmptyString]
           end
  end.

(** [parts.join(sep)] *)
Fixpoint joinWith (sep : string) (parts : list string) : string :=
  match parts with
  | [] => EmptyString
  | [x] => x
  | x :: rest => x +:+ sep +:+ joinWith sep rest
  end.

(** [s.startsWith(p)] *)
Fixpoint startsWith (s p : string) : bool :=
  match p with
  | EmptyString => true
  | String a p' =>
      match s with
      | EmptyString => false
      | String b s' => Ascii.eqb a b && startsWith s' p'
      end
  end.

(** [s.slice(n)] for [n >= 0] *)
Fixpoint slice (n : nat) (s : string) : string :=
  match n, s with
  | 0, _ => s
  | S _, EmptyString => EmptyString
  | S n', String _ s' => slice n' s'
  end.

(** [s.includes(c)] for a one-character [c] *)
Fixpoint includes (c : ascii) (s : string) : bool :=
  match s with
  | EmptyString => false
  | String a s' => Ascii.eqb a c || includes c s'
  end.

Inductive RefType := branch | tag | remote | head | stash.

Record Ref := mkRef { name : string; type : RefType }.

(** One turn of the loop of [parseRefs]: the refs pushed for one piece of the
    comma-separated decoration. *)
Definition refsOfPiece (r : string) : list Ref :=
  let name := trim r in
  if String.eqb name "" then []
  else if startsWith name "HEAD -> " then
    [mkRef "HEAD" head; mkRef (slice 8 name) branch]
  else if String.eqb name "HEAD" then [mkRef name head]
  else if startsWith name "tag: " then [mkRef (slice 5 name) tag]
  else if includes "/" name then [mkRef name remote]
  else [mkRef name branch].

Definition parseRefs (raw : string) : list Ref :=
  if String.eqb (trim raw) "" then []
  else flat_map refsOfPiece (splitOn "," raw).

Record Commit := mkCommit {
  hash : string;
  parents : list string;
  author : string;
  email : string;
  timestamp : option Z;
  subject : string;
  refs : list Ref
}.

(** The fields that the layout engine reads. *)
Definition toLayout (c : Commit) : Layout.Commit :=
  Layout.mkCommit (hash c) (parents c).

Section Parser.
(** [parseInt(s, 10)], [None] standing for NaN. *)
Variable parseInt : string -> option Z.

(** One turn of the loop of [parseLogOutput]: [None] where the loop
    continues without pushing a commit. *)
Definition parseLine (line : string) : option Commit :=
  if String.eqb (trim line) "" then None
  else
    let parts := splitOn "|" line in
    let n := length parts in
    if n <? 6 then None
    else
      let part i := default "" (parts !! i) in
      let parentStr := part 1 in
      let finalSubject :=
        if n =? 7 then part 5
        else if n =? 6 then part 5
        else joinWith "|" (take (n - 1 - 5) (drop 5 parts)) in
      let finalRefStr :=
        if n =? 7 then part 6
        else if n =? 6 then ""
        else part (n - 1) in
      Some {| hash := part 0;
              parents := if String.eqb parentStr "" then []
                         else splitOn " " parentStr;
              author := part 2;
              email := part 3;
              timestamp := parseInt (part 4);
              subject := finalSubject;
              refs := parseRefs finalRefStr |}.

Definition parseLogOutput (output : string) : list Commit :=
  omap parseLine (splitOn "010" output).

End Parser.

(** [GIT_LOG_FORMAT = "%H|%P|%an|%ae|%at|%s|%D"]: the line that git prints
    for one commit, from the seven expanded placeholders. *)
Record LogFields := mkFields {
  f_H : string; f_P : string; f_an : string; f_ae : string;
  f_at : string; f_s : string; f_D : string
}.

Definition GIT_LOG_FORMAT (f : LogFields) : string :=
  joinWith "|" [f_H f; f_P f; f_an f; f_ae f; f_at f; f_s f; f_D f].

(** [buildMessageItems] of the commit detail view
    (src/providers/commitDetailProvider.ts): the labels of the message
    lines.  [commitSubject] is [this.commit?.subject]; [popBlank] is the
    loop that pops the trailing blank lines. *)
Fixpoint popBlank (lines : list string) : list string :=
  match lines with
  | [] => []
  | l :: rest =>
      match popBlank rest with
      | [] => if String.eqb (trim l) "" then [] else [l]
      | rest' => l :: rest'
      end
  end.

(** The label that the constructor of [MessageLine] passes on. *)
Definition MessageLine (text : string) : string :=
  if String.eqb text "" then " " else text.

Definition buildMessageItems (fullMessage : string)
    (commitSubject : option string) : list string :=
  let msg := if String.eqb fullMessage "" then
               match commitSubject with
               | Some s => s
               | None => ""
               end
             else fullMessage in
  let lines := popBlank (splitOn "010" msg) in
  if length lines =? 0 then [MessageLine "(no message)"]
  else map MessageLine lines.

End GitLog.

(** * The graph document (src/providers/graphProvider.ts) *)

Module Document.

(** [s.slice(0, n)] *)
Fixpoint sliceTo (n : nat) (s : string) : string :=
  match n, s with
  | 0, _ => EmptyString
  | S _, EmptyString => EmptyString
  | S n', String c s' => String c (sliceTo n' s')
  end.

Section Provider.
(** [new Date(ms).toISOString()], [None] where it throws a RangeError (an
    invalid date). *)
Variable toISOString : Z -> option string.

Definition refTokens (refs : list GitLog.Ref) : string :=
  GitLog.joinWith "" (map (fun r => " " +:+ GitLog.name r +:+ " ") refs).

(** The line pushed for one commit; a timestamp that is NaN gives an
    invalid date. *)
Definition documentLine (commit : GitLog.Commit) : option string :=
  match GitLog.timestamp commit with
  | None => None
  | Some t =>
      match toISOString (t * 1000) with
      | None => None
      | Some iso =>
          let shortHash := sliceTo 8 (GitLog.hash commit) in
          let dateStr := sliceTo 10 iso in
          let refSection := refTokens (GitLog.refs commit) in
          Some ("  " +:+ shortHash +:+ "  " +:+ refSection +:+
                GitLog.subject commit +:+ "  " +:+ GitLog.author commit +:+
                "  " +:+ dateStr)
      end
  end.

Definition provideTextDocumentContent (commits : list GitLog.Commit)
    : option string :=
  GitLog.joinWith (String "010" EmptyString) <$> mapM documentLine commits.

End Provider.

End Document.

(** * Row selection of the decoration engine (src/graph/decorations.ts) *)

Module Selection.

(** [rows.indexOf(line)] *)
Fixpoint indexOf (line : nat) (rows : list nat) : option nat :=
  match rows with
  | [] => None
  | r :: rest => if r =? line then Some 0 else S <$> indexOf line rest
  end.

(** [selectRow]: the new value of [this.selectedRows], which is also what
    the method returns (a copy of it). *)
Definition selectRow (selectedRows : list nat) (line : nat) : list nat :=
  match indexOf line selectedRows with
  | Some idx => delete idx selectedRows
  | None =>
      let pushed := selectedRows ++ [line] in
      if 2 <? length pushed then tail pushed else pushed
  end.

(** [getSelectedCommits]: the rows without a commit are filtered out. *)
Definition getSelectedCommits {A} (commits : list A) (selectedRows : list nat)
    : list A :=
  omap (fun line => commits !! line) selectedRows.

Definition clearSelections : list nat := [].

(** The selection after a sequence of clicks on an engine that starts (or
    was cleared) with no row selected. *)
Definition clicks (lines : list nat) : list nat :=
  fold_left selectRow lines clearSelections.

End Selection.

(** No separator character in a field. *)
Definition free_of (c : ascii) (s : string) : Prop := GitLog.includes c s = false.

(** The fields of a log line that the parser can tell apart: only the
    subject may hold the separator. *)
Definition plainFields (f : GitLog.LogFields) : Prop :=
  free_of "|" (GitLog.f_H f) /\ free_of "|" (GitLog.f_P f) /\
  free_of "|" (GitLog.f_an f) /\ free_of "|" (GitLog.f_ae f) /\
  free_of "|" (GitLog.f_at f) /\ free_of "|" (GitLog.f_D f).

(** No line break in any field. *)
Definition oneLine (f : GitLog.LogFields) : Prop :=
  Forall (free_of "010")
    [GitLog.f_H f; GitLog.f_P f; GitLog.f_an f; GitLog.f_ae f;
     GitLog.f_at f; GitLog.f_s f; GitLog.f_D f].

(** The commit that the fields of a log line stand for. *)
Definition commitOf (parseInt : string -> option Z) (f : GitLog.LogFields)
    : GitLog.Commit :=
  {| GitLog.hash := GitLog.f_H f;
     GitLog.parents := if String.eqb (GitLog.f_P f) "" then []
                       else GitLog.splitOn " " (GitLog.f_P f);
     GitLog.author := GitLog.f_an f;
     GitLog.email := GitLog.f_ae f;
     GitLog.timestamp := parseInt (GitLog.f_at f);
     GitLog.subject := GitLog.f_s f;
     GitLog.refs := GitLog.parseRefs (GitLog.f_D f) |}.

(** What git prints for a list of commits: one line each, each ended by a
    line break. *)
Fixpoint logOutput (fs : list GitLog.LogFields) : string :=
  match fs with
  | [] => ""
  | f :: rest => GitLog.GIT_LOG_FORMAT f +:+ String "010" (logOutput rest)
  end.

Definition sampleFields : GitLog.LogFields :=
  GitLog.mkFields "a1b2" "c3d4 e5f6" "Ada" "ada@example.org" "1700000000"
                  "fix a|b parsing" "HEAD -> main, tag: v1, origin/main".

Definition parseIntSample (s : string) : option Z :=
  if String.eqb s "1700000000" then Some 1700000000%Z else None.


(** The fields of a commit that go into its document line hold no line
    break. *)
Definition lineFields (c : GitLog.Commit) : Prop :=
  free_of "010" (GitLog.hash c) /\ free_of "010" (GitLog.subject c) /\
  free_of "010" (GitLog.author c) /\
  Forall (fun r => free_of "010" (GitLog.name r)) (GitLog.refs c).

Definition toISOStringSample (ms : Z) : option string :=
  if (ms =? 1700000000000)%Z then Some "2023-11-14T22:13:20.000Z" else None.

(** * Properties of the lane allocation engine *)

(** ** The scans *)

Lemma findFreeFrom_Some excl i l k :
  findFreeFrom excl i l = Some k ->
  i <= k /\ l !! (k - i) = Some None /\ (k ∉ excl) /\
  (forall j, j < k - i -> l !! j = Some None -> (i + j) ∈ excl).
Proof.
  revert i. induction l as [|x l IH]; intros i H; simpl in H; [discriminate|].
  destruct (bool_decide (x = None) && negb (bool_decide (i ∈ excl))) eqn:E.
  - injection H as <-. apply andb_true_iff in E as [E1 E2].
    apply bool_decide_eq_true in E1. apply negb_true_iff in E2.
    apply bool_decide_eq_false in E2. subst x.
    replace (i - i) with 0 by lia. repeat split; auto. intros j Hj; lia.
  - apply IH in H as (Hle & Hk & Hex & Hmin).
    replace (k - i) with (S (k - S i)) by lia.
    repeat split; auto; [lia|].
    intros [|j] Hj Hnull; simpl in Hnull.
    + injection Hnull as ->. rewrite bool_decide_eq_true_2 in E by done.
      simpl in E. apply negb_false_iff, bool_decide_eq_true in E.
      by replace (i + 0) with i by lia.
    + replace (i + S j) with (S i + j) by lia. apply Hmin; [lia|done].
Qed.

Lemma findFreeFrom_None excl i l :
  findFreeFrom excl i l = None ->
  forall j, l !! j = Some None -> (i + j) ∈ excl.
Proof.
  revert i. induction l as [|x l IH]; intros i H j Hj; simpl in *; [done|].
  destruct (bool_decide (x = None) && negb (bool_decide (i ∈ excl))) eqn:E;
    [discriminate|].
  destruct j as [|j]; simpl in Hj.
  - injection Hj as ->. rewrite bool_decide_eq_true_2 in E by done.
    simpl in E. apply negb_false_iff, bool_decide_eq_true in E.
    by replace (i + 0) with i by lia.
  - replace (i + S j) with (S i + j) by lia. by apply IH.
Qed.

(** What [findFreeLane] returns: either the leftmost free slot that is not
    excluded, or a slot appended because there is none. *)
Lemma findFreeLane_spec excl l k l' :
  findFreeLane excl l = (k, l') ->
  (forall j, j < k -> l !! j = Some None -> j ∈ excl) /\
  ((l' = l /\ l !! k = Some None /\ k ∉ excl) \/
   (l' = l ++ [None] /\ k = length l /\
    forall j, l !! j = Some None -> j ∈ excl)).
Proof.
  unfold findFreeLane. destruct (findFreeFrom excl 0 l) as [i|] eqn:E;
    intros [= <- <-].
  - apply findFreeFrom_Some in E as (_ & Hk & Hex & Hmin).
    rewrite Nat.sub_0_r in Hk, Hmin. split; [|left; auto].
    intros j Hj Hn. by apply (Hmin j Hj) in Hn.
  - pose proof (findFreeFrom_None _ _ _ E) as Hn. simpl in Hn.
    split; [|right; auto]. intros j _. apply Hn.
Qed.

Lemma findFreeLane_lt excl l k l' :
  findFreeLane excl l = (k, l') -> k < length l' /\ l' !! k = Some None.
Proof.
  intros H. apply findFreeLane_spec in H as [_ [(-> & Hk & _)|(-> & -> & _)]].
  - split; [by eapply lookup_lt_Some|done].
  - rewrite length_app. simpl. split; [lia|].
    rewrite lookup_app_r by lia. by rewrite Nat.sub_diag.
Qed.

Lemma findFreeLane_old excl l k l' j :
  findFreeLane excl l = (k, l') -> j < length l -> l' !! j = l !! j.
Proof.
  intros H Hj. apply findFreeLane_spec in H as [_ [(-> & _)|(-> & _)]]; [done|].
  by rewrite lookup_app_l.
Qed.

Lemma awaits_true h x :
  awaits h x = true <-> exists e, x = Some e /\ lane_hash e = h.
Proof.
  destruct x as [e|]; simpl.
  - rewrite bool_decide_eq_true. split; [eauto|]. by intros (? & [= <-] & ?).
  - split; [done|]. by intros (? & ? & _).
Qed.

Lemma findLaneFrom_Some h ex i l k :
  findLaneFrom h ex i l = Some k ->
  i <= k /\ ex <> Some k /\
  (exists e, l !! (k - i) = Some (Some e) /\ lane_hash e = h) /\
  (forall j e, j < k - i -> l !! j = Some (Some e) -> lane_hash e = h ->
               ex = Some (i + j)).
Proof.
  revert i. induction l as [|x l IH]; intros i H; simpl in H; [discriminate|].
  destruct (negb (bool_decide (ex = Some i)) && awaits h x) eqn:E.
  - injection H as <-. apply andb_true_iff in E as [E1 E2].
    apply negb_true_iff, bool_decide_eq_false in E1.
    apply awaits_true in E2 as (e & -> & He).
    replace (i - i) with 0 by lia. repeat split; eauto. intros j ? Hj; lia.
  - apply IH in H as (Hle & Hex & Hk & Hmin).
    replace (k - i) with (S (k - S i)) by lia.
    repeat split; auto; [lia|].
    intros [|j] e Hj Hl He; simpl in Hl.
    + injection Hl as ->. apply andb_false_iff in E as [E|E].
      * apply negb_false_iff, bool_decide_eq_true in E.
        by replace (i + 0) with i by lia.
      * assert (awaits h (Some e) = true) by (apply awaits_true; eauto).
        congruence.
    + replace (i + S j) with (S i + j) by lia. eapply Hmin; eauto. lia.
Qed.

Lemma findLaneFrom_None h ex i l :
  findLaneFrom h ex i l = None ->
  forall j e, l !! j = Some (Some e) -> lane_hash e = h -> ex = Some (i + j).
Proof.
  revert i. induction l as [|x l IH]; intros i H j e Hl He; simpl in *; [done|].
  destruct (negb (bool_decide (ex = Some i)) && awaits h x) eqn:E;
    [discriminate|].
  destruct j as [|j]; simpl in Hl.
  - injection Hl as ->. apply andb_false_iff in E as [E|E].
    + apply negb_false_iff, bool_decide_eq_true in E.
      by replace (i + 0) with i by lia.
    + assert (awaits h (Some e) = true) by (apply awaits_true; eauto).
      congruence.
  - replace (i + S j) with (S i + j) by lia. eapply IH; eauto.
Qed.

Lemma findLane_Some h ex l k :
  findLane h ex l = Some k ->
  ex <> Some k /\
  (exists e, l !! k = Some (Some e) /\ lane_hash e = h) /\
  (forall j e, j < k -> l !! j = Some (Some e) -> lane_hash e = h -> ex = Some j).
Proof.
  intros H. apply findLaneFrom_Some in H as (_ & Hex & Hk & Hmin).
  rewrite Nat.sub_0_r in Hk, Hmin. repeat split; auto.
Qed.

Lemma findLane_None h ex l :
  findLane h ex l = None ->
  forall j e, l !! j = Some (Some e) -> lane_hash e = h -> ex = Some j.
Proof. intros H j e Hl He. by apply (findLaneFrom_None _ _ _ _ H j e). Qed.

Lemma findAllFrom_elem h i l k :
  k ∈ findAllFrom h i l <->
  i <= k /\ exists e, l !! (k - i) = Some (Some e) /\ lane_hash e = h.
Proof.
  revert i. induction l as [|x l IH]; intros i; simpl.
  - split; [by intros ?%elem_of_nil|]. by intros (_ & e & ? & _).
  - assert (Hrec : k ∈ findAllFrom h (S i) l <->
              S i <= k /\ exists e, (x :: l) !! (k - i) = Some (Some e) /\ lane_hash e = h).
    { rewrite IH. split; intros (Hle & e & Hl & He); split; auto; exists e;
        split; auto.
      - by replace (k - i) with (S (k - S i)) by lia.
      - by replace (k - i) with (S (k - S i)) in Hl by lia. }
    destruct (awaits h x) eqn:E.
    + rewrite elem_of_cons, Hrec. split.
      * intros [->|(Hle & He)]; [|split; [lia|done]].
        split; [lia|]. rewrite Nat.sub_diag. simpl.
        apply awaits_true in E as (e & -> & He). eauto.
      * intros (Hle & He). destruct (decide (k = i)) as [->|Hne]; [by left|].
        right. split; [lia|done].
    + rewrite Hrec. split; [intros (? & ?); split; [lia|done]|].
      intros (Hle & e & Hl & He). split; [|eauto].
      destruct (decide (k = i)) as [->|Hne]; [|lia].
      rewrite Nat.sub_diag in Hl. simpl in Hl. injection Hl as ->.
      assert (awaits h (Some e) = true) by (apply awaits_true; eauto).
      congruence.
Qed.

Lemma findAllLanes_elem h l k :
  k ∈ findAllLanes h l <-> exists e, l !! k = Some (Some e) /\ lane_hash e = h.
Proof.
  unfold findAllLanes. rewrite findAllFrom_elem, Nat.sub_0_r.
  split; [by intros (_ & ?)|]. intros ?; split; [lia|done].
Qed.

(** The matching lanes are listed in increasing order. *)
Lemma findAllFrom_head h i l m rest :
  findAllFrom h i l = m :: rest ->
  i <= m /\ (forall k, k ∈ rest -> m < k) /\
  (forall j e, j < m - i -> l !! j = Some (Some e) -> lane_hash e <> h).
Proof.
  revert i. induction l as [|x l IH]; intros i H; simpl in H; [discriminate|].
  destruct (awaits h x) eqn:E.
  - injection H as <- <-. split; [lia|]. split.
    + intros k Hk. apply findAllFrom_elem in Hk. lia.
    + intros j e Hj. lia.
  - apply IH in H as (Hle & Hrest & Hmin). split; [lia|]. split; [done|].
    intros [|j] e Hj Hl He; simpl in Hl.
    + injection Hl as ->. assert (awaits h (Some e) = true)
        by (apply awaits_true; eauto). congruence.
    + eapply (Hmin j); eauto. lia.
Qed.

Lemma findAllLanes_head h l m rest :
  findAllLanes h l = m :: rest ->
  (exists e, l !! m = Some (Some e) /\ lane_hash e = h) /\
  (forall k, k ∈ rest -> m < k /\ exists e, l !! k = Some (Some e) /\ lane_hash e = h) /\
  (forall j e, j < m -> l !! j = Some (Some e) -> lane_hash e <> h).
Proof.
  intros H. pose proof (findAllFrom_head _ _ _ _ _ H) as (_ & Hrest & Hmin).
  rewrite Nat.sub_0_r in Hmin.
  assert (Hin : forall k, k ∈ m :: rest ->
            exists e, l !! k = Some (Some e) /\ lane_hash e = h).
  { intros k Hk. apply findAllLanes_elem. by rewrite H. }
  split; [apply Hin; left|]. split; [|done].
  intros k Hk. split; [by apply Hrest|]. apply Hin. by right.
Qed.

Lemma findAllLanes_nil h l :
  findAllLanes h l = [] ->
  forall j e, l !! j = Some (Some e) -> lane_hash e <> h.
Proof.
  intros H j e Hl He.
  assert (Hj : j ∈ findAllLanes h l) by (apply findAllLanes_elem; eauto).
  rewrite H in Hj. by eapply elem_of_nil.
Qed.

(** The lowest matching lane is what [findLane] finds. *)
Lemma findAllLanes_findLane h l m rest :
  findAllLanes h l = m :: rest -> findLane h None l = Some m.
Proof.
  intros H. apply findAllLanes_head in H as ((e & Hm & He) & _ & Hmin).
  destruct (findLane h None l) as [k|] eqn:E.
  - apply findLane_Some in E as (_ & (e' & Hk & He') & Hmin').
    destruct (lt_eq_lt_dec k m) as [[Hlt| ->]|Hlt]; [|done|].
    + by destruct (Hmin _ _ Hlt Hk).
    + by specialize (Hmin' _ _ Hlt Hm He).
  - by specialize (findLane_None _ _ _ E _ _ Hm He).
Qed.

(** ** Freeing lanes *)

Lemma freeLanes_length cls l : length (freeLanes cls l) = length l.
Proof.
  unfold freeLanes. revert l. induction cls as [|c cls IH]; intros l; simpl;
    [done|]. by rewrite IH, length_insert.
Qed.

Lemma freeLanes_lookup_notin cls l j :
  j ∉ cls -> freeLanes cls l !! j = l !! j.
Proof.
  unfold freeLanes. revert l. induction cls as [|c cls IH]; intros l Hj; simpl;
    [done|]. apply not_elem_of_cons in Hj as [Hne Hj].
  rewrite IH by done. by rewrite list_lookup_insert_ne.
Qed.

Lemma freeLanes_lookup_in cls l j :
  j ∈ cls -> j < length l -> freeLanes cls l !! j = Some None.
Proof.
  unfold freeLanes. revert l. induction cls as [|c cls IH]; intros l Hj Hlt;
    simpl; [by apply elem_of_nil in Hj|].
  destruct (decide (j ∈ cls)) as [Hin|Hnin].
  - apply IH; [done|by rewrite length_insert].
  - apply elem_of_cons in Hj as [->|?]; [|done].
    pose proof (freeLanes_lookup_notin cls (<[c:=None]> l) c Hnin) as Hf.
    unfold freeLanes in Hf. rewrite Hf. by apply list_lookup_insert_eq.
Qed.

(** ** Choosing the commit column *)

(** The two ways a row starts: a new tip takes the leftmost free slot and a
    fresh colour; otherwise the lowest matching lane is the commit column. *)
Lemma selectColumn_cases st c :
  (findAllLanes (hash c) (lanes st) = [] /\
   exists k l1,
     findFreeLane [] (lanes st) = (k, l1) /\
     selectColumn st c =
       mkSel true k []
         (<[k := Some (mkLane (hash c) (nextColor (colorIdx st)).1)]> l1)
         (S (colorIdx st))) \/
  (exists m rest,
     findAllLanes (hash c) (lanes st) = m :: rest /\
     selectColumn st c = mkSel false m rest (lanes st) (colorIdx st)).
Proof.
  unfold selectColumn. destruct (findAllLanes (hash c) (lanes st)) as [|m rest].
  - left. split; [done|]. destruct (findFreeLane [] (lanes st)) as [k l1].
    by exists k, l1.
  - right. by exists m, rest.
Qed.

Lemma selectColumn_isNewTip st c :
  sel_isNewTip (selectColumn st c)
  = bool_decide (findAllLanes (hash c) (lanes st) = []).
Proof.
  destruct (selectColumn_cases st c) as [(E & k & l1 & _ & ->)|(m & rest & E & ->)];
    rewrite E; reflexivity.
Qed.

Lemma selectColumn_lt st c :
  sel_commitLane (selectColumn st c) < length (sel_lanes (selectColumn st c)).
Proof.
  destruct (selectColumn_cases st c) as [(E & k & l1 & F & ->)|(m & rest & E & ->)];
    simpl.
  - rewrite length_insert. by apply findFreeLane_lt in F as [? _].
  - apply findAllLanes_head in E as ((e & He & _) & _). by eapply lookup_lt_Some.
Qed.

(** The commit column holds an entry awaiting the commit in the pre-row
    snapshot. *)
Lemma selectColumn_entry st c :
  exists e,
    sel_lanes (selectColumn st c) !! sel_commitLane (selectColumn st c)
      = Some (Some e) /\ lane_hash e = hash c.
Proof.
  destruct (selectColumn_cases st c) as [(E & k & l1 & F & ->)|(m & rest & E & ->)];
    simpl.
  - exists (mkLane (hash c) (nextColor (colorIdx st)).1). split; [|reflexivity].
    apply list_lookup_insert_eq. by apply findFreeLane_lt in F as [? _].
  - by apply findAllLanes_head in E as (? & _).
Qed.

(** Lanes other than the commit column are as they were before the row. *)
Lemma selectColumn_other st c j :
  j <> sel_commitLane (selectColumn st c) ->
  sel_lanes (selectColumn st c) !! j = lanes st !! j \/
  (lanes st !! j = None /\ sel_lanes (selectColumn st c) !! j = None).
Proof.
  destruct (selectColumn_cases st c) as [(E & k & l1 & F & ->)|(m & rest & E & ->)];
    simpl; intros Hne; [|by left].
  rewrite list_lookup_insert_ne by done.
  pose proof (findFreeLane_spec _ _ _ _ F) as [_ [(-> & _)|(-> & -> & _)]];
    [by left|].
  destruct (decide (j < length (lanes st))) as [Hlt|Hge].
  - left. by rewrite lookup_app_l.
  - right. split; [apply lookup_ge_None; lia|].
    apply lookup_ge_None. rewrite length_app. simpl. lia.
Qed.

Lemma selectColumn_converging st c k :
  k ∈ sel_convergingLanes (selectColumn st c) ->
  sel_isNewTip (selectColumn st c) = false /\
  sel_commitLane (selectColumn st c) < k /\
  exists e, lanes st !! k = Some (Some e) /\ lane_hash e = hash c.
Proof.
  destruct (selectColumn_cases st c) as [(E & ? & l1 & F & ->)|(m & rest & E & ->)];
    simpl; intros Hk; [by apply elem_of_nil in Hk|].
  apply findAllLanes_head in E as (_ & Hrest & _). split; [done|]. by apply Hrest.
Qed.

(** ** The parent loop *)

Lemma processParent_step cl acc p : ParentStep cl acc p (processParent cl acc p).
Proof.
  unfold processParent.
  destruct (findLane p (Some cl) (pa_lanes acc)) as [ex|] eqn:E.
  - by apply step_merge.
  - destruct (findFreeLane [cl] (pa_lanes acc)) as [nl l1] eqn:F.
    by apply step_fork.
Qed.

(** A lane that holds an entry keeps it through the loop: forks only take
    free or appended slots. *)
Lemma processParent_keeps cl acc p j e :
  pa_lanes acc !! j = Some (Some e) ->
  pa_lanes (processParent cl acc p) !! j = Some (Some e).
Proof.
  intros Hj. destruct (processParent_step cl acc p) as [ex E|nl l1 E F]; simpl;
    [done|].
  pose proof (findFreeLane_lt _ _ _ _ F) as [_ Hnl].
  pose proof (findFreeLane_old _ _ _ _ j F (lookup_lt_Some _ _ _ Hj)) as Hold.
  rewrite list_lookup_insert_ne; [by rewrite Hold|]. congruence.
Qed.

Lemma parentLoop_keeps cl ps acc j e :
  pa_lanes acc !! j = Some (Some e) ->
  pa_lanes (fold_left (processParent cl) ps acc) !! j = Some (Some e).
Proof.
  revert acc. induction ps as [|p ps IH]; intros acc Hj; simpl; [done|].
  apply IH. by apply processParent_keeps.
Qed.

(** A lane taken by a fork is not the commit column. *)
Lemma fork_lane_ne cl l nl l1 e0 :
  l !! cl = Some (Some e0) -> findFreeLane [cl] l = (nl, l1) -> nl <> cl.
Proof.
  intros Hcl F ->. apply findFreeLane_spec in F as [_ [(_ & Hn & _)|(_ & -> & _)]].
  - congruence.
  - apply lookup_lt_Some in Hcl. lia.
Qed.

(** Induction over the parent loop. *)
Lemma parentLoop_ind cl (P : ParentAcc -> Prop) ps acc :
  P acc ->
  (forall a p a', P a -> ParentStep cl a p a' -> P a') ->
  P (fold_left (processParent cl) ps acc).
Proof.
  intros H0 Hstep. revert acc H0.
  induction ps as [|p ps IH]; intros acc H0; simpl; [done|].
  apply IH. eapply Hstep; [done|]. apply processParent_step.
Qed.

Lemma ParentStep_LoopInv cl e0 a p a' :
  LoopInv cl e0 a -> ParentStep cl a p a' -> LoopInv cl e0 a'.
Proof.
  intros (Hcl & Hf & Hm) [ex E|nl l1 E F]; unfold LoopInv; simpl.
  - split; [done|]. split; [done|]. apply Forall_app. split; [done|].
    apply Forall_singleton. simpl. apply findLane_Some in E as (Hne & _).
    congruence.
  - pose proof (fork_lane_ne _ _ _ _ _ Hcl F) as Hne.
    split; [|split; [|done]].
    + rewrite list_lookup_insert_ne by done.
      rewrite (findFreeLane_old _ _ _ _ cl F); [done|].
      by eapply lookup_lt_Some.
    + apply Forall_app. split; [done|]. by apply Forall_singleton.
Qed.

Lemma applyParents_links cl col ps l idx :
  cl < length l ->
  Forall (fun f => lane f <> cl) (pa_forks (applyParents cl col ps l idx)) /\
  Forall (fun m => lane m <> cl) (pa_merges (applyParents cl col ps l idx)).
Proof.
  intros Hlt. destruct ps as [|p0 more]; simpl; [by split|].
  refine (proj2 (parentLoop_ind cl (LoopInv cl (mkLane p0 col)) more _ _ _)).
  - split; [by apply list_lookup_insert_eq|]. by split.
  - intros a p a'. apply ParentStep_LoopInv.
Qed.

(** With at least one parent the commit column awaits the first parent
    after the loop, in the commit's colour. *)
Lemma applyParents_commitLane cl col p0 more l idx :
  cl < length l ->
  pa_lanes (applyParents cl col (p0 :: more) l idx) !! cl
  = Some (Some (mkLane p0 col)).
Proof.
  intros Hlt. simpl.
  refine (proj1 (parentLoop_ind cl (LoopInv cl (mkLane p0 col)) more _ _ _)).
  - split; [by apply list_lookup_insert_eq|]. by split.
  - intros a p a'. apply ParentStep_LoopInv.
Qed.

(** ** The segments of a row *)

Lemma filter_none {A} (P : A -> Prop) `{!forall x, Decision (P x)} (l : list A) :
  Forall (fun x => ~ P x) l -> filter P l = [].
Proof.
  induction 1 as [|x l Hx _ IH]; [done|]. by rewrite filter_cons_False.
Qed.

Lemma Forall_map_seg {A} (P : Segment -> Prop) (Q : A -> Prop) (f : A -> Segment)
    (l : list A) :
  (forall x, Q x -> P (f x)) -> Forall Q l -> Forall P (map f l).
Proof. intros HPQ. induction 1; simpl; constructor; auto. Qed.

Lemma passThroughs_elem cl tl bl s :
  s ∈ passThroughs cl tl bl <->
  exists i t b, i <> cl /\ tl !! i = Some (Some t) /\ bl !! i = Some (Some b) /\
                s = mkSeg i i (lane_color t) None.
Proof.
  unfold passThroughs. rewrite list_elem_of_In, in_flat_map. split.
  - intros (i & _ & Hs). case_bool_decide as Hi; [done|].
    destruct (tl !! i) as [[t|]|] eqn:Ht; try done.
    destruct (bl !! i) as [[b|]|] eqn:Hb; try done.
    destruct Hs as [<-|[]]. by exists i, t, b.
  - intros (i & t & b & Hi & Ht & Hb & ->). exists i. split.
    + apply in_seq. apply lookup_lt_Some in Ht. lia.
    + rewrite bool_decide_eq_false_2 by done. rewrite Ht, Hb. by left.
Qed.

Lemma passThroughs_not_commit cl tl bl :
  Forall (fun s => topCol s <> cl) (passThroughs cl tl bl).
Proof.
  apply Forall_forall. intros s (i & t & b & Hi & _ & _ & ->)%passThroughs_elem.
  done.
Qed.

(** The segment list of a row, by origin. *)
Lemma row_segments st c :
  let w := layoutRow st c in
  segments (row w)
  = passThroughs (commitLane w) (topLanes w) (botLanes w)
    ++ convergences (commitLane w) (commitColor (row w)) (topLanes w)
         (convergingLanes w)
    ++ commitStub (commitLane w) (commitColor (row w))
         (negb (bool_decide (parents c = []))) (bool_decide (parents c = []))
         (isNewTip w)
    ++ forkSegments (commitLane w) (forks w)
    ++ mergeSegments (commitLane w) (merges w).
Proof. reflexivity. Qed.

Lemma row_commitCol st c : commitCol (row (layoutRow st c)) = commitLane (layoutRow st c).
Proof. reflexivity. Qed.

Lemma layoutRow_links st c :
  Forall (fun f => lane f <> commitLane (layoutRow st c)) (forks (layoutRow st c)) /\
  Forall (fun m => lane m <> commitLane (layoutRow st c)) (merges (layoutRow st c)).
Proof.
  unfold layoutRow; simpl. apply applyParents_links.
  rewrite freeLanes_length. apply selectColumn_lt.
Qed.

Lemma layoutRow_isNewTip st c :
  isNewTip (layoutRow st c) = bool_decide (findAllLanes (hash c) (lanes st) = []).
Proof. apply selectColumn_isNewTip. Qed.

(** The rows of a run are the rows of its iterations. *)
Lemma layoutFrom_elem st cs r :
  r ∈ layoutFrom st cs -> exists st' c, c ∈ cs /\ r = (processCommit st' c).2.
Proof.
  revert st. induction cs as [|c cs IH]; intros st; simpl;
    [by intros ?%elem_of_nil|].
  intros [->|Hr]%elem_of_cons.
  - exists st, c. split; [by left|done].
  - apply IH in Hr as (st' & c' & Hc & ->). exists st', c'. split; [by right|done].
Qed.

Lemma layoutFrom_length st cs : length (layoutFrom st cs) = length cs.
Proof.
  revert st. induction cs as [|c cs IH]; intros st; simpl; [done|]. by rewrite IH.
Qed.

Lemma layoutFrom_hashes st cs : map commitHash (layoutFrom st cs) = map hash cs.
Proof.
  revert st. induction cs as [|c cs IH]; intros st; simpl; [done|]. by rewrite IH.
Qed.

(** ** The engine on the specification's scenarios *)

Example linearHistory_rows :
  computeGraphLayout linearHistory
  = [ mkRow "c3" 0 "#F5A623" [mkSeg 0 0 "#F5A623" (Some HalfBottom)] 1;
      mkRow "c2" 0 "#F5A623" [mkSeg 0 0 "#F5A623" None] 1;
      mkRow "c1" 0 "#F5A623" [mkSeg 0 0 "#F5A623" (Some HalfTop)] 1 ].
Proof. reflexivity. Qed.

Example convergingTips_last_row :
  last (computeGraphLayout convergingTips)
  = Some (mkRow "base" 0 "#F5A623"
            [ mkSeg 1 0 "#4FC3F7" None; mkSeg 0 0 "#F5A623" (Some HalfTop) ] 2)
  /\ lanes (stateAfter initState convergingTips) = [None; None].
Proof. split; reflexivity. Qed.

Example octopus_row :
  computeGraphLayout scenario4 !! 1
  = Some (mkRow "d2" 0 "#F5A623"
            [ mkSeg 0 0 "#F5A623" None;
              mkSeg 0 1 "#4FC3F7" (Some HalfBottom);
              mkSeg 0 2 "#81C784" (Some HalfBottom);
              mkSeg 0 3 "#E57373" (Some HalfBottom) ] 4).
Proof. reflexivity. Qed.

(** Without the reset of the colour counter the rows differ. *)
Example counter_matters :
  layoutFrom (mkState [] 1) linearHistory <> layoutFrom initState linearHistory.
Proof. discriminate. Qed.

(** * The specification's properties *)

(** C1 (determinism): two runs of the engine on the same commit sequence,
    each started from an empty lane array and a reset colour counter, give
    the same rows, which are the rows of [computeGraphLayout]; there is
    exactly one row per commit, and the i-th row is the row of the i-th
    commit. *)
Theorem C1_layout_deterministic (commits : list Commit) (s1 s2 : LayoutState) :
  lanes s1 = [] -> colorIdx s1 = 0 ->
  lanes s2 = [] -> colorIdx s2 = 0 ->
  layoutFrom s1 commits = layoutFrom s2 commits /\
  layoutFrom s1 commits = computeGraphLayout commits /\
  length (computeGraphLayout commits) = length commits /\
  map commitHash (computeGraphLayout commits) = map hash commits.
Proof.
  intros L1 C1 L2 C2.
  assert (E1 : s1 = initState) by (destruct s1; simpl in *; by subst).
  assert (E2 : s2 = initState) by (destruct s2; simpl in *; by subst).
  subst s1 s2. unfold computeGraphLayout.
  repeat split; [apply layoutFrom_length|apply layoutFrom_hashes].
Qed.

Lemma C1_layout_deterministic_witness :
  layoutFrom initState scenario4 = layoutFrom (mkState [] 0) scenario4 /\
  layoutFrom initState scenario4 = computeGraphLayout scenario4 /\
  length (computeGraphLayout scenario4) = 7 /\
  map commitHash (computeGraphLayout scenario4)
  = ["d1"; "d2"; "d3"; "d4"; "d5"; "d6"; "d7"].
Proof.
  exact (C1_layout_deterministic scenario4 initState (mkState [] 0)
           eq_refl eq_refl eq_refl eq_refl).
Defined.

(** ** Column count *)

Lemma maxColOf_fold segs m :
  fold_left
    (fun maxCol seg =>
       let maxCol := if maxCol <? topCol seg then topCol seg else maxCol in
       if maxCol <? botCol seg then botCol seg else maxCol) segs m
  = max_list (m :: colsOfSegments segs).
Proof.
  revert m. induction segs as [|s segs IH]; intros m; simpl; [lia|].
  rewrite IH. simpl.
  destruct (m <? topCol s) eqn:E1.
  - apply Nat.ltb_lt in E1.
    destruct (topCol s <? botCol s) eqn:E2;
      [apply Nat.ltb_lt in E2|apply Nat.ltb_ge in E2]; lia.
  - apply Nat.ltb_ge in E1.
    destruct (m <? botCol s) eqn:E2;
      [apply Nat.ltb_lt in E2|apply Nat.ltb_ge in E2]; lia.
Qed.

(** C7 (column count): for every row the engine emits, [numCols - 1] is the
    maximum of the commit column and of every [topCol] and [botCol] of the
    row's segments: it bounds all of them and is one of them. *)
Theorem C7_numCols_is_max_column (commits : list Commit) (r : GraphRow) :
  r ∈ computeGraphLayout commits ->
  1 <= numCols r /\
  numCols r - 1 = max_list (commitCol r :: colsOfSegments (segments r)) /\
  (forall k, k ∈ commitCol r :: colsOfSegments (segments r) -> k <= numCols r - 1) /\
  numCols r - 1 ∈ commitCol r :: colsOfSegments (segments r).
Proof.
  intros (st & c & _ & ->)%layoutFrom_elem.
  assert (E : numCols (processCommit st c).2 - 1
              = max_list (commitCol (processCommit st c).2
                          :: colsOfSegments (segments (processCommit st c).2))).
  { simpl. unfold maxColOf. rewrite maxColOf_fold. simpl. lia. }
  split; [simpl; lia|]. split; [done|]. rewrite E. split.
  - intros k Hk. by apply max_list_elem_of_le.
  - by apply max_list_elem_of.
Qed.

Lemma C7_numCols_is_max_column_witness :
  let r := mkRow "d2" 0 "#F5A623"
             [ mkSeg 0 0 "#F5A623" None; mkSeg 0 1 "#4FC3F7" (Some HalfBottom);
               mkSeg 0 2 "#81C784" (Some HalfBottom);
               mkSeg 0 3 "#E57373" (Some HalfBottom) ] 4 in
  1 <= numCols r /\
  numCols r - 1 = max_list (commitCol r :: colsOfSegments (segments r)) /\
  (forall k, k ∈ commitCol r :: colsOfSegments (segments r) -> k <= numCols r - 1) /\
  numCols r - 1 ∈ commitCol r :: colsOfSegments (segments r).
Proof.
  apply (C7_numCols_is_max_column scenario4).
  apply (list_elem_of_lookup_2 _ 1). reflexivity.
Defined.

(** ** The commit-lane stub *)

(** C5 (commit-lane stub): every row has exactly one same-column segment at
    the commit column, in the commit's colour; it is bottom-half for a new
    tip with parents, full height for a commit with parents that is not a
    new tip, top-half for a root that is not a new tip, and full height for
    a root that is a new tip.  A commit is a new tip when no lane awaits
    its hash before the row. *)
Theorem C5_commit_lane_stub (st : LayoutState) (c : Commit) :
  let r := (processCommit st c).2 in
  filter (fun s => topCol s = commitCol r /\ botCol s = commitCol r) (segments r)
  = [ mkSeg (commitCol r) (commitCol r) (commitColor r)
        (specStubHalf (bool_decide (parents c <> []))
                      (bool_decide (findAllLanes (hash c) (lanes st) = []))) ].
Proof.
  intros r. subst r.
  change ((processCommit st c).2) with (row (layoutRow st c)).
  rewrite row_segments, row_commitCol. set (w := layoutRow st c).
  destruct (layoutRow_links st c) as [Hf Hm]. fold w in Hf, Hm.
  rewrite !filter_app.
  rewrite (filter_none _ (passThroughs _ _ _)); first last.
  { eapply Forall_impl; [apply passThroughs_not_commit|]. simpl. tauto. }
  rewrite (filter_none _ (convergences _ _ _ _)); first last.
  { unfold convergences. eapply Forall_map_seg; [|apply Forall_forall; intros k Hk; exact Hk].
    intros k Hk. simpl. apply selectColumn_converging in Hk as (_ & Hlt & _).
    change (commitLane w) with (sel_commitLane (selectColumn st c)). lia. }
  rewrite (filter_none _ (forkSegments _ _)); first last.
  { unfold forkSegments. eapply Forall_map_seg; [|exact Hf]. simpl. tauto. }
  rewrite (filter_none _ (mergeSegments _ _)); first last.
  { unfold mergeSegments. eapply Forall_map_seg; [|exact Hm]. simpl. tauto. }
  rewrite app_nil_r.
  replace (isNewTip w) with (bool_decide (findAllLanes (hash c) (lanes st) = []))
    by (symmetry; apply layoutRow_isNewTip).
  unfold commitStub, specStubHalf.
  destruct (decide (parents c = [])) as [Hp|Hp].
  - rewrite (bool_decide_eq_true_2 _ Hp).
    rewrite (bool_decide_eq_false_2 (parents c <> [])) by tauto.
    destruct (bool_decide (findAllLanes (hash c) (lanes st) = []));
      cbn [negb]; by rewrite filter_cons_True.
  - rewrite (bool_decide_eq_false_2 _ Hp).
    rewrite (bool_decide_eq_true_2 (parents c <> [])) by done.
    destruct (bool_decide (findAllLanes (hash c) (lanes st) = []));
      cbn [negb]; by rewrite filter_cons_True.
Qed.

(** ** First-parent stability *)

Lemma processCommit_lanes st c : lanes (processCommit st c).1 = botLanes (layoutRow st c).
Proof. reflexivity. Qed.

Lemma processCommit_row st c : (processCommit st c).2 = row (layoutRow st c).
Proof. reflexivity. Qed.

Lemma layoutRow_botLanes st c :
  botLanes (layoutRow st c)
  = pa_lanes (applyParents (commitLane (layoutRow st c))
                (commitColor (row (layoutRow st c))) (parents c)
                (freedLanes (layoutRow st c))
                (sel_colorIdx (selectColumn st c))).
Proof. reflexivity. Qed.

Lemma layoutRow_freed_length st c :
  commitLane (layoutRow st c) < length (freedLanes (layoutRow st c)).
Proof.
  change (sel_commitLane (selectColumn st c)
          < length (freeLanes (sel_convergingLanes (selectColumn st c))
                              (sel_lanes (selectColumn st c)))).
  rewrite freeLanes_length. apply selectColumn_lt.
Qed.

(** When some lane awaits the commit, the commit column is the lowest such
    lane and the commit takes that lane's colour. *)
Lemma layoutRow_matched st c i e :
  lanes st !! i = Some (Some e) -> lane_hash e = hash c ->
  commitLane (layoutRow st c) <= i /\
  isNewTip (layoutRow st c) = false /\
  topLanes (layoutRow st c) = lanes st /\
  lanes st !! commitLane (layoutRow st c)
  = Some (Some (mkLane (hash c) (commitColor (row (layoutRow st c))))).
Proof.
  intros Hi He.
  change (commitLane (layoutRow st c)) with (sel_commitLane (selectColumn st c)).
  change (isNewTip (layoutRow st c)) with (sel_isNewTip (selectColumn st c)).
  change (topLanes (layoutRow st c)) with (sel_lanes (selectColumn st c)).
  change (commitColor (row (layoutRow st c)))
    with (colorAt (sel_lanes (selectColumn st c)) (sel_commitLane (selectColumn st c))).
  destruct (selectColumn_cases st c) as [(E & _)|(m & rest & E & ->)].
  - by destruct (findAllLanes_nil _ _ E _ _ Hi).
  - simpl. apply findAllLanes_head in E as ((e' & Hm & He') & _ & Hmin).
    split; [|split; [done|split; [done|]]].
    + destruct (decide (m <= i)) as [|Hlt]; [done|].
      destruct (Hmin i e); [lia|done..].
    + unfold colorAt. rewrite Hm. destruct e'; simpl in *. by subst.
Qed.

(** C2 (first-parent stability): for a commit with at least one parent,
    when some lane awaits the commit's hash before the row, the commit
    column is the lowest such lane and the commit colour is the colour that
    lane held; after the row the same slot awaits the first parent with the
    same colour.  So the strand entering the row in the commit column leaves
    it in the same column with the same colour. *)
Theorem C2_first_parent_stability (st : LayoutState) (c : Commit) (p0 : string)
    (more : list string) :
  parents c = p0 :: more ->
  let r := (processCommit st c).2 in
  let st' := (processCommit st c).1 in
  (forall i e, lanes st !! i = Some (Some e) -> lane_hash e = hash c ->
     commitCol r <= i /\
     lanes st !! commitCol r = Some (Some (mkLane (hash c) (commitColor r)))) /\
  lanes st' !! commitCol r = Some (Some (mkLane p0 (commitColor r))).
Proof.
  intros Hp r st'. subst r st'.
  rewrite processCommit_lanes, processCommit_row, row_commitCol. split.
  - intros i e Hi He.
    destruct (layoutRow_matched st c i e Hi He) as (Hle & _ & _ & Hcol). done.
  - rewrite layoutRow_botLanes, Hp.
    apply applyParents_commitLane, layoutRow_freed_length.
Qed.

Lemma C2_first_parent_stability_witness :
  let st := mkState [Some (mkLane "d2" "#F5A623")] 1 in
  let c := mkCommit "d2" ["d6"; "d3"] in
  (forall i e, lanes st !! i = Some (Some e) -> lane_hash e = hash c ->
     0 <= i /\ lanes st !! 0 = Some (Some (mkLane "d2" "#F5A623"))) /\
  lanes (processCommit st c).1 !! 0 = Some (Some (mkLane "d6" "#F5A623")).
Proof.
  exact (C2_first_parent_stability (mkState [Some (mkLane "d2" "#F5A623")] 1)
           (mkCommit "d2" ["d6"; "d3"]) "d6" ["d3"] eq_refl).
Defined.

(** ** What a row changes *)

Lemma ParentStep_FrameInv cl l0 a p a' :
  FrameInv l0 a -> ParentStep cl a p a' -> FrameInv l0 a'.
Proof.
  intros HF [ex E|nl l1 E F]; unfold FrameInv; simpl; [done|].
  intros j. destruct (decide (j = nl)) as [->|Hne].
  - right. eexists. split; [apply elem_of_app; right; apply list_elem_of_singleton;
                             reflexivity|done].
  - rewrite list_lookup_insert_ne by done.
    assert (Hl1 : l1 !! j = pa_lanes a !! j).
    { pose proof (findFreeLane_spec _ _ _ _ F) as [_ [(-> & _)|(-> & -> & _)]];
        [done|].
      destruct (decide (j < length (pa_lanes a))) as [Hlt|Hge];
        [by rewrite lookup_app_l|].
      rewrite (proj2 (lookup_ge_None (pa_lanes a) j)) by lia.
      apply lookup_ge_None. rewrite length_app. simpl. lia. }
    rewrite Hl1. destruct (HF j) as [Hj|(f & Hf & Hlane)]; [by left|].
    right. exists f. split; [|done]. apply elem_of_app. by left.
Qed.

Lemma ParentStep_LinksInv cl a p a' :
  LinksInv a -> ParentStep cl a p a' -> LinksInv a'.
Proof.
  intros [HF HM] [ex E|nl l1 E F]; unfold LinksInv; simpl.
  - split; [done|]. intros m [Hm|Hm%list_elem_of_singleton]%elem_of_app; [auto|].
    subst m. simpl. apply findLane_Some in E as (_ & (e & He & _) & _).
    exists e. split; [done|]. unfold colorAt. by rewrite He.
  - pose proof (findFreeLane_lt _ _ _ _ F) as [Hlt _].
    assert (Hkeep : forall j e, pa_lanes a !! j = Some (Some e) ->
              <[nl := Some (mkLane p (nextColor (pa_colorIdx a)).1)]> l1 !! j
              = Some (Some e)).
    { intros j e Hj.
      apply (processParent_keeps cl a p) in Hj. unfold processParent in Hj.
      by rewrite E, F in Hj. }
    split.
    + intros f [Hf|Hf%list_elem_of_singleton]%elem_of_app.
      * destruct (HF f Hf) as (e & He & Hc). exists e. split; [by apply Hkeep|done].
      * subst f. simpl. eexists. split; [by apply list_lookup_insert_eq|done].
    + intros m Hm. destruct (HM m Hm) as (e & He & Hc). exists e.
      split; [by apply Hkeep|done].
Qed.

(** After the parents have been applied, every lane other than the commit
    column is as it was after the converging lanes were freed, or has been
    taken by a fork of this row. *)
Lemma applyParents_frame cl col ps l idx j :
  j <> cl ->
  pa_lanes (applyParents cl col ps l idx) !! j = l !! j \/
  exists f, f ∈ pa_forks (applyParents cl col ps l idx) /\ lane f = j.
Proof.
  intros Hne. destruct ps as [|p0 more]; simpl.
  - left. by rewrite list_lookup_insert_ne.
  - rewrite <- (list_lookup_insert_ne l cl j (Some (mkLane p0 col))) by done.
    refine (parentLoop_ind cl (FrameInv (<[cl:=Some (mkLane p0 col)]> l)) more _ _ _ j).
    + intros i. by left.
    + intros a p a'. apply ParentStep_FrameInv.
Qed.

Lemma applyParents_linksInv cl col ps l idx :
  LinksInv (applyParents cl col ps l idx).
Proof.
  destruct ps as [|p0 more]; simpl.
  - split; by intros ? ?%elem_of_nil.
  - apply (parentLoop_ind cl LinksInv).
    + split; by intros ? ?%elem_of_nil.
    + intros a p a'. apply ParentStep_LinksInv.
Qed.

Lemma applyParents_no_merge_parent cl col ps l idx :
  tail ps = [] -> pa_forks (applyParents cl col ps l idx) = [].
Proof. destruct ps as [|p0 [|p1 more]]; simpl; done. Qed.

Lemma layoutRow_converging_free st c k :
  k ∈ convergingLanes (layoutRow st c) ->
  freedLanes (layoutRow st c) !! k = Some None.
Proof.
  intros Hk. change (k ∈ sel_convergingLanes (selectColumn st c)) in Hk.
  change (freedLanes (layoutRow st c))
    with (freeLanes (sel_convergingLanes (selectColumn st c))
                    (sel_lanes (selectColumn st c))).
  apply freeLanes_lookup_in; [done|].
  destruct (selectColumn_cases st c) as [(_ & ? & ? & _ & E)|(m & rest & E & E')].
  - rewrite E in Hk. simpl in Hk. by apply elem_of_nil in Hk.
  - apply selectColumn_converging in Hk as (_ & _ & e & He & _).
    rewrite E'. simpl. by eapply lookup_lt_Some.
Qed.

(** ** Convergence *)

Lemma findAllFrom_NoDup h i l : NoDup (findAllFrom h i l).
Proof.
  revert i. induction l as [|x l IH]; intros i; simpl; [constructor|].
  destruct (awaits h x); [|apply IH]. constructor; [|apply IH].
  intros Hi%findAllFrom_elem. lia.
Qed.

Lemma elem_of_map_seg {A} (f : A -> Segment) (l : list A) x :
  x ∈ l -> f x ∈ map f l.
Proof. rewrite !list_elem_of_In. apply in_map. Qed.

(** C6 (convergence), amended: when lanes await the commit's hash, the
    lowest-index one is the commit column; every other matching lane emits
    one full-height segment from its own column, in its pre-row colour, to
    the commit column, and its slot is set to null before the parents are
    applied.  After the row the slot is still null unless a fork of this
    row has taken it as the leftmost free slot; it is null when the commit
    has no merge parent. *)
Theorem C6_convergence (st : LayoutState) (c : Commit) (m : nat) (rest : list nat) :
  findAllLanes (hash c) (lanes st) = m :: rest ->
  let w := layoutRow st c in
  let r := (processCommit st c).2 in
  let st' := (processCommit st c).1 in
  commitCol r = m /\
  (forall i e, lanes st !! i = Some (Some e) -> lane_hash e = hash c -> m <= i) /\
  convergingLanes w = rest /\ NoDup rest /\
  convergences m (commitColor r) (topLanes w) rest
  = map (fun k => mkSeg k m (colorAt (lanes st) k) None) rest /\
  forall k, k ∈ rest ->
    m < k /\
    (exists e, lanes st !! k = Some (Some e) /\ lane_hash e = hash c) /\
    mkSeg k m (colorAt (lanes st) k) None ∈ segments r /\
    freedLanes w !! k = Some None /\
    (lanes st' !! k = Some None \/ exists f, f ∈ forks w /\ lane f = k) /\
    (tail (parents c) = [] -> lanes st' !! k = Some None).
Proof.
  intros E w r st'. subst r st'.
  rewrite processCommit_lanes, processCommit_row, row_commitCol. fold w.
  assert (Hsel : selectColumn st c = mkSel false m rest (lanes st) (colorIdx st)).
  { destruct (selectColumn_cases st c) as [(E' & _)|(m' & rest' & E' & ->)];
      congruence. }
  assert (Hcl : commitLane w = m) by (unfold w, layoutRow; by rewrite Hsel).
  assert (Hcv : convergingLanes w = rest) by (unfold w, layoutRow; by rewrite Hsel).
  assert (Htop : topLanes w = lanes st) by (unfold w, layoutRow; by rewrite Hsel).
  pose proof (findAllLanes_head _ _ _ _ E) as (_ & Hrest & Hmin).
  assert (Hnd : NoDup rest).
  { pose proof (findAllFrom_NoDup (hash c) 0 (lanes st)) as Hn.
    unfold findAllLanes in E. rewrite E in Hn. by inversion Hn. }
  assert (Hconv : convergences m (commitColor (row w)) (topLanes w) rest
                  = map (fun k => mkSeg k m (colorAt (lanes st) k) None) rest).
  { unfold convergences. apply map_ext_in. intros k Hk%list_elem_of_In.
    destruct (Hrest k Hk) as (_ & e & He & _).
    unfold colorAt. by rewrite Htop, He. }
  split; [done|]. split.
  { intros i e Hi He. destruct (decide (m <= i)) as [|Hlt]; [done|].
    destruct (Hmin i e); [lia|done..]. }
  split; [done|]. split; [done|]. split; [done|].
  intros k Hk. destruct (Hrest k Hk) as (Hlt & e & He & Hh).
  assert (Hfree : freedLanes w !! k = Some None).
  { apply layoutRow_converging_free. fold w. by rewrite Hcv. }
  assert (Hfr : botLanes w !! k = Some None \/ exists f, f ∈ forks w /\ lane f = k).
  { unfold w. rewrite layoutRow_botLanes. fold w.
    destruct (applyParents_frame (commitLane w) (commitColor (row w)) (parents c)
                (freedLanes w) (sel_colorIdx (selectColumn st c)) k) as [Hb|Hf];
      [lia| |].
    - left. by rewrite Hb.
    - by right. }
  split; [done|]. split; [eauto|]. split.
  { unfold w. rewrite row_segments. fold w. rewrite Hcl, Hcv, Hconv.
    apply elem_of_app. right. apply elem_of_app. left.
    by apply (elem_of_map_seg (fun k => mkSeg k m (colorAt (lanes st) k) None)). }
  split; [done|]. split; [done|].
  intros Hno. destruct Hfr as [|(f & Hf & _)]; [done|].
  assert (Hnil : forks w = []).
  { unfold w, layoutRow; simpl. by apply applyParents_no_merge_parent. }
  rewrite Hnil in Hf. by apply elem_of_nil in Hf.
Qed.

Lemma C6_convergence_witness :
  let st := stateAfter initState (take 2 convergingMerge) in
  let c := mkCommit "x" ["p0"; "p1"] in
  commitCol (processCommit st c).2 = 0 /\
  (forall i e, lanes st !! i = Some (Some e) -> lane_hash e = hash c -> 0 <= i) /\
  convergingLanes (layoutRow st c) = [1] /\ NoDup [1] /\
  convergences 0 (commitColor (processCommit st c).2) (topLanes (layoutRow st c)) [1]
  = map (fun k => mkSeg k 0 (colorAt (lanes st) k) None) [1] /\
  forall k, k ∈ [1] ->
    0 < k /\
    (exists e, lanes st !! k = Some (Some e) /\ lane_hash e = hash c) /\
    mkSeg k 0 (colorAt (lanes st) k) None ∈ segments (processCommit st c).2 /\
    freedLanes (layoutRow st c) !! k = Some None /\
    (lanes (processCommit st c).1 !! k = Some None \/
     exists f, f ∈ forks (layoutRow st c) /\ lane f = k) /\
    (tail (parents c) = [] -> lanes (processCommit st c).1 !! k = Some None).
Proof.
  exact (C6_convergence (stateAfter initState (take 2 convergingMerge))
           (mkCommit "x" ["p0"; "p1"]) 0 [1] eq_refl).
Defined.

(** The claim as worded fails: in [convergingMerge] the lane freed by the
    row of ["x"] is taken again, in the same row, by the fork for ["p1"]. *)
Lemma C6_counterexample : ~ convergingLaneStaysFree.
Proof.
  intros H.
  specialize (H (take 2 convergingMerge) (mkCommit "x" ["p0"; "p1"]) [] 0 [1] 1
                eq_refl).
  assert (Hin : 1 ∈ [1]) by apply list_elem_of_singleton, eq_refl.
  specialize (H Hin). vm_compute in H. discriminate H.
Qed.

(** ** Merges *)

Lemma findLane_unique h ex l k e :
  ex <> Some k -> l !! k = Some (Some e) -> lane_hash e = h ->
  (forall j e', j < k -> l !! j = Some (Some e') -> lane_hash e' = h -> ex = Some j) ->
  findLane h ex l = Some k.
Proof.
  intros Hex Hk He Hmin. destruct (findLane h ex l) as [k'|] eqn:E.
  - apply findLane_Some in E as (Hex' & (e' & Hk' & He') & Hmin').
    destruct (lt_eq_lt_dec k' k) as [[Hlt| ->]|Hlt]; [|done|].
    + by destruct (Hex' (Hmin _ _ Hlt Hk' He')).
    + by destruct (Hex (Hmin' _ _ Hlt Hk He)).
  - by destruct (Hex (findLane_None _ _ _ E _ _ Hk He)).
Qed.

Lemma ParentStep_DonorInv cl p ex e a p' a' :
  DonorInv cl p ex e a -> ParentStep cl a p' a' -> DonorInv cl p ex e a'.
Proof.
  intros [Hfind Hex] [ex' E|nl l1 E F]; unfold DonorInv; simpl; [done|].
  pose proof (findLane_Some _ _ _ _ Hfind) as (Hne & (e1 & He1 & Hh) & Hmin).
  assert (e1 = e) as -> by congruence.
  assert (Hp : p' <> p).
  { intros ->. by destruct (Hne (findLane_None _ _ _ E _ _ Hex Hh)). }
  assert (Hkeep : <[nl := Some (mkLane p' (nextColor (pa_colorIdx a)).1)]> l1 !! ex
                  = Some (Some e)).
  { apply (processParent_keeps cl a p') in Hex. unfold processParent in Hex.
    by rewrite E, F in Hex. }
  split; [|done]. apply (findLane_unique _ _ _ _ e); [done..|].
  intros j e' Hj Hl He'. destruct (decide (j = nl)) as [->|Hjn].
  - pose proof (findFreeLane_lt _ _ _ _ F) as [Hlt _].
    rewrite list_lookup_insert_eq in Hl by done. injection Hl as <-. done.
  - rewrite list_lookup_insert_ne in Hl by done.
    apply (Hmin j e'); [done| |done].
    pose proof (findFreeLane_spec _ _ _ _ F) as [_ [(-> & _)|(-> & -> & _)]];
      [done|].
    destruct (decide (j < length (pa_lanes a))) as [Hlt|Hge];
      [by rewrite lookup_app_l in Hl|].
    rewrite lookup_app_r in Hl by lia.
    destruct (j - length (pa_lanes a)) as [|n]; simpl in Hl; [done|].
    by destruct n.
Qed.

Lemma processParent_merges_grow cl a p m :
  m ∈ pa_merges a -> m ∈ pa_merges (processParent cl a p).
Proof.
  intros Hm. destruct (processParent_step cl a p) as [ex E|nl l1 E F]; simpl;
    [|done]. apply elem_of_app. by left.
Qed.

Lemma parentLoop_merges_grow cl ps a m :
  m ∈ pa_merges a -> m ∈ pa_merges (fold_left (processParent cl) ps a).
Proof.
  revert a. induction ps as [|p ps IH]; intros a Hm; simpl; [done|].
  by apply IH, processParent_merges_grow.
Qed.

Lemma parentLoop_donor cl p ex e ps a :
  DonorInv cl p ex e a -> p ∈ ps ->
  mkLink ex (lane_color e) ∈ pa_merges (fold_left (processParent cl) ps a).
Proof.
  revert a. induction ps as [|p' ps IH]; intros a Hinv Hp; simpl;
    [by apply elem_of_nil in Hp|].
  destruct (decide (p' = p)) as [->|Hne].
  - apply parentLoop_merges_grow. unfold processParent.
    destruct Hinv as [-> Hex]. simpl. apply elem_of_app. right.
    apply list_elem_of_singleton. unfold colorAt. by rewrite Hex.
  - apply IH.
    + eapply ParentStep_DonorInv; [done|apply processParent_step].
    + apply elem_of_cons in Hp as [?|?]; [congruence|done].
Qed.

(** One row changes only the commit column, the converging lanes it frees
    and the lanes its forks open. *)
Lemma layoutRow_frame st c j :
  let w := layoutRow st c in
  botLanes w !! j = lanes st !! j \/ j = commitLane w \/
  j ∈ convergingLanes w \/ exists f, f ∈ forks w /\ lane f = j.
Proof.
  intros w. destruct (decide (j = commitLane w)) as [|Hne]; [auto|].
  destruct (decide (j ∈ convergingLanes w)) as [|Hnc]; [auto|].
  unfold w at 1. rewrite layoutRow_botLanes. fold w.
  destruct (applyParents_frame (commitLane w) (commitColor (row w)) (parents c)
              (freedLanes w) (sel_colorIdx (selectColumn st c)) j Hne) as [Hb|Hf];
    [|auto].
  left. rewrite Hb.
  change (freedLanes w) with (freeLanes (sel_convergingLanes (selectColumn st c))
                                        (sel_lanes (selectColumn st c))).
  rewrite freeLanes_lookup_notin by done.
  destruct (selectColumn_other st c j Hne) as [?|[-> ->]]; done.
Qed.

(** C10 (merge leaves the donor lane intact): let [p] be a merge parent
    (parent index at least 1, and not the commit itself) that is found in a
    lane [ex] of the pre-row lane array other than the commit column.  The
    row leaves that lane's entry unchanged, and emits both the full-height
    pass-through at column [ex] and the full-height merge curve from [ex] to
    the commit column, in the lane's colour.  More generally a row changes
    only the commit column, the converging lanes and the lanes opened by its
    forks. *)
Theorem C10_merge_leaves_donor_intact (st : LayoutState) (c : Commit)
    (pi : nat) (p : string) (ex : nat) :
  parents c !! pi = Some p -> 1 <= pi -> p <> hash c ->
  let w := layoutRow st c in
  let r := (processCommit st c).2 in
  let st' := (processCommit st c).1 in
  findLane p (Some (commitCol r)) (lanes st) = Some ex ->
  (exists e,
     lanes st !! ex = Some (Some e) /\ lane_hash e = p /\ ex <> commitCol r /\
     lanes st' !! ex = Some (Some e) /\
     mkSeg ex ex (lane_color e) None ∈ segments r /\
     mkSeg ex (commitCol r) (lane_color e) None ∈ segments r) /\
  (forall j, lanes st' !! j = lanes st !! j \/ j = commitCol r \/
             j ∈ convergingLanes w \/ exists f, f ∈ forks w /\ lane f = j).
Proof.
  intros Hpi Hge Hself w r st'. subst r st'.
  rewrite processCommit_lanes, processCommit_row, row_commitCol. fold w.
  intros Hfind. split; [|apply layoutRow_frame].
  pose proof (findLane_Some _ _ _ _ Hfind) as (Hne & (e & Hex & Hh) & Hmin).
  assert (Hne' : ex <> commitLane w) by congruence.
  exists e. split; [done|]. split; [done|]. split; [done|].
  destruct (parents c) as [|p0 more] eqn:Hps; [done|].
  destruct pi as [|n]; [lia|]. simpl in Hpi.
  assert (Hin : p ∈ more) by (by eapply list_elem_of_lookup_2).
  assert (Hnc : forall j e', lanes st !! j = Some (Some e') -> lane_hash e' = p ->
                  j ∉ convergingLanes w).
  { intros j e' Hj He' Hc. apply selectColumn_converging in Hc as (_ & _ & e2 & H2 & Hh2).
    congruence. }
  assert (Htop : forall j, j <> commitLane w -> j ∉ convergingLanes w ->
                   freedLanes w !! j = lanes st !! j).
  { intros j Hj Hc.
    change (freedLanes w) with (freeLanes (sel_convergingLanes (selectColumn st c))
                                          (sel_lanes (selectColumn st c))).
    rewrite freeLanes_lookup_notin by done.
    destruct (selectColumn_other st c j Hj) as [?|[-> ->]]; done. }
  assert (Htopl : topLanes w !! ex = Some (Some e)).
  { change (topLanes w) with (sel_lanes (selectColumn st c)).
    destruct (selectColumn_other st c ex Hne') as [->|[? _]]; congruence. }
  assert (Hfreed : freedLanes w !! ex = Some (Some e)).
  { rewrite Htop; [done..|]. by eapply Hnc. }
  set (entry := mkAcc (<[commitLane w := Some (mkLane p0 (commitColor (row w)))]>
                         (freedLanes w))
                      (sel_colorIdx (selectColumn st c)) [] []).
  assert (Hbot : botLanes w = pa_lanes (fold_left (processParent (commitLane w)) more entry)).
  { unfold w at 1. rewrite layoutRow_botLanes, Hps. reflexivity. }
  assert (Hmer : merges w = pa_merges (fold_left (processParent (commitLane w)) more entry)).
  { unfold w at 1, layoutRow. simpl. rewrite Hps. reflexivity. }
  assert (Hentry : DonorInv (commitLane w) p ex e entry).
  { assert (Hl : pa_lanes entry !! ex = Some (Some e))
      by (simpl; by rewrite list_lookup_insert_ne).
    split; [|done]. apply (findLane_unique _ _ _ _ e); [done..|].
    intros j e' Hj Hl' He'. destruct (decide (j = commitLane w)) as [->|Hjn]; [done|].
    unfold entry in Hl'. cbn [pa_lanes] in Hl'.
    rewrite list_lookup_insert_ne in Hl' by done.
    destruct (decide (j ∈ convergingLanes w)) as [Hc|Hc].
    - apply layoutRow_converging_free in Hc. fold w in Hc. congruence.
    - rewrite Htop in Hl' by done. by apply (Hmin j e'). }
  assert (Hbotl : botLanes w !! ex = Some (Some e)).
  { rewrite Hbot. apply parentLoop_keeps. by destruct Hentry. }
  split; [done|]. unfold w at 1 3. rewrite row_segments. fold w. split.
  - apply elem_of_app. left. apply passThroughs_elem. by exists ex, e, e.
  - do 4 (apply elem_of_app; right). rewrite Hmer.
    apply (elem_of_map_seg (fun m => mkSeg (lane m) (commitLane w) (link_color m) None)
             _ (mkLink ex (lane_color e))).
    by apply (parentLoop_donor _ p).
Qed.

Lemma C10_merge_leaves_donor_intact_witness :
  let st := mkState [Some (mkLane "m" "#F5A623"); Some (mkLane "b" "#4FC3F7")] 2 in
  let c := mkCommit "m" ["a"; "b"] in
  (exists e,
     lanes st !! 1 = Some (Some e) /\ lane_hash e = "b" /\ 1 <> 0 /\
     lanes (processCommit st c).1 !! 1 = Some (Some e) /\
     mkSeg 1 1 (lane_color e) None ∈ segments (processCommit st c).2 /\
     mkSeg 1 0 (lane_color e) None ∈ segments (processCommit st c).2) /\
  (forall j, lanes (processCommit st c).1 !! j = lanes st !! j \/ j = 0 \/
             j ∈ convergingLanes (layoutRow st c) \/
             exists f, f ∈ forks (layoutRow st c) /\ lane f = j).
Proof.
  exact (C10_merge_leaves_donor_intact
           (mkState [Some (mkLane "m" "#F5A623"); Some (mkLane "b" "#4FC3F7")] 2)
           (mkCommit "m" ["a"; "b"]) 1 "b" 1 eq_refl (le_n 1)
           ltac:(discriminate) eq_refl).
Defined.

(** ** Column minimality *)

Lemma loopStateAt_root st c n :
  parents c = [] -> loopStateAt st c (S n) = loopStateAt st c n.
Proof. intros H. unfold loopStateAt. by rewrite H. Qed.

Lemma loopStateAt_step st c p0 more n :
  parents c = p0 :: more ->
  loopStateAt st c (S n)
  = match more !! n with
    | Some p => processParent (commitLane (layoutRow st c)) (loopStateAt st c n) p
    | None => loopStateAt st c n
    end.
Proof.
  intros H. unfold loopStateAt. rewrite H. cbn [take applyParents].
  destruct (more !! n) as [p|] eqn:E.
  - rewrite (take_S_r _ _ _ E), fold_left_app. reflexivity.
  - apply lookup_ge_None in E. by rewrite !take_ge by lia.
Qed.

Lemma loopStateAt_final st c :
  botLanes (layoutRow st c) = pa_lanes (loopStateAt st c (length (parents c))).
Proof.
  unfold loopStateAt. rewrite take_ge by lia. apply layoutRow_botLanes.
Qed.

Lemma loopStateAt_commitLane st c p0 more n :
  parents c = p0 :: more ->
  pa_lanes (loopStateAt st c n) !! commitLane (layoutRow st c)
  = Some (Some (mkLane p0 (commitColor (row (layoutRow st c))))).
Proof.
  intros H. unfold loopStateAt. rewrite H. cbn [take].
  apply applyParents_commitLane. apply layoutRow_freed_length.
Qed.

(** A new tip and a fork each take the leftmost of two free slots between
    two live lanes. *)
Example free_slots_reused :
  let st := mkState [Some (mkLane "a" "#F5A623"); None; None;
                     Some (mkLane "b" "#4FC3F7")] 2 in
  let w := layoutRow st (mkCommit "x" ["p"; "q"]) in
  commitLane w = 1 /\ forks w = [mkLink 2 "#E57373"] /\
  botLanes w = [Some (mkLane "a" "#F5A623"); Some (mkLane "p" "#81C784");
                Some (mkLane "q" "#E57373"); Some (mkLane "b" "#4FC3F7")].
Proof. repeat split; reflexivity. Qed.

Lemma newTip_takes_leftmost st c :
  isNewTip (layoutRow st c) = true ->
  leftmostFree (lanes st) (commitLane (layoutRow st c)) /\
  topLanes (layoutRow st c) !! commitLane (layoutRow st c)
  = Some (Some (mkLane (hash c) (commitColor (row (layoutRow st c))))).
Proof.
  change (isNewTip (layoutRow st c)) with (sel_isNewTip (selectColumn st c)).
  change (commitLane (layoutRow st c)) with (sel_commitLane (selectColumn st c)).
  change (topLanes (layoutRow st c)) with (sel_lanes (selectColumn st c)).
  change (commitColor (row (layoutRow st c)))
    with (colorAt (sel_lanes (selectColumn st c)) (sel_commitLane (selectColumn st c))).
  destruct (selectColumn_cases st c) as [(E & k & l1 & F & ->)|(m & rest & E & ->)];
    cbn [sel_isNewTip sel_commitLane sel_lanes]; [intros _|done].
  pose proof (findFreeLane_lt _ _ _ _ F) as [Hlt _].
  pose proof (findFreeLane_spec _ _ _ _ F) as [Hmin Hk].
  split; [split|].
  - intros j Hj Hn. by destruct (proj1 (elem_of_nil _) (Hmin j Hj Hn)).
  - destruct Hk as [(_ & Hk & _)|(_ & -> & Hall)]; [by left|right].
    split; [done|]. intros j Hn. by destruct (proj1 (elem_of_nil _) (Hall j Hn)).
  - unfold colorAt. by rewrite !list_lookup_insert_eq.
Qed.

Lemma fork_takes_leftmost st c n p :
  parents c !! S n = Some p ->
  findLane p (Some (commitLane (layoutRow st c))) (pa_lanes (loopStateAt st c n))
  = None ->
  exists nl nc,
    leftmostFree (pa_lanes (loopStateAt st c n)) nl /\
    pa_lanes (loopStateAt st c (S n)) !! nl = Some (Some (mkLane p nc)) /\
    pa_forks (loopStateAt st c (S n))
    = pa_forks (loopStateAt st c n) ++ [mkLink nl nc].
Proof.
  intros Hp Hnone. destruct (parents c) as [|p0 more] eqn:Hps; [done|].
  cbn [lookup list_lookup] in Hp.
  rewrite (loopStateAt_step st c p0 more n Hps).
  change (more !! n = Some p) in Hp. rewrite Hp.
  pose proof (loopStateAt_commitLane st c p0 more n Hps) as Hcl.
  unfold processParent. rewrite Hnone.
  destruct (findFreeLane [commitLane (layoutRow st c)]
              (pa_lanes (loopStateAt st c n))) as [nl l1] eqn:F.
  pose proof (findFreeLane_lt _ _ _ _ F) as [Hlt _].
  pose proof (findFreeLane_spec _ _ _ _ F) as [Hmin Hk].
  assert (Hnocl : forall j, pa_lanes (loopStateAt st c n) !! j = Some None ->
                    j ∉ [commitLane (layoutRow st c)]).
  { intros j Hn ->%list_elem_of_singleton. congruence. }
  destruct (nextColor (pa_colorIdx (loopStateAt st c n))) as [nc idx1].
  exists nl, nc. cbn [pa_lanes pa_forks]. split; [split|split].
  - intros j Hj Hn. by destruct (Hnocl j Hn (Hmin j Hj Hn)).
  - destruct Hk as [(_ & Hk & _)|(_ & -> & Hall)]; [by left|right].
    split; [done|]. intros j Hn. by destruct (Hnocl j Hn (Hall j Hn)).
  - by apply list_lookup_insert_eq.
  - done.
Qed.

(** C3 (column minimality).  Every allocation takes the leftmost free
    slot: a new tip gets, as its commit column, the leftmost null slot of
    the lane array as the row finds it, or the slot appended when the array
    has no null slot; and a merge parent that no lane awaits gets, as its
    fork lane, the leftmost null slot of the lane array at that turn of the
    parent loop, or the appended slot when there is none.  Nothing else
    opens a lane: whenever a step of a row turns a slot that held no entry
    into an occupied one, that slot is the leftmost free slot of the lane
    array at that moment, or the slot appended because the array had no
    free slot.  The steps of a row are: choosing the commit column (from
    the pre-row lanes to the snapshot [topLanes]), freeing the converging
    lanes and writing the first parent (to the loop state 0, which opens
    nothing), and each merge parent in turn (from loop state [n] to loop
    state [n + 1]); the last loop state is the post-row lane array.  The
    commit column is occupied while forks are allocated, so the leftmost
    free slot is also the leftmost one not excluded. *)
Theorem C3_column_minimality (st : LayoutState) (c : Commit) :
  let w := layoutRow st c in
  (isNewTip w = true ->
   leftmostFree (lanes st) (commitLane w) /\
   topLanes w !! commitLane w
   = Some (Some (mkLane (hash c) (commitColor (row w))))) /\
  (forall n p,
     parents c !! S n = Some p ->
     findLane p (Some (commitLane w)) (pa_lanes (loopStateAt st c n)) = None ->
     exists nl nc,
       leftmostFree (pa_lanes (loopStateAt st c n)) nl /\
       pa_lanes (loopStateAt st c (S n)) !! nl = Some (Some (mkLane p nc)) /\
       pa_forks (loopStateAt st c (S n))
       = pa_forks (loopStateAt st c n) ++ [mkLink nl nc]) /\
  (forall i, opensLane (lanes st) (topLanes w) i -> leftmostFree (lanes st) i) /\
  (forall i, ~ opensLane (topLanes w) (pa_lanes (loopStateAt st c 0)) i) /\
  (forall n i,
     opensLane (pa_lanes (loopStateAt st c n)) (pa_lanes (loopStateAt st c (S n))) i ->
     leftmostFree (pa_lanes (loopStateAt st c n)) i) /\
  lanes (processCommit st c).1 = pa_lanes (loopStateAt st c (length (parents c))).
Proof.
  intros w. split; [|split; [|split; [|split; [|split]]]].
  - apply newTip_takes_leftmost.
  - apply fork_takes_leftmost.
  - intros i [Hb (e & Ha)].
    change (topLanes w) with (sel_lanes (selectColumn st c)) in Ha.
    destruct (selectColumn_cases st c) as [(E & k & l1 & F & Hs)|(m & rest & E & Hs)];
      rewrite Hs in Ha; simpl in Ha; [|by destruct (Hb e)].
    pose proof (findFreeLane_spec _ _ _ _ F) as [Hmin Hk].
    assert (i = k) as ->.
    { destruct (decide (i = k)) as [|Hne]; [done|]. exfalso.
      rewrite list_lookup_insert_ne in Ha by done.
      destruct Hk as [(-> & _)|(-> & -> & _)]; [by destruct (Hb e)|].
      destruct (decide (i < length (lanes st))) as [Hlt|Hge].
      - rewrite lookup_app_l in Ha by done. by destruct (Hb e).
      - rewrite lookup_app_r in Ha by lia.
        destruct (i - length (lanes st)) as [|[|?]]; simpl in Ha; done. }
    split.
    + intros j Hj Hn. by destruct (proj1 (elem_of_nil _) (Hmin j Hj Hn)).
    + destruct Hk as [(_ & Hk & _)|(_ & -> & Hall)]; [by left|right].
      split; [done|]. intros j Hn. by destruct (proj1 (elem_of_nil _) (Hall j Hn)).
  - intros i [Hb (e & Ha)].
    destruct (decide (i = commitLane w)) as [->|Hne].
    + destruct (selectColumn_entry st c) as (e0 & He0 & _). by destruct (Hb e0).
    + unfold loopStateAt in Ha. fold (commitLane w) in Ha.
      assert (Hfr : freeLanes (sel_convergingLanes (selectColumn st c))
                      (sel_lanes (selectColumn st c)) !! i = Some (Some e)).
      { destruct (parents c) as [|p0 more]; simpl in Ha;
          by rewrite list_lookup_insert_ne in Ha. }
      destruct (decide (i ∈ sel_convergingLanes (selectColumn st c))) as [Hc|Hc].
      * apply (layoutRow_converging_free st c) in Hc.
        change (freedLanes (layoutRow st c))
          with (freeLanes (sel_convergingLanes (selectColumn st c))
                          (sel_lanes (selectColumn st c))) in Hc. congruence.
      * rewrite freeLanes_lookup_notin in Hfr by done. by destruct (Hb e).
  - intros n i [Hb (e & Ha)].
    destruct (parents c) as [|p0 more] eqn:Hps.
    { rewrite loopStateAt_root in Ha by done. by destruct (Hb e). }
    rewrite (loopStateAt_step st c p0 more n Hps) in Ha.
    destruct (more !! n) as [p|]; [|by destruct (Hb e)].
    pose proof (loopStateAt_commitLane st c p0 more n Hps) as Hcl. fold w in Hcl, Ha.
    destruct (processParent_step (commitLane w) (loopStateAt st c n) p)
      as [ex E|nl l1 E F]; simpl in Ha; [by destruct (Hb e)|].
    pose proof (findFreeLane_spec _ _ _ _ F) as [Hmin Hk].
    assert (Hnocl : forall j, pa_lanes (loopStateAt st c n) !! j = Some None ->
                      j ∉ [commitLane w]).
    { intros j Hn ->%list_elem_of_singleton. congruence. }
    assert (i = nl) as ->.
    { destruct (decide (i = nl)) as [|Hne]; [done|]. exfalso.
      rewrite list_lookup_insert_ne in Ha by done.
      destruct Hk as [(-> & _)|(-> & -> & _)]; [by destruct (Hb e)|].
      destruct (decide (i < length (pa_lanes (loopStateAt st c n)))) as [Hlt|Hge].
      - rewrite lookup_app_l in Ha by done. by destruct (Hb e).
      - rewrite lookup_app_r in Ha by lia.
        destruct (i - length (pa_lanes (loopStateAt st c n))) as [|[|?]];
          simpl in Ha; done. }
    split.
    + intros j Hj Hn. by destruct (Hnocl j Hn (Hmin j Hj Hn)).
    + destruct Hk as [(_ & Hk & _)|(_ & -> & Hall)]; [by left|right].
      split; [done|]. intros j Hn. by destruct (Hnocl j Hn (Hall j Hn)).
  - rewrite processCommit_lanes. apply loopStateAt_final.
Qed.

Lemma C3_column_minimality_witness :
  let st := mkState [Some (mkLane "a" "#F5A623"); None; None;
                     Some (mkLane "b" "#4FC3F7")] 2 in
  let c := mkCommit "x" ["p"; "q"] in
  (leftmostFree (lanes st) (commitLane (layoutRow st c)) /\
   topLanes (layoutRow st c) !! commitLane (layoutRow st c)
   = Some (Some (mkLane (hash c) (commitColor (row (layoutRow st c)))))) /\
  exists nl nc,
    leftmostFree (pa_lanes (loopStateAt st c 0)) nl /\
    pa_lanes (loopStateAt st c 1) !! nl = Some (Some (mkLane "q" nc)) /\
    pa_forks (loopStateAt st c 1) = pa_forks (loopStateAt st c 0) ++ [mkLink nl nc].
Proof.
  intros st c. destruct (C3_column_minimality st c) as (Htip & Hfork & _).
  split; [apply Htip; reflexivity|apply (Hfork 0 "q"); reflexivity].
Defined.

(** ** Colours *)

Lemma palette_lookup n : BRANCH_COLORS !! (n mod 12) = Some (nextColor n).1.
Proof.
  unfold nextColor. cbn [fst]. change (length BRANCH_COLORS) with 12.
  destruct (lookup_lt_is_Some_2 BRANCH_COLORS (n mod 12)) as [x Hx].
  - change (length BRANCH_COLORS) with 12. apply Nat.mod_upper_bound. lia.
  - by rewrite Hx.
Qed.

Lemma palette_NoDup : NoDup BRANCH_COLORS.
Proof. apply (bool_decide_unpack _). vm_compute. exact I. Qed.

Lemma ParentStep_ColorInv cl idx0 a p a' :
  ColorInv idx0 a -> ParentStep cl a p a' -> ColorInv idx0 a'.
Proof.
  intros [Hidx Hcol] [ex E|nl l1 E F]; unfold ColorInv; simpl; [done|].
  rewrite length_app. simpl. split; [lia|].
  intros k f Hk. destruct (decide (k < length (pa_forks a))) as [Hlt|Hge].
  - rewrite lookup_app_l in Hk by done. by apply Hcol.
  - rewrite lookup_app_r in Hk by lia.
    destruct (k - length (pa_forks a)) as [|?] eqn:Ek; simpl in Hk; [|done].
    injection Hk as <-. simpl. rewrite Hidx.
    by replace (idx0 + k) with (idx0 + length (pa_forks a)) by lia.
Qed.

Lemma applyParents_colors cl col ps l idx :
  ColorInv idx (applyParents cl col ps l idx).
Proof.
  destruct ps as [|p0 more]; simpl.
  - split; [simpl; lia|]. by intros k f ?.
  - apply (parentLoop_ind cl (ColorInv idx)).
    + split; [simpl; lia|]. by intros k f ?.
    + intros a p a'. apply ParentStep_ColorInv.
Qed.

(** The k-th lane a row opens has the colour drawn at counter value
    [colorIdx + k], and the counter advances by the number of lanes opened. *)
Lemma openedBy_colors st c :
  let w := layoutRow st c in
  colorIdxAfter w = colorIdx st + length (openedBy w) /\
  forall k f, openedBy w !! k = Some f ->
              link_color f = (nextColor (colorIdx st + k)).1.
Proof.
  intros w.
  pose proof (applyParents_colors (commitLane w) (commitColor (row w)) (parents c)
                (freedLanes w) (sel_colorIdx (selectColumn st c))) as [Hidx Hcol].
  change (pa_colorIdx _) with (colorIdxAfter w) in Hidx.
  change (pa_forks _) with (forks w) in Hidx, Hcol.
  unfold openedBy.
  change (isNewTip w) with (sel_isNewTip (selectColumn st c)).
  change (commitColor (row w))
    with (colorAt (sel_lanes (selectColumn st c)) (commitLane w)).
  change (commitLane w) with (sel_commitLane (selectColumn st c)).
  destruct (selectColumn_cases st c) as [(E & k0 & l1 & F & Hs)|(m & rest & E & Hs)];
    rewrite Hs in *; cbn [sel_isNewTip sel_colorIdx sel_lanes sel_commitLane] in *.
  - split; [rewrite length_app; cbn [length]; lia|].
    intros [|k] f Hk; cbn [app lookup list_lookup] in Hk.
    + injection Hk as <-. cbn [link_color]. unfold colorAt.
      rewrite list_lookup_insert_eq by (by apply findFreeLane_lt in F as [? _]).
      simpl. by rewrite Nat.add_0_r.
    + rewrite (Hcol k f Hk). by replace (S (colorIdx st) + k) with (colorIdx st + S k) by lia.
  - cbn [app]. split; [lia|]. intros k f Hk. by apply Hcol.
Qed.

(** Every entry of [openedBy] is a lane the row opens with that colour: the
    commit column of a new tip, free before the row and holding the commit
    in the snapshot, or a fork lane, which holds the fork's colour after
    the row. *)
Lemma openedBy_sound st c f :
  let w := layoutRow st c in
  f ∈ openedBy w ->
  (isNewTip w = true /\ f = mkLink (commitLane w) (commitColor (row w)) /\
   opensLane (lanes st) (topLanes w) (lane f) /\
   topLanes w !! lane f = Some (Some (mkLane (hash c) (link_color f)))) \/
  (f ∈ forks w /\
   exists e, botLanes w !! lane f = Some (Some e) /\ lane_color e = link_color f).
Proof.
  intros w [Hf|Hf]%elem_of_app.
  - left. destruct (isNewTip w) eqn:Htip; [|by apply elem_of_nil in Hf].
    apply list_elem_of_singleton in Hf. subst f. cbn [lane link_color].
    split; [done|]. split; [done|].
    change (topLanes w) with (sel_lanes (selectColumn st c)).
    change (commitColor (row w))
      with (colorAt (sel_lanes (selectColumn st c)) (commitLane w)).
    change (commitLane w) with (sel_commitLane (selectColumn st c)).
    change (isNewTip w) with (sel_isNewTip (selectColumn st c)) in Htip.
    destruct (selectColumn_cases st c) as [(E & k & l1 & F & Hs)|(m & rest & E & Hs)];
      rewrite Hs in *; cbn [sel_lanes sel_commitLane sel_isNewTip] in *; [|done].
    pose proof (findFreeLane_lt _ _ _ _ F) as [Hlt _].
    assert (Hk : <[k:=Some (mkLane (hash c) (nextColor (colorIdx st)).1)]> l1 !! k
                 = Some (Some (mkLane (hash c) (nextColor (colorIdx st)).1)))
      by (by apply list_lookup_insert_eq).
    unfold colorAt. rewrite Hk. cbn [lane_color]. split; [|done].
    split; [|eauto]. intros e He.
    apply findFreeLane_spec in F as [_ [(_ & Hn & _)|(_ & -> & _)]]; [congruence|].
    apply lookup_lt_Some in He. lia.
  - right. split; [done|].
    destruct (applyParents_linksInv (commitLane w) (commitColor (row w)) (parents c)
                (freedLanes w) (sel_colorIdx (selectColumn st c))) as [HF _].
    by apply HF.
Qed.

Lemma loopStateAt_forks_grow st c n k f :
  f ∈ pa_forks (loopStateAt st c n) -> f ∈ pa_forks (loopStateAt st c (n + k)).
Proof.
  intros Hf. induction k as [|k IH]; [by rewrite Nat.add_0_r|].
  rewrite Nat.add_succ_r. destruct (parents c) as [|p0 more] eqn:Hps.
  { by rewrite loopStateAt_root. }
  rewrite (loopStateAt_step st c p0 more _ Hps).
  destruct (more !! (n + k)) as [p|]; [|done].
  destruct (processParent_step (commitLane (layoutRow st c))
              (loopStateAt st c (n + k)) p) as [ex E|nl l1 E F]; simpl; [done|].
  apply elem_of_app. by left.
Qed.

Lemma loopStateAt_forks_final st c n f :
  f ∈ pa_forks (loopStateAt st c n) -> f ∈ forks (layoutRow st c).
Proof.
  intros Hf. apply (loopStateAt_forks_grow st c n (length (parents c))) in Hf.
  unfold loopStateAt in Hf. by rewrite take_ge in Hf by lia.
Qed.

(** Conversely, every slot a step of the row opens is listed in
    [openedBy]. *)
Lemma openedBy_complete st c :
  let w := layoutRow st c in
  (forall i, opensLane (lanes st) (topLanes w) i ->
     mkLink i (commitColor (row w)) ∈ openedBy w) /\
  (forall n i,
     opensLane (pa_lanes (loopStateAt st c n)) (pa_lanes (loopStateAt st c (S n))) i ->
     exists f, f ∈ openedBy w /\ lane f = i).
Proof.
  intros w. split.
  - intros i [Hb (e & Ha)]. unfold openedBy. apply elem_of_app. left.
    change (topLanes w) with (sel_lanes (selectColumn st c)) in Ha.
    change (isNewTip w) with (sel_isNewTip (selectColumn st c)).
    change (commitLane w) with (sel_commitLane (selectColumn st c)).
    destruct (selectColumn_cases st c) as [(E & k & l1 & F & Hs)|(m & rest & E & Hs)];
      rewrite Hs in *; cbn [sel_lanes sel_commitLane sel_isNewTip] in *;
      [|by destruct (Hb e)].
    destruct (decide (i = k)) as [->|Hne]; [by apply list_elem_of_singleton|].
    exfalso. rewrite list_lookup_insert_ne in Ha by done.
    apply findFreeLane_spec in F as [_ [(-> & _)|(-> & -> & _)]];
      [by destruct (Hb e)|].
    destruct (decide (i < length (lanes st))) as [Hlt|Hge].
    + rewrite lookup_app_l in Ha by done. by destruct (Hb e).
    + rewrite lookup_app_r in Ha by lia.
      destruct (i - length (lanes st)) as [|[|?]]; simpl in Ha; done.
  - intros n i [Hb (e & Ha)].
    assert (Hin : exists f, f ∈ pa_forks (loopStateAt st c (S n)) /\ lane f = i).
    { destruct (parents c) as [|p0 more] eqn:Hps.
      { rewrite loopStateAt_root in Ha by done. by destruct (Hb e). }
      rewrite (loopStateAt_step st c p0 more n Hps) in Ha |- *.
      destruct (more !! n) as [p|]; [|by destruct (Hb e)].
      destruct (processParent_step (commitLane (layoutRow st c))
                  (loopStateAt st c n) p) as [ex E|nl l1 E F]; simpl in Ha |- *;
        [by destruct (Hb e)|].
      exists (mkLink nl (nextColor (pa_colorIdx (loopStateAt st c n))).1).
      split; [apply elem_of_app; right; by apply list_elem_of_singleton|].
      simpl. destruct (decide (i = nl)) as [|Hne]; [done|]. exfalso.
      rewrite list_lookup_insert_ne in Ha by done.
      apply findFreeLane_spec in F as [_ [(-> & _)|(-> & -> & _)]];
        [by destruct (Hb e)|].
      destruct (decide (i < length (pa_lanes (loopStateAt st c n)))) as [Hlt|Hge].
      - rewrite lookup_app_l in Ha by done. by destruct (Hb e).
      - rewrite lookup_app_r in Ha by lia.
        destruct (i - length (pa_lanes (loopStateAt st c n))) as [|[|?]];
          simpl in Ha; done. }
    destruct Hin as (f & Hf & Hl). exists f. split; [|done].
    unfold openedBy. apply elem_of_app. right.
    by apply (loopStateAt_forks_final st c (S n)).
Qed.

Lemma openedFrom_colors st cs k f :
  openedFrom st cs !! k = Some f ->
  link_color f = (nextColor (colorIdx st + k)).1.
Proof.
  revert st k. induction cs as [|c cs IH]; intros st k Hk; [done|].
  change (openedFrom st (c :: cs))
    with (openedBy (layoutRow st c) ++ openedFrom (processCommit st c).1 cs) in Hk.
  destruct (openedBy_colors st c) as [Hidx Hcol].
  destruct (decide (k < length (openedBy (layoutRow st c)))) as [Hlt|Hge].
  - rewrite lookup_app_l in Hk by done. by apply Hcol.
  - rewrite lookup_app_r in Hk by lia. apply IH in Hk. rewrite Hk.
    change (colorIdx (processCommit st c).1) with (colorIdxAfter (layoutRow st c)).
    rewrite Hidx.
    by replace (colorIdx st + length (openedBy (layoutRow st c))
                + (k - length (openedBy (layoutRow st c))))
      with (colorIdx st + k) by lia.
Qed.

(** C4 (colour assignment), amended: the N-th lane opened in a run gets
    [BRANCH_COLORS[(N-1) mod 12]]; hence two openings have the same colour
    exactly when their ordinals are congruent modulo 12.  In particular a
    slot that is opened again gets a colour different from its previous
    occupant's unless the number of lanes opened from one to the other is a
    multiple of 12. *)
Theorem C4_color_assignment (commits : list Commit) :
  (forall N f, 1 <= N -> openedLanes commits !! (N - 1) = Some f ->
     BRANCH_COLORS !! ((N - 1) mod 12) = Some (link_color f)) /\
  (forall i j f g,
     openedLanes commits !! i = Some f -> openedLanes commits !! j = Some g ->
     (link_color f = link_color g <-> i mod 12 = j mod 12)).
Proof.
  assert (Hcol : forall k f, openedLanes commits !! k = Some f ->
            BRANCH_COLORS !! (k mod 12) = Some (link_color f)).
  { intros k f Hk. apply openedFrom_colors in Hk. simpl in Hk.
    rewrite Hk. apply palette_lookup. }
  split; [intros N f _; apply Hcol|].
  intros i j f g Hi%Hcol Hj%Hcol. split.
  - intros Heq. rewrite <- Heq in Hj.
    by apply (NoDup_lookup _ _ _ _ palette_NoDup Hi Hj).
  - intros Heq. rewrite Heq in Hi. congruence.
Qed.

(** The second half of the claim as worded fails: in [paletteWrap] the
    first and the thirteenth opened lane are both slot 0, no lane opened in
    between is slot 0, and both get ["#F5A623"]. *)
Lemma C4_counterexample : ~ reusedSlotGetsDistinctColor.
Proof.
  intros H.
  apply (H paletteWrap 0 12 (mkLink 0 "#F5A623") (mkLink 0 "#F5A623"));
    [lia|reflexivity..| |reflexivity].
  intros k h [Hlo Hhi] Hk.
  do 12 (destruct k as [|k]; [try lia; vm_compute in Hk; injection Hk as <-;
                              simpl; lia|]).
  lia.
Qed.

(** * Properties of the tile renderer and the tile cache *)

(** ** Telling the centres of columns apart *)








(** The control point of a full-height curve at the default row height:
    the product [24 * 0.35] is rounded, and the number drawn is the one
    JavaScript prints as 8.399999999999999, not 8.4. *)
Example full_height_control_point :
  segmentGeometry (mkSeg 1 0 "#4FC3F7" None) ROW_HEIGHT
  = Bezier 30 0 30 8.399999999999999 10 8.399999999999999 10 24 /\
  (8.399999999999999 =? 8.4)%float = false.
Proof. split; reflexivity. Qed.



(** ** The tile cache *)

Section TileCache.
Variable showNum : float -> string.
Variable path_join : string -> string -> string.
(** [path.join] never returns the empty string (it returns ["."] at least). *)
Hypothesis path_join_nonempty : forall a b, path_join a b <> "".

Lemma keyFields_segments r1 r2 h1 h2 c1 c2 :
  keyFields r1 h1 c1 = keyFields r2 h2 c2 -> segments r1 = segments r2.
Proof.
  unfold keyFields. intros [= _ _ _ _ H].
  revert H. generalize (segments r2). induction (segments r1) as [|s l IH];
    intros [|s' l'] H; simpl in H; try done.
  injection H as Hh Ht Hb Hc Hl. f_equal; [|by apply IH].
  destruct s, s'; simpl in *. by subst.
Qed.

Lemma keyText_fields r1 r2 h1 h2 c1 c2 :
  keyFields r1 h1 c1 = keyFields r2 h2 c2 ->
  keyText showNum r1 h1 c1 = keyText showNum r2 h2 c2.
Proof.
  intros H. pose proof (keyFields_segments _ _ _ _ _ _ H) as Hs.
  unfold keyFields in H. injection H as Hcol Hcolor Hh Hc _.
  unfold keyText. by rewrite Hcol, Hcolor, Hh, Hc, Hs.
Qed.

(** Every cached path is a non-empty string, so a present key is a hit. *)
Lemma reachable_nonempty c :
  reachable showNum path_join c -> forall k p, cache c !! k = Some p -> p <> "".
Proof.
  induction 1 as [dir existing|c row rh mc Hr IH|c Hr IH]; intros k p Hk.
  - simpl in Hk. by rewrite lookup_empty in Hk.
  - unfold getTilePath in Hk.
    set (key := buildKey showNum row (default ROW_HEIGHT rh) (default (numCols row) mc)) in *.
    assert (Hmiss : forall fp, fp = path_join (cacheDir c) (key +:+ ".svg") ->
              <[key := fp]> (cache c) !! k = Some p -> p <> "").
    { intros fp -> Hl. destruct (decide (key = k)) as [->|Hne].
      - rewrite lookup_insert_eq in Hl. injection Hl as <-. apply path_join_nonempty.
      - rewrite lookup_insert_ne in Hl by done. by eapply IH. }
    destruct (cache c !! key) as [cached|] eqn:E.
    + case_bool_decide; simpl in Hk; [by eapply Hmiss|by eapply IH].
    + simpl in Hk. by eapply Hmiss.
  - simpl in Hk. by rewrite lookup_empty in Hk.
Qed.

(** C8 (cache keying): the key is a function of the commit column, the
    commit colour, the row height, the column count and the list of (half
    flag, top column, bottom column, colour) of the segments, and of
    nothing else: rows that agree on these have the same key, whatever
    their commit hashes.  In a cache built by the constructor,
    [getTilePath] and [clear]: when the key is present, [getTilePath]
    returns the stored path and changes nothing (the renderer is not
    called, no file is written); when it is absent, the tile is rendered,
    written to the file named after the key, recorded under the key, and
    that path is returned. *)
Theorem C8_cache_keying (c : SvgTileCache) (row : GraphRow)
    (rowHeight : option float) (maxCols : option nat) :
  reachable showNum path_join c ->
  let h := default ROW_HEIGHT rowHeight in
  let cols := default (numCols row) maxCols in
  let key := buildKey showNum row h cols in
  (forall row' h' cols',
     keyFields row' h' cols' = keyFields row h cols ->
     buildKey showNum row' h' cols' = key) /\
  (forall hash', buildKey showNum
                   (mkRow hash' (commitCol row) (commitColor row) (segments row)
                          (numCols row)) h cols = key) /\
  (forall p, cache c !! key = Some p ->
     getTilePath showNum path_join c row rowHeight maxCols = (p, c)) /\
  (cache c !! key = None ->
     let path := path_join (cacheDir c) (key +:+ ".svg") in
     let c' := (getTilePath showNum path_join c row rowHeight maxCols).2 in
     (getTilePath showNum path_join c row rowHeight maxCols).1 = path /\
     files c' !! path = Some (renderSvg showNum row (Some h) (Some cols)) /\
     cache c' !! key = Some path /\
     rendered c' = rendered c ++ [mkCall row h cols] /\
     getTilePath showNum path_join c' row rowHeight maxCols = (path, c')).
Proof.
  intros Hr h cols key.
  assert (Hkey : forall row' h' cols',
            keyFields row' h' cols' = keyFields row h cols ->
            buildKey showNum row' h' cols' = key).
  { intros row' h' cols' Hf. unfold key, buildKey.
    by rewrite (keyText_fields _ _ _ _ _ _ Hf). }
  split; [done|]. split; [intros hash'; by apply Hkey|]. split.
  - intros p Hp. unfold getTilePath. fold h cols key. rewrite Hp.
    rewrite bool_decide_eq_false_2; [done|]. by eapply reachable_nonempty.
  - intros Hnone path c'.
    assert (Hget : getTilePath showNum path_join c row rowHeight maxCols
                   = (path, mkCache (cacheDir c) (<[key := path]> (cache c))
                              (<[path := renderSvg showNum row (Some h) (Some cols)]>
                                 (files c))
                              (rendered c ++ [mkCall row h cols]))).
    { unfold getTilePath. fold h cols key. by rewrite Hnone. }
    subst c'. rewrite Hget. cbn [fst snd files cache rendered].
    split; [done|]. split; [apply lookup_insert_eq|].
    split; [apply lookup_insert_eq|]. split; [done|].
    unfold getTilePath. cbn [cache cacheDir]. fold h cols key.
    rewrite lookup_insert_eq.
    rewrite bool_decide_eq_false_2; [done|]. apply path_join_nonempty.
Qed.

End TileCache.

Lemma pathJoinSample_nonempty a b : pathJoinSample a b <> "".
Proof. unfold pathJoinSample. destruct a; simpl; discriminate. Qed.


Lemma C8_cache_keying_witness :
  let c := newCache pathJoinSample "/store" ∅ in
  let key := buildKey showNumSample sampleRow ROW_HEIGHT 3 in
  (forall row' h' cols',
     keyFields row' h' cols' = keyFields sampleRow ROW_HEIGHT 3 ->
     buildKey showNumSample row' h' cols' = key) /\
  (forall hash', buildKey showNumSample
                   (mkRow hash' (commitCol sampleRow) (commitColor sampleRow)
                          (segments sampleRow) (numCols sampleRow))
                   ROW_HEIGHT 3 = key) /\
  (forall p, cache c !! key = Some p ->
     getTilePath showNumSample pathJoinSample c sampleRow None (Some 3) = (p, c)) /\
  (cache c !! key = None ->
     let path := pathJoinSample (cacheDir c) (key +:+ ".svg") in
     let c' := (getTilePath showNumSample pathJoinSample c sampleRow None (Some 3)).2 in
     (getTilePath showNumSample pathJoinSample c sampleRow None (Some 3)).1 = path /\
     files c' !! path
     = Some (renderSvg showNumSample sampleRow (Some ROW_HEIGHT) (Some 3)) /\
     cache c' !! key = Some path /\
     rendered c' = rendered c ++ [mkCall sampleRow ROW_HEIGHT 3] /\
     getTilePath showNumSample pathJoinSample c' sampleRow None (Some 3) = (path, c')).
Proof.
  exact (C8_cache_keying showNumSample pathJoinSample pathJoinSample_nonempty
           (newCache pathJoinSample "/store" ∅) sampleRow None (Some 3)
           (reach_new showNumSample pathJoinSample "/store" ∅)).
Defined.

(** * Further properties of the lane allocation engine *)

(** ** Shape of the segments *)

Lemma Forall_map_in {A B} (P : B -> Prop) (f : A -> B) (l : list A) :
  (forall x, x ∈ l -> P (f x)) -> Forall P (map f l).
Proof.
  induction l as [|x l IH]; intros H; simpl; constructor.
  - apply H. left.
  - apply IH. intros y Hy. apply H. by right.
Qed.

(** Every segment of a row is vertical (and full height away from the
    commit column), or a bottom-half curve from the commit column to
    another column, or a full-height curve from another column to the
    commit column.  In particular no curve joins two columns that are both
    different from the commit column, and no curve is top-half. *)
Theorem segments_wellShaped (st : LayoutState) (c : Commit) :
  Forall (wellShaped (commitCol (processCommit st c).2))
         (segments (processCommit st c).2).
Proof.
  rewrite processCommit_row, row_segments, row_commitCol.
  set (w := layoutRow st c). destruct (layoutRow_links st c) as [Hf Hm].
  fold w in Hf, Hm. rewrite !Forall_app. repeat split.
  - apply Forall_forall. intros s (i & t & b & Hi & _ & _ & ->)%passThroughs_elem.
    left. simpl. by split.
  - apply Forall_map_in. intros k Hk. right. right. simpl.
    apply selectColumn_converging in Hk as (_ & Hlt & _).
    change (commitLane w) with (sel_commitLane (selectColumn st c)).
    split; [done|]. split; [lia|done].
  - unfold commitStub.
    destruct (negb (bool_decide (parents c = []))), (bool_decide (parents c = [])),
      (isNewTip w);
      first [by apply Forall_nil | apply Forall_singleton; left; simpl; split; done].
  - apply Forall_map_in. intros f Hin. right. left. simpl.
    rewrite Forall_forall in Hf. by split; [|split; [apply Hf|]].
  - apply Forall_map_in. intros m Hin. right. right. simpl.
    rewrite Forall_forall in Hm. by split; [|split; [apply Hm|]].
Qed.

(** ** The lane array and the column count *)

Lemma selectColumn_length st c :
  length (lanes st) <= length (sel_lanes (selectColumn st c)).
Proof.
  destruct (selectColumn_cases st c) as [(E & k & l1 & F & ->)|(m & rest & E & ->)];
    simpl; [|done].
  rewrite length_insert.
  apply findFreeLane_spec in F as [_ [(-> & _)|(-> & _)]]; [done|].
  rewrite length_app. lia.
Qed.

Lemma ParentStep_length cl a p a' :
  ParentStep cl a p a' -> length (pa_lanes a) <= length (pa_lanes a').
Proof.
  intros [ex E|nl l1 E F]; simpl; [done|]. rewrite length_insert.
  apply findFreeLane_spec in F as [_ [(-> & _)|(-> & _)]]; [done|].
  rewrite length_app. lia.
Qed.

Lemma applyParents_length cl col ps l idx :
  length l <= length (pa_lanes (applyParents cl col ps l idx)).
Proof.
  destruct ps as [|p0 more]; simpl; [by rewrite length_insert|].
  apply (parentLoop_ind cl (fun a => length l <= length (pa_lanes a))).
  - simpl. by rewrite length_insert.
  - intros a p a' Ha Hs. apply ParentStep_length in Hs. lia.
Qed.

Lemma layoutRow_lengths st c :
  length (lanes st) <= length (topLanes (layoutRow st c)) /\
  length (topLanes (layoutRow st c)) <= length (botLanes (layoutRow st c)).
Proof.
  split; [apply selectColumn_length|].
  rewrite layoutRow_botLanes.
  etrans; [|apply applyParents_length].
  change (freedLanes (layoutRow st c))
    with (freeLanes (sel_convergingLanes (selectColumn st c))
                    (sel_lanes (selectColumn st c))).
  by rewrite freeLanes_length.
Qed.

Lemma numCols_within_lanes_core (st : LayoutState) (c : Commit) :
  length (lanes st) <= length (lanes (processCommit st c).1) /\
  numCols (processCommit st c).2 <= length (lanes (processCommit st c).1).
Proof.
  rewrite processCommit_lanes, processCommit_row.
  destruct (layoutRow_lengths st c) as [Hl1 Hl2]. split; [lia|].
  set (w := layoutRow st c) in *.
  assert (Hcl : commitLane w < length (botLanes w)).
  { pose proof (selectColumn_lt st c) as Hlt.
    change (commitLane w < length (topLanes w)) in Hlt. lia. }
  assert (Hcols : Forall (fun k => k < length (botLanes w))
                    (commitCol (row w) :: colsOfSegments (segments (row w)))).
  { constructor; [done|]. unfold w at 2. rewrite row_segments. fold w.
    unfold colsOfSegments. rewrite !flat_map_app, !Forall_app.
    destruct (layoutRow_links st c) as [Hf Hm]. fold w in Hf, Hm.
    destruct (applyParents_linksInv (commitLane w) (commitColor (row w)) (parents c)
                (freedLanes w) (sel_colorIdx (selectColumn st c))) as [HF HM].
    change (pa_forks _) with (forks w) in HF. change (pa_merges _) with (merges w) in HM.
    change (pa_lanes _) with (botLanes w) in HF, HM.
    repeat split.
    - apply Forall_forall. intros k Hk%list_elem_of_In.
      apply in_flat_map in Hk as (s & Hs%list_elem_of_In & Hk).
      apply passThroughs_elem in Hs as (i & t & b & _ & _ & Hb & ->).
      apply lookup_lt_Some in Hb. simpl in Hk. destruct Hk as [<-|[<-|[]]]; done.
    - apply Forall_forall. intros k Hk%list_elem_of_In.
      apply in_flat_map in Hk as (s & Hs & Hk). unfold convergences in Hs.
      apply in_map_iff in Hs as (cv & <- & Hcv%list_elem_of_In).
      apply selectColumn_converging in Hcv as (Htip & _ & e & He & _).
      apply lookup_lt_Some in He.
      simpl in Hk. destruct Hk as [<-|[<-|[]]]; [lia|done].
    - unfold commitStub.
      destruct (negb (bool_decide (parents c = []))), (bool_decide (parents c = [])),
        (isNewTip w); simpl;
        first [by apply Forall_nil
              | repeat (apply Forall_cons; split; [done|]); by apply Forall_nil].
    - apply Forall_forall. intros k Hk%list_elem_of_In.
      apply in_flat_map in Hk as (s & Hs & Hk). unfold forkSegments in Hs.
      apply in_map_iff in Hs as (f & <- & Hin%list_elem_of_In).
      destruct (HF f Hin) as (e & He & _). apply lookup_lt_Some in He.
      simpl in Hk. destruct Hk as [<-|[<-|[]]]; done.
    - apply Forall_forall. intros k Hk%list_elem_of_In.
      apply in_flat_map in Hk as (s & Hs & Hk). unfold mergeSegments in Hs.
      apply in_map_iff in Hs as (m & <- & Hin%list_elem_of_In).
      destruct (HM m Hin) as (e & He & _). apply lookup_lt_Some in He.
      simpl in Hk. destruct Hk as [<-|[<-|[]]]; done. }
  assert (Hmax : max_list (commitCol (row w) :: colsOfSegments (segments (row w)))
                 < length (botLanes w)).
  { pose proof (max_list_elem_of
                  (commitCol (row w) :: colsOfSegments (segments (row w)))) as Hin.
    rewrite Forall_forall in Hcols. apply Hcols, Hin. done. }
  assert (E : numCols (row w)
              = max_list (commitCol (row w) :: colsOfSegments (segments (row w))) + 1).
  { unfold w, layoutRow. cbn [row numCols commitCol segments].
    unfold maxColOf. by rewrite maxColOf_fold. }
  lia.
Qed.

(** The lane array never shrinks, and every column a row refers to is a
    slot of the lane array as the row leaves it: the row's column count is
    at most the length of the array. *)
Theorem numCols_within_lanes (st : LayoutState) (c : Commit) :
  length (lanes st) <= length (lanes (processCommit st c).1) /\
  numCols (processCommit st c).2 <= length (lanes (processCommit st c).1).
Proof. exact (numCols_within_lanes_core st c). Qed.

(** ** Runs, row by row *)

Lemma stateAfter_cons st c cs :
  stateAfter st (c :: cs) = stateAfter (processCommit st c).1 cs.
Proof. reflexivity. Qed.

Lemma stateAfter_snoc st cs c :
  stateAfter st (cs ++ [c]) = (processCommit (stateAfter st cs) c).1.
Proof. unfold stateAfter. by rewrite fold_left_app. Qed.

Lemma layoutFrom_cons st c cs :
  layoutFrom st (c :: cs) = (processCommit st c).2 :: layoutFrom (processCommit st c).1 cs.
Proof. reflexivity. Qed.

(** The i-th row of a run is the row of the i-th commit, computed in the
    state the first i commits leave. *)
Lemma layoutFrom_lookup st cs i r :
  layoutFrom st cs !! i = Some r ->
  exists c, cs !! i = Some c /\
            r = (processCommit (stateAfter st (take i cs)) c).2.
Proof.
  revert st i. induction cs as [|c cs IH]; intros st i Hr; [done|].
  rewrite layoutFrom_cons in Hr. destruct i as [|i]; simpl in Hr.
  - injection Hr as <-. by exists c.
  - apply IH in Hr as (d & Hd & ->). exists d. split; [done|].
    by rewrite firstn_cons, stateAfter_cons.
Qed.

(** A property of states kept by every row, and what it gives for the rows. *)
Lemma layoutFrom_invariant (I : LayoutState -> Prop) (R : GraphRow -> Prop) st cs :
  I st ->
  (forall s c, I s -> I (processCommit s c).1 /\ R (processCommit s c).2) ->
  I (stateAfter st cs) /\ Forall R (layoutFrom st cs).
Proof.
  intros H0 Hstep. revert st H0.
  induction cs as [|c cs IH]; intros st H0; [by split|].
  rewrite stateAfter_cons, layoutFrom_cons.
  destruct (Hstep st c H0) as [H1 HR]. destruct (IH _ H1) as [H2 HF].
  split; [done|]. by constructor.
Qed.

(** ** Colours come from the palette *)

Lemma nextColor_palette n : (nextColor n).1 ∈ BRANCH_COLORS.
Proof. eapply list_elem_of_lookup_2, palette_lookup. Qed.

Lemma colorAt_palette l i e :
  paletteLanes l -> l !! i = Some (Some e) -> colorAt l i ∈ BRANCH_COLORS.
Proof. intros Hp Hi. unfold colorAt. rewrite Hi. by eapply Hp. Qed.

Lemma paletteLanes_insert l i e :
  paletteLanes l -> lane_color e ∈ BRANCH_COLORS -> paletteLanes (<[i := Some e]> l).
Proof.
  intros Hp He j e' Hj. destruct (decide (i = j)) as [->|Hne].
  - destruct (decide (j < length l)) as [Hlt|Hge].
    + rewrite list_lookup_insert_eq in Hj by done. by injection Hj as <-.
    + rewrite list_insert_ge in Hj by lia. by eapply Hp.
  - rewrite list_lookup_insert_ne in Hj by done. by eapply Hp.
Qed.

Lemma paletteLanes_clear l i : paletteLanes l -> paletteLanes (<[i := None]> l).
Proof.
  intros Hp j e' Hj. destruct (decide (i = j)) as [->|Hne].
  - destruct (decide (j < length l)) as [Hlt|Hge].
    + by rewrite list_lookup_insert_eq in Hj.
    + rewrite list_insert_ge in Hj by lia. by eapply Hp.
  - rewrite list_lookup_insert_ne in Hj by done. by eapply Hp.
Qed.

Lemma paletteLanes_findFree excl l k l1 :
  paletteLanes l -> findFreeLane excl l = (k, l1) -> paletteLanes l1.
Proof.
  intros Hp F. apply findFreeLane_spec in F as [_ [(-> & _)|(-> & _)]]; [done|].
  intros j e Hj. destruct (decide (j < length l)) as [Hlt|Hge].
  - rewrite lookup_app_l in Hj by done. by eapply Hp.
  - rewrite lookup_app_r in Hj by lia.
    destruct (j - length l) as [|[|?]]; simpl in Hj; done.
Qed.

Lemma paletteLanes_free cls l : paletteLanes l -> paletteLanes (freeLanes cls l).
Proof.
  unfold freeLanes. revert l. induction cls as [|k cls IH]; intros l Hp; simpl;
    [done|]. by apply IH, paletteLanes_clear.
Qed.

Lemma selectColumn_palette st c :
  paletteLanes (lanes st) -> paletteLanes (sel_lanes (selectColumn st c)).
Proof.
  intros Hp.
  destruct (selectColumn_cases st c) as [(E & k & l1 & F & ->)|(m & rest & E & ->)];
    simpl; [|done].
  apply paletteLanes_insert; [by eapply paletteLanes_findFree|].
  apply nextColor_palette.
Qed.

Lemma applyParents_palette cl col ps l idx :
  paletteLanes l -> col ∈ BRANCH_COLORS ->
  let a := applyParents cl col ps l idx in
  paletteLanes (pa_lanes a) /\
  Forall (fun f => link_color f ∈ BRANCH_COLORS) (pa_forks a) /\
  Forall (fun m => link_color m ∈ BRANCH_COLORS) (pa_merges a).
Proof.
  intros Hp Hcol. destruct ps as [|p0 more]; simpl.
  - split; [by apply paletteLanes_clear|]. by split.
  - apply (parentLoop_ind cl
             (fun a => paletteLanes (pa_lanes a) /\
                       Forall (fun f => link_color f ∈ BRANCH_COLORS) (pa_forks a) /\
                       Forall (fun m => link_color m ∈ BRANCH_COLORS) (pa_merges a))).
    + split; [by apply paletteLanes_insert|]. by split.
    + intros a p a' (Ha & Hf & Hm) [ex E|nl l1 E F]; simpl.
      * split; [done|]. split; [done|]. apply Forall_app. split; [done|].
        apply Forall_singleton. simpl.
        apply findLane_Some in E as (_ & (e & He & _) & _).
        by eapply colorAt_palette.
      * split; [|split; [|done]].
        -- apply paletteLanes_insert; [by eapply paletteLanes_findFree|].
           apply nextColor_palette.
        -- apply Forall_app. split; [done|]. apply Forall_singleton.
           apply nextColor_palette.
Qed.

Lemma processCommit_palette st c :
  paletteLanes (lanes st) ->
  paletteLanes (lanes (processCommit st c).1) /\
  (commitColor (processCommit st c).2 ∈ BRANCH_COLORS /\
   Forall (fun s => color s ∈ BRANCH_COLORS) (segments (processCommit st c).2)).
Proof.
  intros Hp. rewrite processCommit_lanes, processCommit_row.
  set (w := layoutRow st c).
  assert (Htop : paletteLanes (topLanes w)) by (by apply selectColumn_palette).
  assert (Hcc : commitColor (row w) ∈ BRANCH_COLORS).
  { destruct (selectColumn_entry st c) as (e & He & _).
    by apply (colorAt_palette _ _ e). }
  assert (Hfr : paletteLanes (freedLanes w)) by (by apply paletteLanes_free).
  destruct (applyParents_palette (commitLane w) (commitColor (row w)) (parents c)
              (freedLanes w) (sel_colorIdx (selectColumn st c)) Hfr Hcc)
    as (Hbot & Hf & Hm).
  change (pa_lanes _) with (botLanes w) in Hbot.
  change (pa_forks _) with (forks w) in Hf. change (pa_merges _) with (merges w) in Hm.
  split; [done|]. split; [done|].
  unfold w at 1. rewrite row_segments. fold w. rewrite !Forall_app. repeat split.
  - apply Forall_forall. intros s (i & t & b & _ & Ht & _ & ->)%passThroughs_elem.
    simpl. by eapply Htop.
  - apply Forall_map_in. intros k _. cbn [color].
    destruct (topLanes w !! k) as [[t|]|] eqn:Ek; [by eapply Htop|done..].
  - unfold commitStub.
    destruct (negb (bool_decide (parents c = []))), (bool_decide (parents c = [])),
      (isNewTip w); first [by apply Forall_nil | by apply Forall_singleton].
  - apply Forall_map_in. intros f Hin. simpl. rewrite Forall_forall in Hf. by apply Hf.
  - apply Forall_map_in. intros m Hin. simpl. rewrite Forall_forall in Hm. by apply Hm.
Qed.

(** Every colour the engine puts in a row, for the commit and for each
    segment, is one of the twelve palette colours. *)
Theorem colors_from_palette (commits : list Commit) :
  Forall (fun r => commitColor r ∈ BRANCH_COLORS /\
                   Forall (fun s => color s ∈ BRANCH_COLORS) (segments r))
         (computeGraphLayout commits).
Proof.
  refine (proj2 (layoutFrom_invariant (fun s => paletteLanes (lanes s)) _
                   initState commits _ _)).
  - intros i e Hi. simpl in Hi. by rewrite lookup_nil in Hi.
  - intros s c. apply processCommit_palette.
Qed.

(** ** How many lanes a history can need *)

Lemma parentLoop_forks_length cl ps a :
  length (pa_forks (fold_left (processParent cl) ps a))
  <= length (pa_forks a) + length ps.
Proof.
  revert a. induction ps as [|p ps IH]; intros a; simpl; [lia|].
  etrans; [apply IH|].
  destruct (processParent_step cl a p) as [ex E|nl l1 E F]; simpl; [lia|].
  rewrite length_app. simpl. lia.
Qed.

Lemma openedBy_length st c :
  length (openedBy (layoutRow st c)) <= max 1 (length (parents c)).
Proof.
  unfold openedBy. rewrite length_app.
  assert (Hf : length (forks (layoutRow st c)) <= length (parents c) - 1).
  { unfold layoutRow. cbn [forks]. destruct (parents c) as [|p0 more]; simpl; [lia|].
    etrans; [apply parentLoop_forks_length|]. simpl. lia. }
  destruct (isNewTip (layoutRow st c)); cbn [length]; lia.
Qed.

Lemma processCommit_budget st c :
  length (lanes st) <= colorIdx st ->
  length (lanes (processCommit st c).1) <= colorIdx (processCommit st c).1 /\
  colorIdx (processCommit st c).1 <= colorIdx st + max 1 (length (parents c)).
Proof.
  intros Hle. split.
  - rewrite processCommit_lanes, layoutRow_botLanes.
    change (colorIdx (processCommit st c).1)
      with (pa_colorIdx (applyParents (commitLane (layoutRow st c))
              (commitColor (row (layoutRow st c))) (parents c)
              (freedLanes (layoutRow st c)) (sel_colorIdx (selectColumn st c)))).
    assert (Hsel : length (freedLanes (layoutRow st c))
                   <= sel_colorIdx (selectColumn st c)).
    { change (freedLanes (layoutRow st c))
        with (freeLanes (sel_convergingLanes (selectColumn st c))
                        (sel_lanes (selectColumn st c))).
      rewrite freeLanes_length.
      destruct (selectColumn_cases st c)
        as [(E & k & l1 & F & ->)|(m & rest & E & ->)]; simpl; [|done].
      rewrite length_insert.
      apply findFreeLane_spec in F as [_ [(-> & _)|(-> & _)]]; [lia|].
      rewrite length_app. simpl. lia. }
    destruct (parents c) as [|p0 more]; simpl; [by rewrite length_insert|].
    apply (parentLoop_ind _ (fun a => length (pa_lanes a) <= pa_colorIdx a)).
    + simpl. by rewrite length_insert.
    + intros a p a' Ha [ex E|nl l1 E F]; simpl; [done|]. rewrite length_insert.
      apply findFreeLane_spec in F as [_ [(-> & _)|(-> & _)]]; [lia|].
      rewrite length_app. simpl. lia.
  - destruct (openedBy_colors st c) as [Hidx _].
    change (colorIdx (processCommit st c).1) with (colorIdxAfter (layoutRow st c)).
    pose proof (openedBy_length st c). lia.
Qed.

Lemma laneBudget_cons c cs :
  laneBudget (c :: cs) = max 1 (length (parents c)) + laneBudget cs.
Proof. reflexivity. Qed.

Lemma layoutFrom_budget st cs :
  length (lanes st) <= colorIdx st ->
  Forall (fun r => numCols r <= colorIdx st + laneBudget cs) (layoutFrom st cs) /\
  length (lanes (stateAfter st cs)) <= colorIdx (stateAfter st cs) /\
  colorIdx (stateAfter st cs) <= colorIdx st + laneBudget cs.
Proof.
  revert st. induction cs as [|c cs IH]; intros st Hle.
  { split; [constructor|]. simpl. lia. }
  rewrite layoutFrom_cons, stateAfter_cons, laneBudget_cons.
  destruct (processCommit_budget st c Hle) as [H1 H2].
  destruct (IH _ H1) as (HF & Hlen & Hidx).
  destruct (numCols_within_lanes_core st c) as [_ Hn].
  split; [|lia]. constructor; [lia|].
  eapply Forall_impl; [exact HF|]. intros r Hr. cbv beta in Hr |- *. lia.
Qed.

Lemma openedFrom_count st cs :
  colorIdx (stateAfter st cs) = colorIdx st + length (openedFrom st cs).
Proof.
  revert st. induction cs as [|c cs IH]; intros st; [simpl; lia|].
  rewrite stateAfter_cons, IH.
  change (openedFrom st (c :: cs))
    with (openedBy (layoutRow st c) ++ openedFrom (processCommit st c).1 cs).
  rewrite length_app. destruct (openedBy_colors st c) as [Hidx _].
  change (colorIdx (processCommit st c).1) with (colorIdxAfter (layoutRow st c)).
  lia.
Qed.

(** The colour counter counts the lanes opened; the lane array is never
    longer than that count; and neither it nor the column count of any row
    exceeds the budget of the history: one lane per commit, or one per parent
    for a commit with several parents. *)
Theorem columns_within_budget (commits : list Commit) :
  colorIdx (stateAfter initState commits) = length (openedLanes commits) /\
  length (lanes (stateAfter initState commits)) <= length (openedLanes commits) /\
  length (openedLanes commits) <= laneBudget commits /\
  Forall (fun r => numCols r <= laneBudget commits) (computeGraphLayout commits).
Proof.
  pose proof (openedFrom_count initState commits) as Hc. simpl in Hc.
  fold (openedLanes commits) in Hc.
  assert (H0 : length (lanes initState) <= colorIdx initState) by (simpl; lia).
  destruct (layoutFrom_budget initState commits H0) as (HF & Hlen & Hidx).
  simpl in Hidx. split; [done|]. split; [lia|]. split; [lia|]. exact HF.
Qed.

(** ** What a row adds and what it retires *)

Lemma parentLoop_ind_in cl (P : ParentAcc -> Prop) ps acc :
  P acc ->
  (forall a p a', p ∈ ps -> P a -> ParentStep cl a p a' -> P a') ->
  P (fold_left (processParent cl) ps acc).
Proof.
  revert acc. induction ps as [|p ps IH]; intros acc H0 Hstep; simpl; [done|].
  apply IH.
  - eapply (Hstep acc p); [by left|done|apply processParent_step].
  - intros a q a' Hq. apply Hstep. by right.
Qed.

Lemma parentLoop_awaited cl ps a p :
  p ∈ ps ->
  exists i e, pa_lanes (fold_left (processParent cl) ps a) !! i = Some (Some e)
              /\ lane_hash e = p.
Proof.
  revert a. induction ps as [|q ps IH]; intros a Hp; [by apply elem_of_nil in Hp|].
  simpl. destruct (decide (q = p)) as [->|Hne].
  - assert (Hnow : exists i e, pa_lanes (processParent cl a p) !! i = Some (Some e)
                               /\ lane_hash e = p).
    { destruct (processParent_step cl a p) as [ex E|nl l1 E F]; simpl.
      - apply findLane_Some in E as (_ & (e & He & Hh) & _). eauto.
      - apply findFreeLane_lt in F as [Hlt _]. exists nl. eexists.
        split; [by apply list_lookup_insert_eq|done]. }
    destruct Hnow as (i & e & Hi & Hh). exists i, e.
    split; [by apply parentLoop_keeps|done].
  - apply IH. apply elem_of_cons in Hp as [?|?]; [congruence|done].
Qed.

Lemma parents_awaited_core (st : LayoutState) (c : Commit) :
  Forall (fun p => exists i e, lanes (processCommit st c).1 !! i = Some (Some e)
                               /\ lane_hash e = p)
         (parents c).
Proof.
  rewrite processCommit_lanes, layoutRow_botLanes.
  destruct (parents c) as [|p0 more] eqn:Hps; [constructor|].
  constructor.
  - exists (commitLane (layoutRow st c)),
           (mkLane p0 (commitColor (row (layoutRow st c)))).
    split; [|reflexivity].
    apply applyParents_commitLane, layoutRow_freed_length.
  - apply Forall_forall. intros p Hp. cbn [applyParents].
    by apply parentLoop_awaited.
Qed.

(** After the row of a commit, every one of its parents is awaited by some
    lane: the commit column for the first parent, an existing or a newly
    opened lane for each merge parent. *)
Theorem parents_awaited (st : LayoutState) (c : Commit) :
  Forall (fun p => exists i e, lanes (processCommit st c).1 !! i = Some (Some e)
                               /\ lane_hash e = p)
         (parents c).
Proof. exact (parents_awaited_core st c). Qed.

Lemma ParentStep_ParentsInv cl l0 ps a p a' :
  p ∈ ps -> ParentsInv l0 ps a -> ParentStep cl a p a' -> ParentsInv l0 ps a'.
Proof.
  intros Hp Hinv [ex E|nl l1 E F]; unfold ParentsInv; simpl; [done|].
  intros j e Hj. destruct (decide (j = nl)) as [->|Hne].
  - pose proof (findFreeLane_lt _ _ _ _ F) as [Hlt _].
    rewrite list_lookup_insert_eq in Hj by done. injection Hj as <-. by right.
  - rewrite list_lookup_insert_ne in Hj by done. apply Hinv.
    pose proof (findFreeLane_spec _ _ _ _ F) as [_ [(-> & _)|(-> & -> & _)]];
      [done|].
    destruct (decide (j < length (pa_lanes a))) as [Hlt|Hge];
      [by rewrite lookup_app_l in Hj|].
    rewrite lookup_app_r in Hj by lia.
    destruct (j - length (pa_lanes a)) as [|[|?]]; simpl in Hj; done.
Qed.

(** A lane that awaits the commit before the row is the commit column or a
    converging lane. *)
Lemma layoutRow_matching st c j e :
  lanes st !! j = Some (Some e) -> lane_hash e = hash c ->
  j = commitLane (layoutRow st c) \/ j ∈ convergingLanes (layoutRow st c).
Proof.
  intros Hj He.
  change (commitLane (layoutRow st c)) with (sel_commitLane (selectColumn st c)).
  change (convergingLanes (layoutRow st c))
    with (sel_convergingLanes (selectColumn st c)).
  assert (Hin : j ∈ findAllLanes (hash c) (lanes st))
    by (apply findAllLanes_elem; eauto).
  destruct (selectColumn_cases st c) as [(E & _)|(m & rest & E & ->)].
  - rewrite E in Hin. by apply elem_of_nil in Hin.
  - rewrite E in Hin. simpl. by apply elem_of_cons in Hin.
Qed.

(** A lane that does not await the commit keeps its entry through the row. *)
Lemma layoutRow_persists st c i e :
  lanes st !! i = Some (Some e) -> lane_hash e <> hash c ->
  botLanes (layoutRow st c) !! i = Some (Some e).
Proof.
  intros Hi Hne. set (w := layoutRow st c).
  assert (Hcl : i <> commitLane w).
  { intros ->. destruct (selectColumn_entry st c) as (e0 & He0 & Hh0).
    change (topLanes w !! commitLane w = Some (Some e0)) in He0.
    change (topLanes w) with (sel_lanes (selectColumn st c)) in He0.
    change (commitLane w) with (sel_commitLane (selectColumn st c)) in He0, Hi.
    destruct (selectColumn_cases st c) as [(E & k & l1 & F & Hs)|(m & rest & E & Hs)];
      rewrite Hs in He0, Hi; simpl in He0, Hi; [|congruence].
    apply findFreeLane_spec in F as [_ [(_ & Hn & _)|(_ & -> & _)]]; [congruence|].
    apply lookup_lt_Some in Hi. lia. }
  assert (Hconv : i ∉ convergingLanes w).
  { intros (_ & _ & e' & He' & Hh')%selectColumn_converging. congruence. }
  assert (Hfreed : freedLanes w !! i = Some (Some e)).
  { change (freedLanes w) with (freeLanes (sel_convergingLanes (selectColumn st c))
                                          (sel_lanes (selectColumn st c))).
    rewrite freeLanes_lookup_notin by done.
    destruct (selectColumn_other st c i Hcl) as [->|[? _]]; congruence. }
  unfold w. rewrite layoutRow_botLanes. fold w.
  destruct (parents c) as [|p0 more]; simpl.
  - by rewrite list_lookup_insert_ne.
  - apply parentLoop_keeps. simpl. by rewrite list_lookup_insert_ne.
Qed.

(** An entry present after the row was there before, or awaits a parent. *)
Lemma layoutRow_entries st c i e :
  botLanes (layoutRow st c) !! i = Some (Some e) ->
  (lanes st !! i = Some (Some e) /\ lane_hash e <> hash c) \/
  lane_hash e ∈ parents c.
Proof.
  set (w := layoutRow st c). intros Hi.
  assert (Hold : i <> commitLane w -> freedLanes w !! i = Some (Some e) ->
                 lanes st !! i = Some (Some e) /\ lane_hash e <> hash c).
  { intros Hcl Hf.
    assert (Hconv : i ∉ convergingLanes w).
    { intros Hc%layoutRow_converging_free. fold w in Hc. congruence. }
    change (freedLanes w) with (freeLanes (sel_convergingLanes (selectColumn st c))
                                          (sel_lanes (selectColumn st c))) in Hf.
    rewrite freeLanes_lookup_notin in Hf by done.
    assert (Hst : lanes st !! i = Some (Some e)).
    { destruct (selectColumn_other st c i Hcl) as [<-|[_ ?]]; congruence. }
    split; [done|]. intros Hh.
    destruct (layoutRow_matching st c i e Hst Hh); done. }
  unfold w in Hi. rewrite layoutRow_botLanes in Hi. fold w in Hi.
  destruct (parents c) as [|p0 more] eqn:Hps; simpl in Hi.
  - left. destruct (decide (i = commitLane w)) as [->|Hcl].
    + rewrite list_lookup_insert_eq in Hi by apply layoutRow_freed_length. done.
    + rewrite list_lookup_insert_ne in Hi by done. by apply Hold.
  - assert (Hinv : ParentsInv
              (<[commitLane w := Some (mkLane p0 (commitColor (row w)))]> (freedLanes w))
              more
              (fold_left (processParent (commitLane w)) more
                 (mkAcc (<[commitLane w := Some (mkLane p0 (commitColor (row w)))]>
                           (freedLanes w))
                        (sel_colorIdx (selectColumn st c)) [] []))).
    { apply parentLoop_ind_in; [intros j e' Hj; by left|].
      intros a p a' Hp. by apply ParentStep_ParentsInv. }
    destruct (Hinv i e Hi) as [Hl0|Hin]; [|right; by right].
    destruct (decide (i = commitLane w)) as [->|Hcl].
    + rewrite list_lookup_insert_eq in Hl0 by apply layoutRow_freed_length.
      injection Hl0 as <-. right. by left.
    + rewrite list_lookup_insert_ne in Hl0 by done. left. by apply Hold.
Qed.

Lemma row_retires_and_adds_core (st : LayoutState) (c : Commit) :
  (forall i e, lanes st !! i = Some (Some e) -> lane_hash e <> hash c ->
     lanes (processCommit st c).1 !! i = Some (Some e)) /\
  (forall i e, lanes (processCommit st c).1 !! i = Some (Some e) ->
     (lanes st !! i = Some (Some e) /\ lane_hash e <> hash c) \/
     lane_hash e ∈ parents c).
Proof.
  rewrite processCommit_lanes. split.
  - apply layoutRow_persists.
  - apply layoutRow_entries.
Qed.

(** A row keeps every lane that awaits another commit, in its slot; and
    every entry it leaves either was there, awaiting another commit, or
    awaits one of the commit's parents.  So a row retires exactly the lanes
    that awaited its commit and adds only lanes for its parents. *)
Theorem row_retires_and_adds (st : LayoutState) (c : Commit) :
  (forall i e, lanes st !! i = Some (Some e) -> lane_hash e <> hash c ->
     lanes (processCommit st c).1 !! i = Some (Some e)) /\
  (forall i e, lanes (processCommit st c).1 !! i = Some (Some e) ->
     (lanes st !! i = Some (Some e) /\ lane_hash e <> hash c) \/
     lane_hash e ∈ parents c).
Proof. exact (row_retires_and_adds_core st c). Qed.

(** ** Histories whose parents all appear later *)

Lemma stateAfter_take_S st cs n c :
  cs !! n = Some c ->
  stateAfter st (take (S n) cs) = (processCommit (stateAfter st (take n cs)) c).1.
Proof. intros H. by rewrite (take_S_r _ _ _ H), stateAfter_snoc. Qed.

(** Every lane awaits a hash that a commit still to come carries. *)
Lemma lanes_await_later cs n :
  parentsAppearLater cs ->
  forall i e, lanes (stateAfter initState (take n cs)) !! i = Some (Some e) ->
    exists j d, n <= j /\ cs !! j = Some d /\ hash d = lane_hash e.
Proof.
  intros Hlater. induction n as [|n IH]; intros i e Hi.
  { simpl in Hi. by rewrite lookup_nil in Hi. }
  destruct (cs !! n) as [c|] eqn:Hn.
  - rewrite (stateAfter_take_S _ _ _ _ Hn) in Hi.
    apply (proj2 (row_retires_and_adds_core _ c)) in Hi as [[Hold Hne]|Hin].
    + destruct (IH i e Hold) as (j & d & Hj & Hd & Hh).
      exists j, d. split; [|done].
      destruct (decide (j = n)) as [->|?]; [|lia]. congruence.
    + destruct (Hlater n c _ Hn Hin) as (j & d & Hj & Hd & Hh).
      exists j, d. split; [lia|done].
  - apply lookup_ge_None in Hn.
    rewrite take_ge in Hi by lia. rewrite <- (take_ge cs n) in Hi by lia.
    destruct (IH i e Hi) as (j & d & Hj & Hd & Hh).
    apply lookup_lt_Some in Hd. lia.
Qed.

(** When every parent of every commit appears further down the history,
    the pass ends with no lane occupied: every strand that was opened has
    reached its commit. *)
Theorem complete_history_ends_empty (commits : list Commit) :
  parentsAppearLater commits ->
  Forall (fun x => x = None) (lanes (stateAfter initState commits)).
Proof.
  intros Hlater. apply Forall_forall. intros x Hx.
  destruct x as [e|]; [|done]. exfalso.
  apply list_elem_of_lookup_1 in Hx as (i & Hi).
  rewrite <- (take_ge commits (length commits)) in Hi by lia.
  destruct (lanes_await_later commits (length commits) Hlater i e Hi)
    as (j & d & Hj & Hd & _).
  apply lookup_lt_Some in Hd. lia.
Qed.

(** ** The parent check of the debug script *)

Lemma lastRowOf_spec h cs :
  match lastRowOf h cs with
  | Some k =>
      (exists d, cs !! k = Some d /\ hash d = h) /\
      (forall j e, k < j -> cs !! j = Some e -> hash e <> h)
  | None => forall j e, cs !! j = Some e -> hash e <> h
  end.
Proof.
  induction cs as [|c cs IH]; simpl; [done|].
  destruct (lastRowOf h cs) as [k|].
  - destruct IH as [(d & Hd & Hh) Hlast]. split; [by exists d|].
    intros [|j] e Hj He; [lia|]. simpl in He. apply (Hlast j e); [lia|done].
  - case_bool_decide as Hc.
    + split; [by exists c|].
      intros [|j] e Hj He; [lia|]. simpl in He. by eapply IH.
    + intros [|j] e He; simpl in He; [by injection He as <-|by eapply IH].
Qed.

Lemma lastRowOf_Some h cs k :
  lastRowOf h cs = Some k <->
  (exists d, cs !! k = Some d /\ hash d = h) /\
  (forall j e, k < j -> cs !! j = Some e -> hash e <> h).
Proof.
  pose proof (lastRowOf_spec h cs) as Hs. split.
  - intros E. by rewrite E in Hs.
  - intros [(d & Hd & Hh) Hlast]. destruct (lastRowOf h cs) as [k'|].
    + destruct Hs as [(d' & Hd' & Hh') Hlast']. f_equal.
      destruct (lt_eq_lt_dec k' k) as [[Hlt|?]|Hlt]; [|done|].
      * by destruct (Hlast' k d Hlt Hd).
      * by destruct (Hlast k' d' Hlt Hd').
    + by destruct (Hs k d Hd).
Qed.

Lemma lastRowOf_None h cs :
  lastRowOf h cs = None <-> forall j e, cs !! j = Some e -> hash e <> h.
Proof.
  pose proof (lastRowOf_spec h cs) as Hs. split.
  - intros E. by rewrite E in Hs.
  - intros Hn. destruct (lastRowOf h cs) as [k|]; [|done].
    destruct Hs as [(d & Hd & Hh) _]. by destruct (Hn k d Hd).
Qed.

Lemma hashToRowFrom_lookup i cs m h :
  hashToRowFrom i cs m !! h
  = match lastRowOf h cs with
    | Some k => Some (i + k)
    | None => m !! h
    end.
Proof.
  revert i m. induction cs as [|c cs IH]; intros i m; simpl; [done|].
  rewrite IH. destruct (lastRowOf h cs) as [k|]; [f_equal; lia|].
  case_bool_decide as Hc.
  - subst h. rewrite lookup_insert_eq. f_equal. lia.
  - by rewrite lookup_insert_ne.
Qed.

(** [hashToRow] gives the row of the last commit with the hash, and
    nothing for a hash no commit has. *)
Lemma hashToRow_lookup cs h : hashToRow cs !! h = lastRowOf h cs.
Proof.
  unfold hashToRow. rewrite hashToRowFrom_lookup.
  destruct (lastRowOf h cs); [done|apply lookup_empty].
Qed.

Lemma checkParent_mono m i issues p : issues <= checkParent m i issues p.
Proof.
  unfold checkParent. destruct (m !! p) as [r|]; [|lia].
  destruct (r <=? i); lia.
Qed.

Lemma checkParents_zero m i ps issues :
  fold_left (checkParent m i) ps issues = 0 <->
  issues = 0 /\ forall p, p ∈ ps -> exists r, m !! p = Some r /\ i < r.
Proof.
  revert issues. induction ps as [|p ps IH]; intros issues; simpl.
  { split; [intros ->; split; [done|]; by intros ? ?%elem_of_nil|by intros [-> _]]. }
  rewrite IH. split.
  - intros [H0 Hps]. pose proof (checkParent_mono m i issues p) as Hm.
    assert (issues = 0) as -> by lia. split; [done|].
    intros q [->|Hq]%elem_of_cons; [|by apply Hps].
    unfold checkParent in H0. destruct (m !! p) as [r|]; [|done].
    destruct (r <=? i) eqn:E; [done|]. apply Nat.leb_gt in E. eauto.
  - intros [-> Hps]. split; [|intros q Hq; apply Hps; by right].
    destruct (Hps p) as (r & Hr & Hlt); [by left|].
    unfold checkParent. rewrite Hr.
    by rewrite (proj2 (Nat.leb_gt r i)).
Qed.

Lemma checkFrom_mono m i cs issues : issues <= checkFrom m i cs issues.
Proof.
  revert i issues. induction cs as [|c cs IH]; intros i issues; simpl; [lia|].
  etrans; [|apply IH]. generalize (parents c). clear. intros ps. revert issues.
  induction ps as [|p ps IHp]; intros issues; simpl; [lia|].
  etrans; [apply (checkParent_mono m i issues p)|apply IHp].
Qed.

Lemma checkFrom_zero m i cs issues :
  checkFrom m i cs issues = 0 <->
  issues = 0 /\
  forall k c p, cs !! k = Some c -> p ∈ parents c ->
    exists r, m !! p = Some r /\ i + k < r.
Proof.
  revert i issues. induction cs as [|c cs IH]; intros i issues; simpl.
  { split; [intros ->; split; [done|]; by intros ? ? ? ?|by intros [-> _]]. }
  rewrite IH, checkParents_zero. split.
  - intros [[-> Hc] Hcs]. split; [done|].
    intros [|k] d p Hd Hp; simpl in Hd.
    + injection Hd as <-. rewrite Nat.add_0_r. by apply Hc.
    + destruct (Hcs k d p Hd Hp) as (r & Hr & Hlt). exists r. split; [done|lia].
  - intros [-> H]. split; [split; [done|]|].
    + intros p Hp. destruct (H 0 c p eq_refl Hp) as (r & Hr & Hlt).
      exists r. split; [done|lia].
    + intros k d p Hd Hp. destruct (H (S k) d p Hd Hp) as (r & Hr & Hlt).
      exists r. split; [done|lia].
Qed.

Lemma countIssues_zero_core (commits : list Commit) :
  countIssues commits = 0 <-> parentsAppearLater commits.
Proof.
  unfold countIssues. rewrite checkFrom_zero. split.
  - intros [_ H] i c p Hc Hp. destruct (H i c p Hc Hp) as (r & Hr & Hlt).
    rewrite hashToRow_lookup in Hr.
    apply lastRowOf_Some in Hr as [(d & Hd & Hh) _]. exists r, d. split; [lia|done].
  - intros H. split; [done|]. intros i c p Hc Hp.
    destruct (H i c p Hc Hp) as (j & d & Hlt & Hd & Hh).
    destruct (lastRowOf p commits) as [r|] eqn:E.
    + exists r. rewrite hashToRow_lookup. split; [done|].
      apply lastRowOf_Some in E as [_ Hlast].
      destruct (decide (j <= r)) as [|Hgt]; [lia|].
      by destruct (Hlast j d ltac:(lia) Hd).
    + exfalso. rewrite lastRowOf_None in E. by destruct (E j d Hd).
Qed.

(** The debug script reports no issue exactly when every parent of every
    commit is the hash of a commit further down the list. *)
Theorem countIssues_zero (commits : list Commit) :
  countIssues commits = 0 <-> parentsAppearLater commits.
Proof. exact (countIssues_zero_core commits). Qed.

Lemma complete_history_ends_empty_witness :
  Forall (fun x => x = None) (lanes (stateAfter initState scenario4)).
Proof.
  apply (complete_history_ends_empty scenario4).
  apply countIssues_zero_core. vm_compute. reflexivity.
Defined.

(** ** A child's strand reaches its parent *)

Lemma layoutFrom_lookup_Some st cs i c :
  cs !! i = Some c ->
  layoutFrom st cs !! i = Some (processCommit (stateAfter st (take i cs)) c).2.
Proof.
  revert st i. induction cs as [|c' cs IH]; intros st i Hc; [done|].
  rewrite layoutFrom_cons. destruct i as [|i]; simpl in Hc.
  - by injection Hc as ->.
  - rewrite firstn_cons, stateAfter_cons. simpl. by apply IH.
Qed.

(** If the commit at row [j] is a parent of the commit at an earlier row
    [i], and no row in between carries the parent's hash, then a lane awaits
    the parent when its row starts: the parent is not drawn as a new tip, and
    its column is a lane that was awaiting it, with that lane's colour. *)
Theorem child_strand_reaches_parent (commits : list Commit) (i j : nat)
    (c d : Commit) :
  commits !! i = Some c -> commits !! j = Some d -> i < j ->
  hash d ∈ parents c ->
  (forall k e, i < k < j -> commits !! k = Some e -> hash e <> hash d) ->
  let st := stateAfter initState (take j commits) in
  let r := (processCommit st d).2 in
  computeGraphLayout commits !! j = Some r /\
  findAllLanes (hash d) (lanes st) <> [] /\
  lanes st !! commitCol r = Some (Some (mkLane (hash d) (commitColor r))).
Proof.
  intros Hc Hd Hij Hp Hbetween st r.
  assert (Hawait : forall n, i < n <= j ->
            exists m e, lanes (stateAfter initState (take n commits)) !! m
                        = Some (Some e) /\ lane_hash e = hash d).
  { intros n [Hlo Hhi]. induction n as [|n IH]; [lia|].
    destruct (decide (n = i)) as [->|Hne].
    - rewrite (stateAfter_take_S _ _ _ _ Hc).
      pose proof (parents_awaited_core (stateAfter initState (take i commits)) c) as Hf.
      rewrite Forall_forall in Hf. by apply Hf.
    - destruct IH as (m & e & Hm & He); [lia..|].
      assert (Hn : is_Some (commits !! n)).
      { apply lookup_lt_is_Some. apply lookup_lt_Some in Hd. lia. }
      destruct Hn as (x & Hx). rewrite (stateAfter_take_S _ _ _ _ Hx).
      exists m, e. split; [|done].
      apply (proj1 (row_retires_and_adds_core _ x)); [done|].
      rewrite He. intros Heq. apply (Hbetween n x); [lia|done..]. }
  destruct (Hawait j) as (m & e & Hm & He); [lia|]. fold st in Hm.
  split; [by apply layoutFrom_lookup_Some|]. split.
  - intros Hnil. by destruct (findAllLanes_nil _ _ Hnil m e Hm).
  - subst r. rewrite processCommit_row, row_commitCol.
    by destruct (layoutRow_matched st d m e Hm He) as (_ & _ & _ & ?).
Qed.

Lemma child_strand_reaches_parent_witness :
  let st := stateAfter initState (take 5 scenario4) in
  let r := (processCommit st (mkCommit "d6" ["d7"])).2 in
  computeGraphLayout scenario4 !! 5 = Some r /\
  findAllLanes "d6" (lanes st) <> [] /\
  lanes st !! commitCol r = Some (Some (mkLane "d6" (commitColor r))).
Proof.
  apply (child_strand_reaches_parent scenario4 1 5
           (mkCommit "d2" ["d6"; "d3"; "d4"; "d5"]) (mkCommit "d6" ["d7"]));
    [reflexivity|reflexivity|lia|by left|].
  intros k e [Hlo Hhi] Hk.
  do 5 (destruct k as [|k]; [try lia; injection Hk as <-; discriminate|]). lia.
Defined.

(** ** Linear histories *)

Lemma linear_row (col : string) (c : Commit) (idx : nat) :
  length (parents c) <= 1 ->
  let st := mkState [Some (mkLane (hash c) col)] idx in
  (processCommit st c).2
  = mkRow (hash c) 0 col
      [mkSeg 0 0 col (if bool_decide (parents c = []) then Some HalfTop else None)] 1 /\
  (processCommit st c).1
  = mkState (match parents c with [] => [None] | p :: _ => [Some (mkLane p col)] end) idx.
Proof.
  intros Hlen st. unfold processCommit, layoutRow, selectColumn, findAllLanes.
  cbn [lanes st findAllFrom awaits lane_hash].
  rewrite bool_decide_eq_true_2 by done.
  destruct (parents c) as [|p [|q more]] eqn:Hp; [| |simpl in Hlen; lia]; split;
    reflexivity.
Qed.

Lemma linear_first_row (c : Commit) :
  length (parents c) <= 1 ->
  (processCommit initState c).2
  = mkRow (hash c) 0 "#F5A623"
      [mkSeg 0 0 "#F5A623" (if bool_decide (parents c = []) then None
                            else Some HalfBottom)] 1 /\
  (processCommit initState c).1
  = mkState (match parents c with
             | [] => [None]
             | p :: _ => [Some (mkLane p "#F5A623")]
             end) 1.
Proof.
  intros Hlen. unfold processCommit, layoutRow, selectColumn, findAllLanes.
  destruct (parents c) as [|p [|q more]] eqn:Hp; [| |simpl in Hlen; lia]; split;
    reflexivity.
Qed.

Lemma linearChain_parents c rest :
  linearChain (c :: rest) -> length (parents c) <= 1.
Proof. destruct rest as [|d rest]; simpl; intros [H _]; [done|]. rewrite H. simpl. lia. Qed.

Lemma linearChain_rest col idx c rest :
  linearChain (c :: rest) ->
  Forall (fun r => commitCol r = 0 /\ numCols r = 1 /\ commitColor r = col /\
                   exists h, segments r = [mkSeg 0 0 col h])
         (layoutFrom (mkState [Some (mkLane (hash c) col)] idx) (c :: rest)).
Proof.
  revert c. induction rest as [|d rest IH]; intros c Hch.
  - rewrite layoutFrom_cons.
    destruct (linear_row col c idx (linearChain_parents _ _ Hch)) as [-> _].
    constructor; [|constructor]. simpl. eauto.
  - rewrite layoutFrom_cons.
    destruct (linear_row col c idx (linearChain_parents _ _ Hch)) as [-> ->].
    constructor; [simpl; eauto|].
    destruct Hch as [Hp Hrest]. rewrite Hp. by apply IH.
Qed.

(** In a history that is a single line of descent, every row has its commit
    in column 0 with the first palette colour, one column, and a single
    vertical segment in that column. *)
Theorem linear_history_single_column (commits : list Commit) :
  linearChain commits ->
  Forall (fun r => commitCol r = 0 /\ numCols r = 1 /\ commitColor r = "#F5A623" /\
                   exists h, segments r = [mkSeg 0 0 "#F5A623" h])
         (computeGraphLayout commits).
Proof.
  destruct commits as [|c rest]; [constructor|]. intros Hch.
  unfold computeGraphLayout. rewrite layoutFrom_cons.
  destruct (linear_first_row c (linearChain_parents _ _ Hch)) as [-> ->].
  constructor; [simpl; eauto|].
  destruct rest as [|d rest]; [constructor|].
  destruct Hch as [Hp Hrest]. rewrite Hp. by apply linearChain_rest.
Qed.

Lemma linear_history_single_column_witness :
  Forall (fun r => commitCol r = 0 /\ numCols r = 1 /\ commitColor r = "#F5A623" /\
                   exists h, segments r = [mkSeg 0 0 "#F5A623" h])
         (computeGraphLayout linearHistory).
Proof.
  apply linear_history_single_column. simpl. repeat split; lia.
Defined.

(** * Further properties of the tile cache and the renderer *)

(** ** The digest *)

Lemma toInt32_range z : (- 2 ^ 31 <= toInt32 z < 2 ^ 31)%Z.
Proof.
  unfold toInt32. pose proof (Z.mod_pos_bound (z + 2 ^ 31) (2 ^ 32)) as H. lia.
Qed.

Lemma toInt32_eq z : exists k, (toInt32 z = z + k * 2 ^ 32)%Z.
Proof.
  unfold toInt32. exists (- ((z + 2 ^ 31) / 2 ^ 32))%Z.
  pose proof (Z.div_mod (z + 2 ^ 31) (2 ^ 32)). lia.
Qed.

Lemma hashStep_mod h c :
  (hashStep h c mod 2 ^ 32 = (31 * h + Z.of_nat (nat_of_ascii c)) mod 2 ^ 32)%Z.
Proof.
  unfold hashStep.
  destruct (toInt32_eq (Z.shiftl h 5)) as (k1 & ->).
  destruct (toInt32_eq (Z.shiftl h 5 + k1 * 2 ^ 32 - h + Z.of_nat (nat_of_ascii c)))
    as (k2 & ->).
  rewrite Z.shiftl_mul_pow2 by lia.
  replace (h * 2 ^ 5 + k1 * 2 ^ 32 - h + Z.of_nat (nat_of_ascii c) + k2 * 2 ^ 32)%Z
    with (31 * h + Z.of_nat (nat_of_ascii c) + (k1 + k2) * 2 ^ 32)%Z by lia.
  apply Z_mod_plus_full.
Qed.

Lemma polyHash_mod h1 h2 s :
  (h1 mod 2 ^ 32 = h2 mod 2 ^ 32 ->
   polyHash h1 s mod 2 ^ 32 = polyHash h2 s mod 2 ^ 32)%Z.
Proof.
  revert h1 h2. induction s as [|c s IH]; intros h1 h2 H; simpl; [done|].
  apply IH.
  rewrite (Zplus_mod (31 * h1)), (Zplus_mod (31 * h2)).
  rewrite (Zmult_mod 31 h1), (Zmult_mod 31 h2). by rewrite H.
Qed.

Lemma hashString_poly h s :
  (hashString h s mod 2 ^ 32 = polyHash h s mod 2 ^ 32)%Z.
Proof.
  revert h. induction s as [|c s IH]; intros h; simpl; [done|].
  rewrite IH. apply polyHash_mod, hashStep_mod.
Qed.

Lemma hashString_range h s :
  (- 2 ^ 31 <= h < 2 ^ 31 -> - 2 ^ 31 <= hashString h s < 2 ^ 31)%Z.
Proof.
  revert h. induction s as [|c s IH]; intros h Hh; simpl; [done|].
  apply IH. unfold hashStep. apply toInt32_range.
Qed.

(** The rolling hash of [buildKey] is the polynomial hash with multiplier
    31 of the key text, taken modulo 2^32; the running value never leaves
    the signed 32-bit range. *)
Theorem digest_is_polynomial_hash (s : string) :
  toUint32 (hashString 0 s) = (polyHash 0 s mod 2 ^ 32)%Z /\
  (- 2 ^ 31 <= hashString 0 s < 2 ^ 31)%Z /\
  (0 <= toUint32 (hashString 0 s) < 2 ^ 32)%Z.
Proof.
  split; [apply hashString_poly|]. split; [apply hashString_range; lia|].
  unfold toUint32. apply Z.mod_pos_bound. lia.
Qed.

(** ** The base-36 suffix *)

Lemma digitValue_digit36 d : (0 <= d < 36)%Z -> digitValue (digit36 d) = d.
Proof.
  intros Hd. assert (Hn : exists n, d = Z.of_nat n /\ n < 36).
  { exists (Z.to_nat d). lia. }
  destruct Hn as (n & -> & Hn). unfold digit36. rewrite Nat2Z.id.
  do 36 (destruct n as [|n]; [reflexivity|]). lia.
Qed.

Lemma value36_app a s1 s2 :
  value36 a (s1 +:+ s2) = value36 (value36 a s1) s2.
Proof. revert a. induction s1 as [|c s1 IH]; intros a; simpl; [done|]. apply IH. Qed.

Lemma str_app_assoc (s1 s2 s3 : string) :
  (s1 +:+ s2) +:+ s3 = s1 +:+ (s2 +:+ s3).
Proof. induction s1 as [|c s1 IH]; [done|]. exact (f_equal (String c) IH). Qed.

Lemma str_app_nil_r (s : string) : s +:+ EmptyString = s.
Proof. induction s as [|c s IH]; [done|]. exact (f_equal (String c) IH). Qed.

Lemma str_length_app (s1 s2 : string) :
  String.length (s1 +:+ s2) = String.length s1 + String.length s2.
Proof. induction s1 as [|c s1 IH]; [done|]. exact (f_equal S IH). Qed.

Lemma toBase36_digits fuel n acc :
  (0 <= n < 36 ^ Z.of_nat fuel)%Z -> 0 < fuel ->
  exists ds, toBase36 fuel n acc = ds +:+ acc /\
             1 <= String.length ds <= fuel /\
             forall a, value36 a ds = (a * 36 ^ Z.of_nat (String.length ds) + n)%Z.
Proof.
  revert n acc. induction fuel as [|fuel IH]; intros n acc Hn Hf; [lia|].
  cbn [toBase36].
  assert (Hdig : (0 <= n mod 36 < 36)%Z) by (apply Z.mod_pos_bound; lia).
  destruct (n / 36 =? 0)%Z eqn:E.
  - apply Z.eqb_eq in E. exists (String (digit36 (n mod 36)) EmptyString).
    split; [done|]. split; [simpl; lia|]. intros a. simpl.
    rewrite digitValue_digit36 by done.
    pose proof (Z.div_mod n 36). lia.
  - apply Z.eqb_neq in E.
    assert (Hq : (0 <= n / 36 < 36 ^ Z.of_nat fuel)%Z).
    { split; [apply Z.div_pos; lia|].
      apply Z.div_lt_upper_bound; [lia|].
      rewrite Nat2Z.inj_succ, Z.pow_succ_r in Hn by lia. lia. }
    assert (Hfuel : 0 < fuel).
    { destruct fuel; [|lia]. simpl in Hq. lia. }
    destruct (IH (n / 36)%Z (String (digit36 (n mod 36)) acc) Hq Hfuel)
      as (ds & Hds & Hlen & Hval).
    exists (ds +:+ String (digit36 (n mod 36)) EmptyString).
    assert (Hlen' : String.length (ds +:+ String (digit36 (n mod 36)) EmptyString)
                    = S (String.length ds)).
    { rewrite str_length_app. simpl. lia. }
    split; [|split; [lia|]].
    + rewrite Hds. by rewrite str_app_assoc.
    + intros a. rewrite value36_app, Hval, Hlen'. simpl.
      rewrite digitValue_digit36 by done.
      rewrite Nat2Z.inj_succ, Z.pow_succ_r by lia.
      pose proof (Z.div_mod n 36). lia.
Qed.

Lemma key_suffix_reads_back_core (z : Z) :
  value36 0 (toString36 (toUint32 z)) = (z mod 2 ^ 32)%Z /\
  1 <= String.length (toString36 (toUint32 z)) <= 7.
Proof.
  unfold toString36, toUint32.
  assert (Hr : (0 <= z mod 2 ^ 32 < 36 ^ Z.of_nat 7)%Z).
  { pose proof (Z.mod_pos_bound z (2 ^ 32)). simpl. lia. }
  destruct (toBase36_digits 7 (z mod 2 ^ 32)%Z EmptyString Hr) as (ds & Hds & Hlen & Hval);
    [lia|].
  rewrite Hds, str_app_nil_r, Hval. split; [lia|done].
Qed.

(** The base-36 text of an unsigned 32-bit number has between one and
    seven digits and reads back as the number: the suffix of a tile key
    determines the digest, so different digests never share a file name. *)
Theorem key_suffix_reads_back (z : Z) :
  value36 0 (toString36 (toUint32 z)) = (z mod 2 ^ 32)%Z /\
  1 <= String.length (toString36 (toUint32 z)) <= 7.
Proof. exact (key_suffix_reads_back_core z). Qed.

(** A key is its digest: two rows get the same tile key exactly when their
    key texts have the same digest modulo 2^32. *)
Theorem buildKey_eq_iff_digest (showNum : float -> string) (r1 r2 : GraphRow)
    (h1 h2 : float) (c1 c2 : nat) :
  buildKey showNum r1 h1 c1 = buildKey showNum r2 h2 c2 <->
  toUint32 (hashString 0 (keyText showNum r1 h1 c1))
  = toUint32 (hashString 0 (keyText showNum r2 h2 c2)).
Proof.
  unfold buildKey. split.
  - intros H. apply (inj (String.append "tile_")) in H.
    pose proof (key_suffix_reads_back_core (hashString 0 (keyText showNum r1 h1 c1))) as [E1 _].
    pose proof (key_suffix_reads_back_core (hashString 0 (keyText showNum r2 h2 c2))) as [E2 _].
    unfold toUint32 in *. rewrite <- E1, <- E2. by rewrite H.
  - by intros ->.
Qed.

(** ** The cache, call after call *)

Section TileCacheMore.
Variable showNum : float -> string.
Variable path_join : string -> string -> string.
Hypothesis path_join_nonempty : forall a b, path_join a b <> "".

Lemma reachable_tracks c :
  reachable showNum path_join c -> cacheTracksFiles path_join c.
Proof.
  induction 1 as [dir existing|c row rh mc Hr IH|c Hr IH]; intros k p Hk.
  - simpl in Hk. by rewrite lookup_empty in Hk.
  - unfold getTilePath in Hk |- *.
    set (key := buildKey showNum row (default ROW_HEIGHT rh) (default (numCols row) mc)) in *.
    set (fp := path_join (cacheDir c) (key +:+ ".svg")) in *.
    assert (Hmiss : <[key := fp]> (cache c) !! k = Some p ->
              p = path_join (cacheDir c) (k +:+ ".svg") /\
              is_Some (<[fp := renderSvg showNum row (Some (default ROW_HEIGHT rh))
                                         (Some (default (numCols row) mc))]>
                         (files c) !! p)).
    { intros Hl. destruct (decide (key = k)) as [<-|Hne].
      - rewrite lookup_insert_eq in Hl. injection Hl as <-.
        split; [done|]. rewrite lookup_insert_eq. eauto.
      - rewrite lookup_insert_ne in Hl by done.
        destruct (IH k p Hl) as [-> Hf]. split; [done|].
        destruct (decide (fp = path_join (cacheDir c) (k +:+ ".svg"))) as [<-|Hnp].
        + rewrite lookup_insert_eq. eauto.
        + by rewrite lookup_insert_ne. }
    destruct (cache c !! key) as [cached|] eqn:E.
    + case_bool_decide; simpl in Hk |- *; [by apply Hmiss|by apply IH].
    + simpl in Hk |- *. by apply Hmiss.
  - simpl in Hk. by rewrite lookup_empty in Hk.
Qed.

(** What a call does, in a cache built by the constructor, [getTilePath]
    and [clear]: the path returned is always the file named after the key;
    if the key is cached nothing changes, otherwise exactly one rendering
    is logged, the file is written and the key recorded. *)
Lemma getTilePath_cases c row rowHeight maxCols :
  reachable showNum path_join c ->
  let h := default ROW_HEIGHT rowHeight in
  let cols := default (numCols row) maxCols in
  let key := buildKey showNum row h cols in
  let path := path_join (cacheDir c) (key +:+ ".svg") in
  (cache c !! key = Some path /\
   getTilePath showNum path_join c row rowHeight maxCols = (path, c)) \/
  (cache c !! key = None /\
   getTilePath showNum path_join c row rowHeight maxCols
   = (path, mkCache (cacheDir c) (<[key := path]> (cache c))
              (<[path := renderSvg showNum row (Some h) (Some cols)]> (files c))
              (rendered c ++ [mkCall row h cols]))).
Proof.
  intros Hr h cols key path. unfold getTilePath. fold h cols key path.
  destruct (cache c !! key) as [cached|] eqn:E; [left|right; by split].
  destruct (reachable_tracks c Hr key cached E) as [-> _]. fold path.
  split; [done|]. rewrite bool_decide_eq_false_2; [done|apply path_join_nonempty].
Qed.

Lemma getTilePath_idempotent_core (c : SvgTileCache) (row : GraphRow)
    (rowHeight : option float) (maxCols : option nat) :
  reachable showNum path_join c ->
  let '(p, c1) := getTilePath showNum path_join c row rowHeight maxCols in
  getTilePath showNum path_join c1 row rowHeight maxCols = (p, c1) /\
  is_Some (files c1 !! p) /\
  p = path_join (cacheDir c)
        (buildKey showNum row (default ROW_HEIGHT rowHeight)
                  (default (numCols row) maxCols) +:+ ".svg").
Proof.
  intros Hr.
  pose proof (reach_get showNum path_join c row rowHeight maxCols Hr) as Hr1.
  destruct (getTilePath_cases c row rowHeight maxCols Hr) as [[Hc Hg]|[Hc Hg]];
    rewrite Hg in Hr1 |- *; cbn [snd] in Hr1.
  - split; [done|]. split; [|done].
    by destruct (reachable_tracks c Hr _ _ Hc) as [_ ?].
  - set (c1 := mkCache _ _ _ _) in *.
    destruct (getTilePath_cases c1 row rowHeight maxCols Hr1) as [[Hc1 Hg1]|[Hc1 Hg1]].
    + split; [exact Hg1|]. split; [|done]. unfold c1. cbn [files].
      rewrite lookup_insert_eq. eauto.
    + unfold c1 in Hc1. cbn [cache] in Hc1. by rewrite lookup_insert_eq in Hc1.
Qed.

(** Asking twice for the same tile gives the same path, and the second
    call changes nothing: no rendering, no file written. *)
Theorem getTilePath_idempotent (c : SvgTileCache) (row : GraphRow)
    (rowHeight : option float) (maxCols : option nat) :
  reachable showNum path_join c ->
  let '(p, c1) := getTilePath showNum path_join c row rowHeight maxCols in
  getTilePath showNum path_join c1 row rowHeight maxCols = (p, c1) /\
  is_Some (files c1 !! p) /\
  p = path_join (cacheDir c)
        (buildKey showNum row (default ROW_HEIGHT rowHeight)
                  (default (numCols row) maxCols) +:+ ".svg").
Proof. exact (getTilePath_idempotent_core c row rowHeight maxCols). Qed.

End TileCacheMore.


Lemma getTilePath_idempotent_witness :
  let c := newCache pathJoinSample "/store" ∅ in
  let '(p, c1) := getTilePath showNumSample pathJoinSample c sampleRow None (Some 3) in
  getTilePath showNumSample pathJoinSample c1 sampleRow None (Some 3) = (p, c1) /\
  is_Some (files c1 !! p) /\
  p = pathJoinSample (cacheDir c)
        (buildKey showNumSample sampleRow (default ROW_HEIGHT None)
                  (default (numCols sampleRow) (Some 3)) +:+ ".svg").
Proof.
  exact (getTilePath_idempotent showNumSample pathJoinSample pathJoinSample_nonempty
           (newCache pathJoinSample "/store" ∅) sampleRow None (Some 3)
           (reach_new showNumSample pathJoinSample "/store" ∅)).
Defined.

Section TileCacheContents.
Variable showNum : float -> string.
Variable path_join : string -> string -> string.
Hypothesis path_join_nonempty : forall a b, path_join a b <> "".
(** Different tile names are different files of the cache directory. *)
Hypothesis tile_names_distinct : forall dir n m,
  path_join dir (("tile_" +:+ toString36 n) +:+ ".svg")
  = path_join dir (("tile_" +:+ toString36 m) +:+ ".svg") ->
  toString36 n = toString36 m.

Lemma reachable_holds c :
  reachable showNum path_join c -> cacheHoldsRenderings showNum c.
Proof.
  induction 1 as [dir existing|c row rh mc Hr IH|c Hr IH]; intros k p Hk.
  - simpl in Hk. by rewrite lookup_empty in Hk.
  - destruct (getTilePath_cases showNum path_join path_join_nonempty c row rh mc Hr)
      as [[Hc Hg]|[Hc Hg]]; rewrite Hg in Hk |- *; cbn [snd] in Hk |- *;
      [by apply IH|].
    set (h := default ROW_HEIGHT rh) in *. set (cols := default (numCols row) mc) in *.
    set (key := buildKey showNum row h cols) in *.
    cbn [cache files rendered] in Hk |- *.
    destruct (decide (key = k)) as [<-|Hne].
    + rewrite lookup_insert_eq in Hk. injection Hk as <-.
      exists (mkCall row h cols). split; [|split; [done|]].
      * apply elem_of_app. right. by apply list_elem_of_singleton.
      * cbn [call_row call_rowHeight call_cols]. by rewrite lookup_insert_eq.
    + rewrite lookup_insert_ne in Hk by done.
      destruct (IH k p Hk) as (call & Hin & Hkey & Hfile).
      exists call. split; [apply elem_of_app; by left|]. split; [done|].
      destruct (reachable_tracks showNum path_join c Hr k p Hk) as [Hp _].
      rewrite lookup_insert_ne; [done|]. intros Heq. apply Hne.
      rewrite Hp in Heq. rewrite <- Hkey in Heq |- *. unfold key in *.
      unfold buildKey in Heq |- *. apply tile_names_distinct in Heq.
      by rewrite Heq.
  - simpl in Hk. by rewrite lookup_empty in Hk.
Qed.

(** A hit serves a real tile: whatever path [getTilePath] returns names a
    file that holds the rendering of a row that this cache rendered, now or
    earlier, under the very key of the row asked for.  (It is the rendering
    of the row asked for unless two different rows share a digest.) *)
Theorem getTilePath_serves_rendering (c : SvgTileCache) (row : GraphRow)
    (rowHeight : option float) (maxCols : option nat) :
  reachable showNum path_join c ->
  let '(p, c1) := getTilePath showNum path_join c row rowHeight maxCols in
  exists call, call ∈ rendered c1 /\
    buildKey showNum (call_row call) (call_rowHeight call) (call_cols call)
    = buildKey showNum row (default ROW_HEIGHT rowHeight) (default (numCols row) maxCols) /\
    files c1 !! p
    = Some (renderSvg showNum (call_row call) (Some (call_rowHeight call))
                      (Some (call_cols call))).
Proof.
  intros Hr.
  pose proof (reach_get showNum path_join c row rowHeight maxCols Hr) as Hr1.
  destruct (getTilePath showNum path_join c row rowHeight maxCols) as [p c1] eqn:Hg.
  cbn [snd] in Hr1.
  pose proof (getTilePath_idempotent_core showNum path_join path_join_nonempty c row
                rowHeight maxCols Hr) as Hid.
  rewrite Hg in Hid. destruct Hid as (Hg1 & _ & _).
  destruct (getTilePath_cases showNum path_join path_join_nonempty c1 row
              rowHeight maxCols Hr1) as [[Hc Hg2]|[_ Hg2]].
  - rewrite Hg1 in Hg2. injection Hg2 as ->.
    by apply (reachable_holds c1 Hr1).
  - rewrite Hg1 in Hg2. injection Hg2 as _ Hbad.
    exfalso. apply (f_equal rendered) in Hbad. cbn [rendered] in Hbad.
    apply (f_equal length) in Hbad. rewrite length_app in Hbad. simpl in Hbad. lia.
Qed.

End TileCacheContents.


Lemma str_app_inv_tail (s1 s2 t : string) : s1 +:+ t = s2 +:+ t -> s1 = s2.
Proof.
  revert s2. induction s1 as [|c s1 IH]; intros [|c' s2] H.
  - done.
  - apply (f_equal String.length) in H.
    change (String.length t = S (String.length (s2 +:+ t))) in H.
    rewrite str_length_app in H. lia.
  - apply (f_equal String.length) in H.
    change (S (String.length (s1 +:+ t)) = String.length t) in H.
    rewrite str_length_app in H. lia.
  - change (String c (s1 +:+ t) = String c' (s2 +:+ t)) in H.
    injection H as -> H. f_equal. by apply IH.
Qed.

Lemma pathJoinSample_distinct dir n m :
  pathJoinSample dir (("tile_" +:+ toString36 n) +:+ ".svg")
  = pathJoinSample dir (("tile_" +:+ toString36 m) +:+ ".svg") ->
  toString36 n = toString36 m.
Proof.
  unfold pathJoinSample. intros H.
  apply (inj (String.append dir)) in H. apply (inj (String.append "/")) in H.
  apply str_app_inv_tail in H. by apply (inj (String.append "tile_")) in H.
Qed.

Lemma getTilePath_serves_rendering_witness :
  let c := newCache pathJoinSample "/store" ∅ in
  let '(p, c1) := getTilePath showNumSample pathJoinSample c sampleRow None (Some 3) in
  exists call, call ∈ rendered c1 /\
    buildKey showNumSample (call_row call) (call_rowHeight call) (call_cols call)
    = buildKey showNumSample sampleRow (default ROW_HEIGHT None)
               (default (numCols sampleRow) (Some 3)) /\
    files c1 !! p
    = Some (renderSvg showNumSample (call_row call) (Some (call_rowHeight call))
                      (Some (call_cols call))).
Proof.
  exact (getTilePath_serves_rendering showNumSample pathJoinSample
           pathJoinSample_nonempty pathJoinSample_distinct
           (newCache pathJoinSample "/store" ∅) sampleRow None (Some 3)
           (reach_new showNumSample pathJoinSample "/store" ∅)).
Defined.

(** ** The tile loop of a decoration pass *)

Section TileLoop.
Variable showNum : float -> string.
Variable path_join : string -> string -> string.
Hypothesis path_join_nonempty : forall a b, path_join a b <> "".

Lemma getTilePath_keeps c row rowHeight maxCols :
  reachable showNum path_join c ->
  let c1 := (getTilePath showNum path_join c row rowHeight maxCols).2 in
  cacheDir c1 = cacheDir c /\
  (forall k p, cache c !! k = Some p -> cache c1 !! k = Some p) /\
  (forall p, is_Some (files c !! p) -> is_Some (files c1 !! p)) /\
  length (rendered c1) <= S (length (rendered c)).
Proof.
  intros Hr c1. subst c1.
  destruct (getTilePath_cases showNum path_join path_join_nonempty c row
              rowHeight maxCols Hr) as [[Hc ->]|[Hc ->]]; cbn [snd].
  - repeat split; auto.
  - cbn [cacheDir cache files rendered]. split; [done|]. split; [|split].
    + intros k p Hk. rewrite lookup_insert_ne; [done|]. congruence.
    + intros p Hp. rewrite lookup_insert. case_decide; [eauto|done].
    + rewrite length_app. simpl. lia.
Qed.

Lemma tileLoop_spec c rows h cols :
  reachable showNum path_join c ->
  let '(ps, c') := tileLoop showNum path_join c rows h cols in
  reachable showNum path_join c' /\ cacheDir c' = cacheDir c /\
  (forall k p, cache c !! k = Some p -> cache c' !! k = Some p) /\
  (forall p, is_Some (files c !! p) -> is_Some (files c' !! p)) /\
  length (rendered c') <= length (rendered c) + length rows /\
  length ps = length rows /\
  forall i row, rows !! i = Some row ->
    let path := path_join (cacheDir c) (buildKey showNum row h cols +:+ ".svg") in
    ps !! i = Some path /\
    cache c' !! buildKey showNum row h cols = Some path /\
    is_Some (files c' !! path).
Proof.
  revert c. induction rows as [|row rows IH]; intros c Hr; cbn [tileLoop].
  { split; [done|]. split; [done|]. split; [auto|]. split; [auto|].
    split; [simpl; lia|]. split; [done|]. intros i row Hrow.
    by rewrite lookup_nil in Hrow. }
  pose proof (reach_get showNum path_join c row (Some h) (Some cols) Hr) as Hr1.
  pose proof (getTilePath_keeps c row (Some h) (Some cols) Hr) as (Hd1 & Hk1 & Hf1 & Hn1).
  pose proof (getTilePath_idempotent_core showNum path_join path_join_nonempty c row
                (Some h) (Some cols) Hr) as Hid.
  destruct (getTilePath showNum path_join c row (Some h) (Some cols)) as [p c1] eqn:Hg.
  cbn [snd] in Hr1, Hd1, Hk1, Hf1, Hn1. destruct Hid as (Hg1 & Hfile & Hp).
  cbn [default] in Hp. unfold id in Hp.
  assert (Hcached : cache c1 !! buildKey showNum row h cols = Some p).
  { destruct (getTilePath_cases showNum path_join path_join_nonempty c1 row
                (Some h) (Some cols) Hr1) as [[Hc Hg2]|[_ Hg2]];
      cbn [default] in *; unfold id in *.
    - rewrite Hg1 in Hg2. by injection Hg2 as ->.
    - rewrite Hg1 in Hg2. injection Hg2 as _ Hbad.
      apply (f_equal rendered) in Hbad. cbn [rendered] in Hbad.
      apply (f_equal length) in Hbad. rewrite length_app in Hbad. simpl in Hbad. lia. }
  specialize (IH c1 Hr1).
  destruct (tileLoop showNum path_join c1 rows h cols) as [ps c2].
  destruct IH as (Hr2 & Hd2 & Hk2 & Hf2 & Hn2 & Hlen & Hrows).
  split; [done|]. split; [congruence|]. split; [auto|]. split; [auto|].
  split; [simpl; lia|]. split; [simpl; lia|].
  intros [|i] row' Hrow; simpl in Hrow.
  - injection Hrow as <-. cbv zeta. rewrite <- Hp. split; [done|]. split; auto.
  - destruct (Hrows i row' Hrow) as (H1 & H2 & H3). rewrite Hd1 in H1, H2, H3.
    cbv zeta. by repeat split.
Qed.

Lemma Math_max_1_ge (args : list nat) :
  1 <= Math_max_1 args /\ Forall (fun a => a <= Math_max_1 args) args.
Proof.
  unfold Math_max_1. induction args as [|a args [IH1 IH2]]; cbn [fold_right].
  - split; [lia|apply Forall_nil_2].
  - split; [lia|]. apply Forall_cons_2; [lia|].
    eapply Forall_impl; [exact IH2|]. intros x Hx. cbv beta in Hx |- *. lia.
Qed.

(** One decoration pass.  When the rows are too many for the spread call
    that computes the shared column count, the pass throws before it asks
    for any tile.  Otherwise the shared column count is at least 1 and at
    least the column count of every row, and the pass asks for a tile per
    row shown (the first [min(rows.length, commits.length)] rows): when it
    is done every such row has its tile cached under its key and on disk,
    at the path named after the key, so rows that agree on the key fields
    share one file; and the pass renders at most once per row. *)
Theorem applyTiles_caches_every_row (callFits : nat -> bool) (c : SvgTileCache)
    (rows : list GraphRow) (nCommits : nat) (lineHeight : float) :
  reachable showNum path_join c ->
  (callFits (length rows + 1) = false ->
   applyTiles callFits showNum path_join c rows nCommits lineHeight = None) /\
  (callFits (length rows + 1) = true ->
   exists cols ps c',
     globalMaxCols callFits rows = Some cols /\
     applyTiles callFits showNum path_join c rows nCommits lineHeight
     = Some (ps, c') /\
     1 <= cols /\ Forall (fun r => numCols r <= cols) rows /\
     length ps = min (length rows) nCommits /\
     length (rendered c') <= length (rendered c) + min (length rows) nCommits /\
     forall i row, i < nCommits -> rows !! i = Some row ->
       let key := buildKey showNum row lineHeight cols in
       let path := path_join (cacheDir c) (key +:+ ".svg") in
       ps !! i = Some path /\ cache c' !! key = Some path /\
       is_Some (files c' !! path)).
Proof.
  intros Hr. unfold applyTiles, globalMaxCols. split; intros ->; [done|].
  set (cols := Math_max_1 (map numCols rows)).
  pose proof (tileLoop_spec c (take (min (length rows) nCommits) rows) lineHeight
                cols Hr) as H.
  destruct (tileLoop showNum path_join c _ lineHeight cols) as [ps c'].
  destruct H as (_ & _ & _ & _ & Hn & Hlen & Hrows).
  rewrite length_take in Hn, Hlen.
  exists cols, ps, c'. split; [done|]. split; [done|].
  destruct (Math_max_1_ge (map numCols rows)) as [H1 Hall]. fold cols in H1, Hall.
  split; [done|]. split.
  { apply Forall_forall. intros r Hin.
    apply (proj1 (Forall_forall _ _) Hall (numCols r)).
    apply list_elem_of_In, in_map, list_elem_of_In, Hin. }
  split; [lia|]. split; [lia|].
  intros i row Hi Hrow. apply Hrows. rewrite lookup_take_lt; [done|].
  apply lookup_lt_Some in Hrow. lia.
Qed.

End TileLoop.

Lemma applyTiles_caches_every_row_witness :
  (callFitsSample (length (computeGraphLayout scenario4) + 1) = false ->
   applyTiles callFitsSample showNumSample pathJoinSample
     (newCache pathJoinSample "/store" ∅) (computeGraphLayout scenario4) 7
     ROW_HEIGHT = None) /\
  (callFitsSample (length (computeGraphLayout scenario4) + 1) = true ->
   exists cols ps c',
     globalMaxCols callFitsSample (computeGraphLayout scenario4) = Some cols /\
     applyTiles callFitsSample showNumSample pathJoinSample
       (newCache pathJoinSample "/store" ∅) (computeGraphLayout scenario4) 7
       ROW_HEIGHT = Some (ps, c') /\
     1 <= cols /\
     Forall (fun r => numCols r <= cols) (computeGraphLayout scenario4) /\
     length ps = min (length (computeGraphLayout scenario4)) 7 /\
     length (rendered c')
     <= length (rendered (newCache pathJoinSample "/store" ∅))
        + min (length (computeGraphLayout scenario4)) 7 /\
     forall i row, i < 7 -> computeGraphLayout scenario4 !! i = Some row ->
       let key := buildKey showNumSample row ROW_HEIGHT cols in
       let path := pathJoinSample (cacheDir (newCache pathJoinSample "/store" ∅))
                     (key +:+ ".svg") in
       ps !! i = Some path /\ cache c' !! key = Some path /\
       is_Some (files c' !! path)).
Proof.
  exact (applyTiles_caches_every_row showNumSample pathJoinSample
           pathJoinSample_nonempty callFitsSample
           (newCache pathJoinSample "/store" ∅)
           (computeGraphLayout scenario4) 7 ROW_HEIGHT
           (reach_new showNumSample pathJoinSample "/store" ∅)).
Defined.

(** * Properties of the git log parser *)

Section StringFacts.
Import GitLog.

Lemma str_app_cons c s t : String c s +:+ t = String c (s +:+ t).
Proof. reflexivity. Qed.

Lemma str_app_nil_l t : "" +:+ t = t.
Proof. reflexivity. Qed.

Lemma splitOn_nonempty sep s : splitOn sep s <> [].
Proof.
  destruct s as [|c s]; cbn [splitOn]; [done|].
  destruct (Ascii.eqb c sep); [done|]. by destruct (splitOn sep s).
Qed.

Lemma splitOn_free sep s : free_of sep s -> splitOn sep s = [s].
Proof.
  unfold free_of. induction s as [|c s IH]; cbn [splitOn includes]; [done|].
  intros H. apply orb_false_iff in H as [Hc Hs].
  rewrite Hc. by rewrite (IH Hs).
Qed.

Lemma splitOn_app sep a b :
  splitOn sep (a +:+ String sep b) = splitOn sep a ++ splitOn sep b.
Proof.
  induction a as [|c a IH].
  - rewrite str_app_nil_l. cbn [splitOn]. by rewrite Ascii.eqb_refl.
  - rewrite str_app_cons. cbn [splitOn]. destruct (Ascii.eqb c sep).
    + by rewrite IH.
    + rewrite IH. pose proof (splitOn_nonempty sep a).
      by destruct (splitOn sep a).
Qed.

Lemma splitOn_app_sep sep a b :
  splitOn sep (a +:+ String sep "" +:+ b) = splitOn sep a ++ splitOn sep b.
Proof. apply splitOn_app. Qed.

Lemma joinWith_cons sep x y rest :
  joinWith sep (x :: y :: rest) = x +:+ sep +:+ joinWith sep (y :: rest).
Proof. reflexivity. Qed.

Lemma join_split sep s : joinWith (String sep "") (splitOn sep s) = s.
Proof.
  induction s as [|c s IH]; cbn [splitOn]; [done|].
  pose proof (splitOn_nonempty sep s) as Hne.
  destruct (Ascii.eqb_spec c sep) as [->|Hc].
  - destruct (splitOn sep s) as [|h t]; [done|].
    rewrite joinWith_cons, IH. reflexivity.
  - destruct (splitOn sep s) as [|h t]; [done|]. destruct t as [|h' t].
    + cbn [joinWith] in *. by rewrite IH.
    + rewrite joinWith_cons in *. rewrite str_app_cons. by rewrite IH.
Qed.

Lemma includes_app c a b :
  includes c (a +:+ b) = includes c a || includes c b.
Proof.
  induction a as [|d a IH]; [done|].
  rewrite str_app_cons. cbn [includes]. rewrite IH. by rewrite orb_assoc.
Qed.

Lemma trimStart_keeps c s :
  isWhite c = false -> includes c s = true ->
  exists d t, trimStart s = String d t /\ isWhite d = false.
Proof.
  intros Hc. induction s as [|d s IH]; cbn [includes trimStart]; [done|].
  intros H. destruct (isWhite d) eqn:Hd.
  - apply IH. destruct (Ascii.eqb_spec d c) as [->|_]; [congruence|done].
  - by exists d, s.
Qed.

Lemma trim_nonblank c s :
  isWhite c = false -> includes c s = true -> trim s <> "".
Proof.
  intros Hc Hs. destruct (trimStart_keeps c s Hc Hs) as (d & t & Ht & Hd).
  unfold trim. rewrite Ht. cbn [trimEnd]. rewrite Hd. by destruct (trimEnd t).
Qed.

Lemma trimEnd_last t p c : trimEnd t = p +:+ String c "" -> isWhite c = false.
Proof.
  revert p. induction t as [|a t IH]; intros p; cbn [trimEnd].
  - by destruct p.
  - destruct (trimEnd t) as [|b u] eqn:Ht.
    + destruct (isWhite a) eqn:Ha; [by destruct p|].
      destruct p as [|a' p]; [by intros [= ->]|].
      rewrite str_app_cons. intros [= _ H]. by destruct p.
    + destruct p as [|a' p]; [done|]. rewrite str_app_cons.
      intros [= _ H]. by apply (IH p).
Qed.

Lemma startsWith_slice s p :
  startsWith s p = true -> s = p +:+ slice (String.length p) s.
Proof.
  revert s. induction p as [|a p IH]; intros s; cbn [startsWith]; [done|].
  destruct s as [|b s]; [done|]. intros H. apply andb_true_iff in H as [Hab Hs].
  apply Ascii.eqb_eq in Hab as ->. rewrite str_app_cons. cbn [String.length slice].
  by rewrite <- (IH s Hs).
Qed.

Lemma includes_slice c n s : includes c (slice n s) = true -> includes c s = true.
Proof.
  revert s. induction n as [|n IH]; intros [|d s]; cbn [slice includes]; try done.
  intros H. rewrite (IH s H). by rewrite orb_true_r.
Qed.

Lemma omap_cons_eq {A B} (f : A -> option B) (x : A) (l : list A) :
  omap f (x :: l) = match f x with Some y => y :: omap f l | None => omap f l end.
Proof. reflexivity. Qed.

Lemma eqb_empty s : String.eqb s "" = true <-> s = "".
Proof. apply String.eqb_eq. Qed.

End StringFacts.

Section RefParser.
Import GitLog.

Lemma refsOfPiece_sound (piece : string) (r : Ref) :
  r ∈ refsOfPiece piece ->
  name r <> "" /\ type r <> stash /\
  (type r = head -> name r = "HEAD") /\
  (type r = remote -> includes "/" (name r) = true).
Proof.
  unfold refsOfPiece. destruct (String.eqb_spec (trim piece) "") as [|Hne].
  { by intros ?%elem_of_nil. }
  destruct (startsWith (trim piece) "HEAD -> ") eqn:Hhead.
  { intros [->|[->|?%elem_of_nil]%elem_of_cons]%elem_of_cons; [by cbn|..|done].
    cbn [name type]. split; [|by repeat split].
    intros Hs. apply startsWith_slice in Hhead. cbn [String.length] in Hhead.
    rewrite Hs in Hhead.
    assert (isWhite " " = false) as Hw; [|done].
    apply (trimEnd_last (trimStart piece) "HEAD ->"). exact Hhead. }
  destruct (String.eqb_spec (trim piece) "HEAD") as [Heq|_].
  { intros [->|?%elem_of_nil]%elem_of_cons; [|done]. cbn [name type].
    by rewrite Heq. }
  destruct (startsWith (trim piece) "tag: ") eqn:Htag.
  { intros [->|?%elem_of_nil]%elem_of_cons; [|done]. cbn [name type].
    split; [|by repeat split].
    intros Hs. apply startsWith_slice in Htag. cbn [String.length] in Htag.
    rewrite Hs in Htag.
    assert (isWhite " " = false) as Hw; [|done].
    apply (trimEnd_last (trimStart piece) "tag:"). exact Htag. }
  destruct (includes "/" (trim piece)) eqn:Hsl;
    intros [->|?%elem_of_nil]%elem_of_cons; try done; cbn [name type];
    by repeat split.
Qed.

(** The refs of a decoration: every ref has a name; the type [stash] is
    never produced; a [head] ref is called HEAD; a [remote] ref has a slash
    in its name. *)
Theorem parseRefs_sound (raw : string) (r : Ref) :
  r ∈ parseRefs raw ->
  name r <> "" /\ type r <> stash /\
  (type r = head -> name r = "HEAD") /\
  (type r = remote -> includes "/" (name r) = true).
Proof.
  unfold parseRefs. destruct (String.eqb (trim raw) ""); [by intros ?%elem_of_nil|].
  intros Hr. apply list_elem_of_In, in_flat_map in Hr as (piece & _ & Hr).
  apply list_elem_of_In in Hr. by apply (refsOfPiece_sound piece).
Qed.

Lemma parseRefs_flat (raw : string) :
  parseRefs raw = flat_map refsOfPiece (splitOn "," raw).
Proof.
  unfold parseRefs. destruct (String.eqb_spec (trim raw) "") as [Hb|]; [|done].
  assert (free_of "," raw) as Hfree.
  { unfold free_of. destruct (includes "," raw) eqn:Hc; [|done].
    by destruct (trim_nonblank "," raw eq_refl Hc). }
  rewrite (splitOn_free _ _ Hfree). cbn [flat_map]. unfold refsOfPiece.
  by rewrite Hb.
Qed.

(** The refs of a decoration are the refs of its comma-separated pieces, in
    order: parsing distributes over the comma, and the early return for a
    blank decoration changes nothing. *)
Theorem parseRefs_distributes (a b : string) :
  parseRefs (a +:+ String "," b) = parseRefs a ++ parseRefs b.
Proof.
  rewrite !parseRefs_flat, splitOn_app. apply flat_map_app.
Qed.

End RefParser.

Section LogParser.
Import GitLog.
Variable parseInt : string -> option Z.

Lemma format_split (f : LogFields) :
  plainFields f ->
  splitOn "|" (GIT_LOG_FORMAT f)
  = [f_H f; f_P f; f_an f; f_ae f; f_at f] ++ splitOn "|" (f_s f) ++ [f_D f].
Proof.
  intros (HH & HP & Han & Hae & Hat & HD). unfold GIT_LOG_FORMAT.
  rewrite !joinWith_cons. cbn [joinWith].
  rewrite !splitOn_app_sep.
  by rewrite (splitOn_free _ _ HH), (splitOn_free _ _ HP), (splitOn_free _ _ Han),
    (splitOn_free _ _ Hae), (splitOn_free _ _ Hat), (splitOn_free _ _ HD).
Qed.

Lemma parseLine_format (f : LogFields) :
  plainFields f ->
  parseLine parseInt (GIT_LOG_FORMAT f) = Some (commitOf parseInt f).
Proof.
  intros Hf. unfold parseLine.
  assert (trim (GIT_LOG_FORMAT f) <> "") as Hnb.
  { apply (trim_nonblank "|"); [done|]. unfold GIT_LOG_FORMAT.
    rewrite joinWith_cons, !includes_app. cbn [includes]. rewrite Ascii.eqb_refl.
    by rewrite orb_true_r. }
  apply String.eqb_neq in Hnb. rewrite Hnb.
  rewrite (format_split f Hf).
  pose proof (join_split "|" (f_s f)) as Hjoin.
  pose proof (splitOn_nonempty "|" (f_s f)) as Hne.
  destruct (splitOn "|" (f_s f)) as [|s0 [|s1 rest]]; [done|..].
  - cbn [joinWith] in Hjoin. subst s0. reflexivity.
  - assert (length (s0 :: s1 :: rest) = 2 + length rest) as Hlen by done.
    revert Hjoin Hlen. generalize (s0 :: s1 :: rest). intros l Hjoin Hlen.
    set (parts := [f_H f; f_P f; f_an f; f_ae f; f_at f] ++ l ++ [f_D f]).
    assert (parts !! 0 = Some (f_H f)) as H0 by reflexivity.
    assert (parts !! 1 = Some (f_P f)) as H1 by reflexivity.
    assert (parts !! 2 = Some (f_an f)) as H2 by reflexivity.
    assert (parts !! 3 = Some (f_ae f)) as H3 by reflexivity.
    assert (parts !! 4 = Some (f_at f)) as H4 by reflexivity.
    assert (drop 5 parts = l ++ [f_D f]) as Hdrop by reflexivity.
    assert (parts !! (5 + length l) = Some (f_D f)) as Hlast.
    { change (parts !! (5 + length l)) with ((l ++ [f_D f]) !! length l).
      by apply list_lookup_middle. }
    assert (length parts = 8 + length rest) as Hparts.
    { subst parts. rewrite !length_app. simpl. lia. }
    clearbody parts. cbv zeta. rewrite Hparts.
    replace (8 + length rest <? 6) with false by (symmetry; apply Nat.ltb_ge; lia).
    replace (8 + length rest =? 7) with false by (symmetry; apply Nat.eqb_neq; lia).
    replace (8 + length rest =? 6) with false by (symmetry; apply Nat.eqb_neq; lia).
    replace (8 + length rest - 1 - 5) with (length l) by lia.
    replace (8 + length rest - 1) with (5 + length l) by lia.
    rewrite H0, H1, H2, H3, H4, Hlast, Hdrop, take_app_length, Hjoin.
    reflexivity.
Qed.

(** A line printed with [GIT_LOG_FORMAT] is parsed back into its fields,
    whatever the subject holds: the separators inside a subject are put
    back.  Only the other fields must be free of the separator. *)
Theorem parseLine_recovers_fields (f : LogFields) :
  plainFields f ->
  parseLine parseInt (GIT_LOG_FORMAT f) = Some (commitOf parseInt f).
Proof. apply parseLine_format. Qed.

Lemma format_oneLine (f : LogFields) :
  oneLine f -> free_of "010" (GIT_LOG_FORMAT f).
Proof.
  unfold oneLine, free_of, GIT_LOG_FORMAT. intros H.
  repeat (apply Forall_cons in H as [? H]).
  rewrite !joinWith_cons, !includes_app. cbn [joinWith includes].
  unfold free_of in *. by repeat match goal with
    | Hx : includes _ _ = false |- _ => rewrite Hx; clear Hx end.
Qed.

(** A whole log is parsed back commit by commit, in order: nothing is
    dropped, nothing is made up, and the empty piece after the last line
    break is skipped. *)
Theorem parseLogOutput_recovers_log (fs : list LogFields) :
  Forall plainFields fs -> Forall oneLine fs ->
  parseLogOutput parseInt (logOutput fs) = map (commitOf parseInt) fs.
Proof.
  unfold parseLogOutput. induction fs as [|f fs IH]; intros Hp Ho.
  - reflexivity.
  - apply Forall_cons in Hp as [Hf Hp]. apply Forall_cons in Ho as [Hl Ho].
    cbn [logOutput map]. rewrite splitOn_app.
    rewrite (splitOn_free _ _ (format_oneLine f Hl)).
    change (omap (parseLine parseInt)
              (GIT_LOG_FORMAT f :: splitOn "010" (logOutput fs))
            = commitOf parseInt f :: map (commitOf parseInt) fs).
    rewrite omap_cons_eq.
    rewrite (parseLine_format f Hf). by rewrite (IH Hp Ho).
Qed.

End LogParser.


(** * Properties of the commit detail view and of the row selection *)

Section MessageItems.
Import GitLog.

Lemma popBlank_last (lines : list string) :
  popBlank lines <> [] ->
  exists l, last (popBlank lines) = Some l /\ trim l <> "".
Proof.
  induction lines as [|l rest IH]; cbn [popBlank]; [done|].
  destruct (popBlank rest) as [|x xs].
  - destruct (String.eqb_spec (trim l) "") as [|Hl]; [done|]. intros _. by exists l.
  - intros _. rewrite last_cons_cons. by apply IH.
Qed.

Lemma popBlank_length (lines : list string) :
  length (popBlank lines) <= length lines.
Proof.
  induction lines as [|l rest IH]; cbn [popBlank]; [done|].
  destruct (popBlank rest) as [|x xs].
  - destruct (String.eqb (trim l) ""); simpl; lia.
  - simpl in *. lia.
Qed.

Lemma MessageLine_label (text : string) : MessageLine text <> "".
Proof. unfold MessageLine. by destruct (String.eqb_spec text ""). Qed.

(** The message section of the detail view is never empty, no item has an
    empty label, and the last item is not blank: the trailing blank lines
    of the message are gone, and a message of blank lines only shows the
    placeholder.  There are never more items than lines in the message. *)
Theorem buildMessageItems_labels (fullMessage : string)
    (commitSubject : option string) :
  let msg := if String.eqb fullMessage "" then default "" commitSubject
             else fullMessage in
  let items := buildMessageItems fullMessage commitSubject in
  items <> [] /\ Forall (fun label => label <> "") items /\
  (exists label, last items = Some label /\ trim label <> "") /\
  length items <= length (splitOn "010" msg).
Proof.
  cbv zeta. unfold buildMessageItems.
  replace (match commitSubject with Some s => s | None => "" end)
    with (default "" commitSubject) by by destruct commitSubject.
  set (msg := if String.eqb fullMessage "" then default "" commitSubject
              else fullMessage).
  pose proof (popBlank_last (splitOn "010" msg)) as Hlast.
  pose proof (popBlank_length (splitOn "010" msg)) as Hlen.
  pose proof (splitOn_nonempty "010" msg) as Hne.
  destruct (popBlank (splitOn "010" msg)) as [|l ls] eqn:Hpop.
  - cbn [length Nat.eqb]. split; [done|]. split.
    { apply Forall_singleton, MessageLine_label. }
    split.
    { exists "(no message)". split; [done|]. by apply (trim_nonblank "("). }
    destruct (splitOn "010" msg); [done|]. simpl. lia.
  - cbn [length Nat.eqb]. split; [done|]. split.
    { apply Forall_forall. intros label Hl%list_elem_of_In%in_map_iff.
      destruct Hl as (text & <- & _). apply MessageLine_label. }
    split.
    { destruct Hlast as (text & Ht & Hnb); [done|]. exists text.
      change (map MessageLine (l :: ls)) with (MessageLine <$> (l :: ls)).
      rewrite fmap_last, Ht. cbn. unfold MessageLine.
      destruct (String.eqb_spec text "") as [->|]; [done|]. done. }
    by rewrite length_map.
Qed.

End MessageItems.

Section RowSelection.
Import Selection.

Lemma indexOf_None line rows : indexOf line rows = None <-> line ∉ rows.
Proof.
  induction rows as [|r rows IH]; cbn [indexOf].
  - split; [intros _; apply not_elem_of_nil|done].
  - destruct (Nat.eqb_spec r line) as [->|Hne].
    + split; [done|]. intros []. by left.
    + rewrite not_elem_of_cons. destruct (indexOf line rows); cbn.
      * split; [done|]. intros [_ H]. by apply IH in H.
      * split; [|done]. intros _. split; [done|]. by apply IH.
Qed.

Lemma filter_keeps_all line (rows : list nat) :
  line ∉ rows -> filter (fun x => x <> line) rows = rows.
Proof.
  induction rows as [|r rows IH]; [done|].
  intros [Hr Hrows]%not_elem_of_cons.
  rewrite filter_cons_True by done. by rewrite IH.
Qed.

Lemma indexOf_delete line rows :
  NoDup rows -> line ∈ rows ->
  exists idx, indexOf line rows = Some idx /\
              delete idx rows = filter (fun x => x <> line) rows.
Proof.
  induction rows as [|r rows IH]; intros Hnd Hin.
  - by apply elem_of_nil in Hin.
  - apply NoDup_cons in Hnd as [Hr Hnd]. cbn [indexOf].
    destruct (Nat.eqb_spec r line) as [->|Hne].
    + exists 0. split; [done|]. cbn [delete list_delete].
      rewrite filter_cons_False by (intros H; by apply H).
      by rewrite filter_keeps_all.
    + apply elem_of_cons in Hin as [->|Hin]; [done|].
      destruct (IH Hnd Hin) as (idx & Hidx & Hdel). exists (S idx).
      rewrite Hidx. split; [done|]. cbn [delete list_delete].
      rewrite filter_cons_True by done. f_equal. exact Hdel.
Qed.

Lemma selectRow_cases sel line :
  ((line ∉ sel) /\
   selectRow sel line = if 2 <? length (sel ++ [line]) then tail (sel ++ [line])
                        else sel ++ [line]) \/
  (exists idx, line ∈ sel /\ indexOf line sel = Some idx /\
               selectRow sel line = delete idx sel).
Proof.
  unfold selectRow. destruct (indexOf line sel) as [idx|] eqn:Hidx.
  - right. exists idx. split; [|done]. destruct (decide (line ∈ sel)); [done|].
    apply indexOf_None in n. congruence.
  - left. split; [|done]. by apply indexOf_None.
Qed.

Lemma selectRow_inv sel line :
  NoDup sel -> length sel <= 2 ->
  NoDup (selectRow sel line) /\ length (selectRow sel line) <= 2 /\
  forall x, x ∈ selectRow sel line -> x ∈ sel \/ x = line.
Proof.
  intros Hnd Hlen.
  destruct (selectRow_cases sel line) as [[Hnot ->]|(idx & Hin & Hidx & ->)].
  - assert (NoDup (sel ++ [line])) as Hnd'.
    { apply NoDup_app. split; [done|]. split; [|apply NoDup_singleton].
      intros x Hx ->%list_elem_of_singleton. done. }
    assert (forall x, x ∈ sel ++ [line] -> x ∈ sel \/ x = line) as Hmem.
    { intros x [?|?%list_elem_of_singleton]%elem_of_app; auto. }
    destruct (Nat.ltb_spec 2 (length (sel ++ [line]))) as [Hlt|Hge].
    + rewrite length_app in Hlt. simpl in Hlt.
      destruct (sel ++ [line]) as [|y ys] eqn:Hp; cbn [tail].
      { split; [done|]. split; [simpl; lia|]. by intros x ?%elem_of_nil. }
      apply (f_equal length) in Hp as Hl. rewrite length_app in Hl. simpl in Hl.
      apply NoDup_cons in Hnd' as [_ Hnd']. split; [done|]. split; [lia|].
      intros x Hx. apply Hmem. by right.
    + split; [done|]. split; [lia|]. done.
  - split; [|split].
    + eapply sublist_NoDup; [done|apply sublist_delete].
    + pose proof (sublist_length _ _ (sublist_delete sel idx)). lia.
    + intros x Hx. left. by apply list_elem_of_delete_inv in Hx.
Qed.

Lemma omap_length_le {A B} (f : A -> option B) (l : list A) :
  length (omap f l) <= length l.
Proof.
  induction l as [|x l IH]; [done|]. rewrite omap_cons_eq.
  destruct (f x); simpl; lia.
Qed.

Lemma clicks_snoc lines line :
  clicks (lines ++ [line]) = selectRow (clicks lines) line.
Proof. unfold clicks. by rewrite fold_left_app. Qed.

(** Whatever rows are clicked, in whatever order, at most two rows are
    selected, no row is selected twice, only clicked rows are selected, and
    at most two commits are handed to the comparison. *)
Theorem clicks_invariant (lines : list nat) :
  NoDup (clicks lines) /\ length (clicks lines) <= 2 /\
  (forall x, x ∈ clicks lines -> x ∈ lines) /\
  forall (A : Type) (commits : list A),
    length (getSelectedCommits commits (clicks lines)) <= 2 /\
    forall c, c ∈ getSelectedCommits commits (clicks lines) -> c ∈ commits.
Proof.
  assert (NoDup (clicks lines) /\ length (clicks lines) <= 2 /\
          (forall x, x ∈ clicks lines -> x ∈ lines)) as (Hnd & Hlen & Hmem).
  { induction lines as [|line lines IH] using rev_ind.
    - split; [apply NoDup_nil_2|]. split; [simpl; lia|]. done.
    - destruct IH as (Hnd & Hlen & Hmem). rewrite clicks_snoc.
      destruct (selectRow_inv (clicks lines) line Hnd Hlen) as (Hnd' & Hlen' & Hmem').
      split; [done|]. split; [done|].
      intros x Hx. apply elem_of_app. destruct (Hmem' x Hx) as [?| ->]; [left; auto|].
      right. by apply list_elem_of_singleton. }
  split; [done|]. split; [done|]. split; [done|].
  intros A commits. unfold getSelectedCommits. split.
  - pose proof (omap_length_le (fun line => commits !! line) (clicks lines)). lia.
  - intros c Hc. apply list_elem_of_omap in Hc as (line & _ & Hl).
    by apply list_elem_of_lookup_2 in Hl.
Qed.

(** A click on a selected row deselects it and keeps the others in order; a
    click on an unselected row makes it the newest selected row; and with
    room left a second click on that row undoes the first. *)
Theorem selectRow_toggle (sel : list nat) (line : nat) :
  NoDup sel ->
  (line ∈ sel -> selectRow sel line = filter (fun x => x <> line) sel) /\
  (line ∉ sel -> last (selectRow sel line) = Some line) /\
  (line ∉ sel -> length sel < 2 -> selectRow (selectRow sel line) line = sel).
Proof.
  intros Hnd.
  assert (forall s, NoDup s -> line ∈ s ->
            selectRow s line = filter (fun x => x <> line) s) as Hoff.
  { intros s Hs Hin. destruct (indexOf_delete line s Hs Hin) as (idx & Hidx & Hdel).
    unfold selectRow. by rewrite Hidx. }
  assert (line ∉ sel -> length sel < 2 -> selectRow sel line = sel ++ [line]) as Hon.
  { intros Hnot Hlen. unfold selectRow.
    apply indexOf_None in Hnot as ->.
    destruct (Nat.ltb_spec 2 (length (sel ++ [line]))) as [Hlt|]; [|done].
    rewrite length_app in Hlt. simpl in Hlt. lia. }
  split; [by apply Hoff|]. split.
  - intros Hnot. unfold selectRow. apply indexOf_None in Hnot as ->.
    destruct (Nat.ltb_spec 2 (length (sel ++ [line]))) as [Hlt|]; [|apply last_snoc].
    rewrite length_app in Hlt. simpl in Hlt.
    destruct sel as [|y ys]; [simpl in Hlt; lia|]. cbn [app tail]. apply last_snoc.
  - intros Hnot Hlen. rewrite (Hon Hnot Hlen). rewrite Hoff.
    + rewrite filter_app, filter_keeps_all by done.
      rewrite filter_cons_False by (intros H; by apply H).
      rewrite filter_nil. apply app_nil_r.
    + apply NoDup_app. split; [done|]. split; [|apply NoDup_singleton].
      intros x Hx ->%list_elem_of_singleton. done.
    + apply elem_of_app. right. by apply list_elem_of_singleton.
Qed.

End RowSelection.

Lemma selectRow_toggle_witness :
  (3 ∈ [7; 3] -> Selection.selectRow [7; 3] 3 = filter (fun x => x <> 3) [7; 3]) /\
  (3 ∉ [7; 3] -> last (Selection.selectRow [7; 3] 3) = Some 3) /\
  (3 ∉ [7; 3] -> length [7; 3] < 2 ->
   Selection.selectRow (Selection.selectRow [7; 3] 3) 3 = [7; 3]).
Proof.
  apply (selectRow_toggle [7; 3] 3).
  apply NoDup_cons_2; [|apply NoDup_singleton].
  intros H%list_elem_of_singleton. discriminate H.
Defined.

Lemma parseRefs_sound_witness :
  let r := GitLog.mkRef "origin/main" GitLog.remote in
  GitLog.name r <> "" /\ GitLog.type r <> GitLog.stash /\
  (GitLog.type r = GitLog.head -> GitLog.name r = "HEAD") /\
  (GitLog.type r = GitLog.remote -> GitLog.includes "/" (GitLog.name r) = true).
Proof.
  exact (parseRefs_sound "HEAD -> main, tag: v1, origin/main"
           (GitLog.mkRef "origin/main" GitLog.remote)
           (list_elem_of_lookup_2
              (GitLog.parseRefs "HEAD -> main, tag: v1, origin/main") 3
              (GitLog.mkRef "origin/main" GitLog.remote) eq_refl)).
Defined.

Lemma sampleFields_plain : plainFields sampleFields.
Proof. by repeat split. Qed.

Lemma sampleFields_oneLine : oneLine sampleFields.
Proof. unfold oneLine. by repeat (apply Forall_cons; split); try apply Forall_nil. Qed.

Lemma parseLine_recovers_fields_witness :
  GitLog.parseLine parseIntSample (GitLog.GIT_LOG_FORMAT sampleFields)
  = Some (commitOf parseIntSample sampleFields).
Proof.
  exact (parseLine_recovers_fields parseIntSample sampleFields sampleFields_plain).
Defined.

Lemma parseLogOutput_recovers_log_witness :
  GitLog.parseLogOutput parseIntSample (logOutput [sampleFields; sampleFields])
  = map (commitOf parseIntSample) [sampleFields; sampleFields].
Proof.
  apply (parseLogOutput_recovers_log parseIntSample [sampleFields; sampleFields]).
  - repeat (apply Forall_cons_2; [apply sampleFields_plain|]). apply Forall_nil_2.
  - repeat (apply Forall_cons_2; [apply sampleFields_oneLine|]). apply Forall_nil_2.
Defined.



(** * Properties of the graph document *)

Section GraphDocument.
Import GitLog Document.
Variable toISOString : Z -> option string.
Hypothesis toISOString_oneLine :
  forall ms iso, toISOString ms = Some iso -> free_of "010" iso.

Lemma split_join_parts sep (parts : list string) :
  parts <> [] -> Forall (free_of sep) parts ->
  splitOn sep (joinWith (String sep "") parts) = parts.
Proof.
  induction parts as [|x parts IH]; [done|]. intros _ Hfree.
  apply Forall_cons in Hfree as [Hx Hfree]. destruct parts as [|y parts].
  - by apply splitOn_free.
  - rewrite joinWith_cons, splitOn_app_sep, (splitOn_free _ _ Hx).
    by rewrite IH.
Qed.

Lemma sliceTo_free c n s : free_of c s -> free_of c (sliceTo n s).
Proof.
  unfold free_of. revert s. induction n as [|n IH]; intros [|d s];
    cbn [sliceTo includes]; try done.
  intros [Hd Hs]%orb_false_iff. rewrite Hd. by apply IH.
Qed.

Lemma refTokens_free (rs : list Ref) :
  Forall (fun r => free_of "010" (name r)) rs -> free_of "010" (refTokens rs).
Proof.
  unfold refTokens, free_of. induction rs as [|r rs IH]; [done|].
  intros [Hr Hrs]%Forall_cons. specialize (IH Hrs). cbn [map].
  destruct (map (fun r0 => " " +:+ name r0 +:+ " ") rs) as [|y ys] eqn:Hm.
  - cbn [joinWith]. rewrite !includes_app. unfold free_of in Hr. by rewrite Hr.
  - rewrite joinWith_cons, !includes_app. unfold free_of in Hr.
    by rewrite Hr, IH.
Qed.

Lemma documentLine_free (c : Commit) (l : string) :
  lineFields c -> documentLine toISOString c = Some l -> free_of "010" l.
Proof.
  intros (Hh & Hs & Ha & Hr). unfold documentLine.
  destruct (timestamp c) as [t|]; [|done].
  destruct (toISOString (t * 1000)) as [iso|] eqn:Hiso; [|done].
  cbv zeta. intros Heq. apply (inj Some) in Heq. subst l.
  unfold free_of. rewrite !includes_app.
  pose proof (sliceTo_free "010" 8 _ Hh) as H1.
  pose proof (sliceTo_free "010" 10 _ (toISOString_oneLine _ _ Hiso)) as H2.
  pose proof (refTokens_free _ Hr) as H3.
  unfold free_of in *. by rewrite H1, H2, H3, Hs, Ha.
Qed.

(** Line [i] of the graph document is the line of commit [i]: when no
    field holds a line break, splitting the document at the line breaks
    gives back one line per commit, in order.  This is what lets the
    decoration engine and the row selection use a line number as an index
    into the commits. *)
Theorem document_line_per_commit (commits : list Commit) (doc : string) :
  commits <> [] -> Forall lineFields commits ->
  provideTextDocumentContent toISOString commits = Some doc ->
  Forall2 (fun c l => documentLine toISOString c = Some l)
          commits (splitOn "010" doc).
Proof.
  intros Hne Hfields. unfold provideTextDocumentContent.
  destruct (mapM (documentLine toISOString) commits) as [ls|] eqn:Hm; [|done].
  intros [= <-]. apply mapM_Some in Hm.
  rewrite split_join_parts; [done|..].
  - intros ->. apply Forall2_nil_inv_r in Hm. done.
  - clear Hne. induction Hm as [|c l cs ls Hl Hm IH]; [done|].
    apply Forall_cons in Hfields as [Hc Hcs].
    apply Forall_cons. split; [by apply (documentLine_free c)|by apply IH].
Qed.

End GraphDocument.

Lemma toISOStringSample_oneLine ms iso :
  toISOStringSample ms = Some iso -> free_of "010" iso.
Proof.
  unfold toISOStringSample. destruct (ms =? 1700000000000)%Z; [|done].
  by intros [= <-].
Qed.

Lemma sampleCommit_lineFields :
  Forall lineFields [commitOf parseIntSample sampleFields].
Proof.
  apply Forall_singleton. unfold lineFields.
  split; [vm_compute; reflexivity|]. split; [vm_compute; reflexivity|].
  split; [vm_compute; reflexivity|].
  vm_compute. repeat (apply Forall_cons_2; [reflexivity|]). apply Forall_nil_2.
Qed.

Lemma document_line_per_commit_witness :
  Forall2 (fun c l => Document.documentLine toISOStringSample c = Some l)
    [commitOf parseIntSample sampleFields]
    (GitLog.splitOn "010"
       "  a1b2   HEAD  main  v1  origin/main fix a|b parsing  Ada  2023-11-14").
Proof.
  apply (document_line_per_commit toISOStringSample toISOStringSample_oneLine
           [commitOf parseIntSample sampleFields]).
  - discriminate.
  - apply sampleCommit_lineFields.
  - vm_compute. reflexivity.
Defined.
